(** * Layered graph layout engine: shallow embedding of
      [app_mockup/backend/graph_layout.py] and its properties.

    Python [int] is [Z]; [str] is [string], compared by [String.compare]
    (code-point order); a [dict] whose iteration order is never observed is
    a [gmap]; a [dict] that is iterated ([nodes_by_layer], [groups],
    [edges_by_layer_pair]) is an association list in insertion order.  The
    values of [statistics.mean] and of the hash fallback are exact rationals
    ([Q]), whose order agrees with that of the floats Python computes for
    every layer of fewer than 2^17 nodes.  The builtin [hash] is a parameter:
    for [str] it is seeded per process.  An exception is a [Raise]; the
    [while] loop of [assign_layers] runs on fuel, and is shown to end within
    it.  For [apply_layout_to_nodes], which is about copying and not
    mutating, lists and dicts are objects of an explicit heap. *)

From Stdlib Require Import ZArith QArith Lia.
From Stdlib Require Import Strings.String Strings.Ascii.
From stdpp Require Import base option list gmap strings fin_maps sorting.

Local Open Scope string_scope.
Local Open Scope Z_scope.
Local Open Scope list_scope.

(** ** Data model *)

(** The engine reads the [id] of a node only; [node_label] stands for the rest. *)
Record node := Node { node_id : string; node_label : string }.
Record edge := Edge { source : string; target : string }.

(** ** Exceptions *)

Inductive exn := KeyError (k : string) | TypeError.

(** The outcome of a call: a value, an exception, or a loop of the model out
    of fuel. *)
Inductive result (A : Type) : Type :=
| Ok (a : A)
| Raise (e : exn)
| OutOfFuel.
Arguments Ok {A} a.
Arguments Raise {A} e.
Arguments OutOfFuel {A}.

Definition bind {A B} (r : result A) (f : A -> result B) : result B :=
  match r with
  | Ok a => f a
  | Raise e => Raise e
  | OutOfFuel => OutOfFuel
  end.

#[global] Instance result_bind : MBind result := fun A B f r => bind r f.

Fixpoint mapM_result {A B} (f : A -> result B) (l : list A) : result (list B) :=
  match l with
  | [] => Ok []
  | a :: l' => b ← f a; bs ← mapM_result f l'; Ok (b :: bs)
  end.

(** [d[k]] on a plain dict. *)
Definition getitem {V} (d : gmap string V) (k : string) : result V :=
  match d !! k with
  | Some v => Ok v
  | None => Raise (KeyError k)
  end.

(** [d.get(k, dflt)], and [d[k]] on a [defaultdict]. *)
Definition dget {V} (dflt : V) (d : gmap string V) (k : string) : V :=
  default dflt (d !! k).

(** ** Insertion-ordered dicts of lists ([defaultdict(list)] that is iterated) *)

Section odict.
Context {K : Type} `{EqDecision K} {V : Type}.

(** [d[k].append(v)] *)
Fixpoint od_append (k : K) (v : V) (d : list (K * list V)) : list (K * list V) :=
  match d with
  | [] => [(k, [v])]
  | (k', l) :: d' =>
      if decide (k' = k) then (k', l ++ [v]) :: d'
      else (k', l) :: od_append k v d'
  end.

Fixpoint od_get (d : list (K * list V)) (k : K) : list V :=
  match d with
  | [] => []
  | (k', l) :: d' => if decide (k' = k) then l else od_get d' k
  end.
End odict.

(** ** Sorting: [sorted] / [list.sort] are stable; [lt] is Python's [<] on the keys *)

Section sorting.
Context {A : Type} (lt : A -> A -> bool).

Fixpoint insert_sorted (x : A) (l : list A) : list A :=
  match l with
  | [] => [x]
  | y :: l' => if lt y x then y :: insert_sorted x l' else x :: y :: l'
  end.

Fixpoint py_sorted (l : list A) : list A :=
  match l with
  | [] => []
  | x :: l' => insert_sorted x (py_sorted l')
  end.
End sorting.

(** Python's [<] on tuples of strings. *)
Fixpoint tuple_ltb (a b : list string) : bool :=
  match a, b with
  | [], [] => false
  | [], _ :: _ => true
  | _ :: _, [] => false
  | x :: a', y :: b' =>
      if String.eqb x y then tuple_ltb a' b' else String.ltb x y
  end.

Definition Qltb (x y : Q) : bool := negb (Qle_bool y x).

(** ** assign_layers *)

Record adjacency := Adjacency {
  children : gmap string (list string);
  parents : gmap string (list string);
  in_degree : gmap string Z
}.

Definition node_id_set (nodes : list node) : gset string :=
  list_to_set (map node_id nodes).

Definition add_edge (node_ids : gset string) (a : adjacency) (e : edge) : adjacency :=
  let src := source e in
  let tgt := target e in
  if decide (src ∈ node_ids ∧ tgt ∈ node_ids) then
    {| children := <[src := dget [] (children a) src ++ [tgt]]> (children a);
       parents := <[tgt := dget [] (parents a) tgt ++ [src]]> (parents a);
       in_degree := <[tgt := dget 0 (in_degree a) tgt + 1]> (in_degree a) |}
  else a.

Definition build_adjacency (nodes : list node) (edges : list edge) : adjacency :=
  fold_left (add_edge (node_id_set nodes)) edges
            {| children := ∅; parents := ∅; in_degree := ∅ |}.

Definition init_in_degree (nodes : list node) (deg : gmap string Z) : gmap string Z :=
  fold_left (fun d n => match d !! node_id n with
                        | Some _ => d
                        | None => <[node_id n := 0]> d
                        end) nodes deg.

Record kahn := Kahn {
  layers : gmap string Z;
  degrees : gmap string Z;
  queue : list string
}.

(** The body of the loop that starts the queue with the sources. *)
Definition seed_node (st : kahn) (n : node) : kahn :=
  if dget 0 (degrees st) (node_id n) =? 0 then
    {| layers := <[node_id n := 0]> (layers st);
       degrees := degrees st;
       queue := queue st ++ [node_id n] |}
  else st.

Definition seed_sources (nodes : list node) (deg : gmap string Z) : kahn :=
  fold_left seed_node nodes {| layers := ∅; degrees := deg; queue := [] |}.

(** One pass of the body of [for child_id in children[node_id]]. *)
Definition visit_child (current_layer : Z) (st : kahn) (child_id : string) : kahn :=
  let child_layer := Z.max (dget 0 (layers st) child_id) (current_layer + 1) in
  let d := dget 0 (degrees st) child_id - 1 in
  {| layers := <[child_id := child_layer]> (layers st);
     degrees := <[child_id := d]> (degrees st);
     queue := if d =? 0 then queue st ++ [child_id] else queue st |}.

(** [while queue:] with the number of iterations bounded by [fuel]. *)
Fixpoint process_queue (fuel : nat) (ch : gmap string (list string)) (st : kahn)
  : result kahn :=
  match queue st with
  | [] => Ok st
  | n :: q =>
      match fuel with
      | O => OutOfFuel
      | S fuel' =>
          current_layer ← getitem (layers st) n;
          process_queue fuel' ch
            (fold_left (visit_child current_layer) (dget [] ch n)
               {| layers := layers st; degrees := degrees st; queue := q |})
      end
  end.

Definition default_layers (nodes : list node) (ls : gmap string Z) : gmap string Z :=
  fold_left (fun l n => match l !! node_id n with
                        | Some _ => l
                        | None => <[node_id n := 0]> l
                        end) nodes ls.

(** Every pass of the loop pops one id; the seeding loop pushes at most one
    id per node, and the loop pushes an id only when a decrement takes its
    counter from one to zero, which the included edges allow at most
    [len(edges)] times: [len(nodes) + len(edges)] passes are enough. *)
Definition kahn_fuel (nodes : list node) (edges : list edge) : nat :=
  S (length nodes + length edges).

Definition assign_layers (nodes : list node) (edges : list edge)
  : result (gmap string Z) :=
  let adj := build_adjacency nodes edges in
  let deg := init_in_degree nodes (in_degree adj) in
  st ← process_queue (kahn_fuel nodes edges) (children adj) (seed_sources nodes deg);
  Ok (default_layers nodes (layers st)).

(** ** compute_barycenter *)

Definition HASH_FALLBACK_RANGE : Z := 10000.

(** [statistics.mean] of a non-empty list of ints. *)
Definition mean (l : list Z) : Q :=
  Qmake (fold_right Z.add 0 l) (Pos.of_nat (length l)).

(** Python's [<] on the sort keys [(number, node_id)]. *)
Definition key_ltb (a b : Q * string) : bool :=
  if Qeq_bool (fst a) (fst b) then String.ltb (snd a) (snd b)
  else Qltb (fst a) (fst b).

Section layout.
(** The interpreter's [hash] on [str]: seeded per process, so the
    development is parametric in it. *)
Variable py_hash : string -> Z.

Definition hash_fallback (node_id : string) : Q :=
  Qmake (py_hash node_id mod HASH_FALLBACK_RANGE) (Z.to_pos HASH_FALLBACK_RANGE).

Definition compute_barycenter (node_id : string) (layer_nodes neighbors : list string)
    (node_orders : gmap string Z) : Q :=
  match neighbors with
  | [] => hash_fallback node_id
  | _ :: _ =>
      let positions := omap (fun n => node_orders !! n) neighbors in
      match positions with
      | [] => hash_fallback node_id
      | _ :: _ => mean positions
      end
  end.

(** ** barycenter_ordering *)

(** [for i, node_id in enumerate(l): node_orders[node_id] = i], counting from [i]. *)
Fixpoint assign_from (i : nat) (l : list string) (node_orders : gmap string Z)
  : gmap string Z :=
  match l with
  | [] => node_orders
  | n :: l' => assign_from (S i) l' (<[n := Z.of_nat i]> node_orders)
  end.

Definition init_orders (nodes_by_layer : list (Z * list string)) : gmap string Z :=
  fold_left (fun node_orders item =>
               assign_from 0 (py_sorted String.ltb (snd item)) node_orders)
            nodes_by_layer ∅.

(** The body shared by both sweeps: barycenters of the layer's nodes over
    [neighbors] ([parents] going down, [children] going up), sorted by
    [(bc, node_id)], then renumbered. *)
Definition reorder_layer (nodes_by_layer : list (Z * list string))
    (neighbors : gmap string (list string)) (adjacent_layer : Z)
    (layer_nodes : list string) (node_orders : gmap string Z) : gmap string Z :=
  let node_barycenters :=
    map (fun n => (compute_barycenter n (od_get nodes_by_layer adjacent_layer)
                     (dget [] neighbors n) node_orders, n)) layer_nodes in
  assign_from 0 (map snd (py_sorted key_ltb node_barycenters)) node_orders.

Definition indexed {A} (l : list A) : list (nat * A) := combine (seq 0 (length l)) l.

Definition top_down_sweep (nodes_by_layer : list (Z * list string))
    (parents : gmap string (list string)) (layer_numbers : list Z)
    (node_orders : gmap string Z) : gmap string Z :=
  fold_left (fun node_orders '(layer_idx, layer) =>
               let layer_nodes := od_get nodes_by_layer layer in
               if (layer_idx =? 0)%nat || (length layer_nodes <=? 1)%nat
               then node_orders
               else reorder_layer nodes_by_layer parents (layer - 1)
                      layer_nodes node_orders)
            (indexed layer_numbers) node_orders.

Definition bottom_up_sweep (nodes_by_layer : list (Z * list string))
    (children : gmap string (list string)) (layer_numbers : list Z)
    (node_orders : gmap string Z) : gmap string Z :=
  fold_left (fun node_orders '(layer_idx, layer) =>
               let layer_nodes := od_get nodes_by_layer layer in
               if (layer_idx =? length layer_numbers - 1)%nat
                  || (length layer_nodes <=? 1)%nat
               then node_orders
               else reorder_layer nodes_by_layer children (layer + 1)
                      layer_nodes node_orders)
            (rev (indexed layer_numbers)) node_orders.

(** [for iteration in range(iterations)] *)
Fixpoint sweeps (iterations : nat) (nodes_by_layer : list (Z * list string))
    (children parents : gmap string (list string)) (layer_numbers : list Z)
    (node_orders : gmap string Z) : gmap string Z :=
  match iterations with
  | O => node_orders
  | S k =>
      sweeps k nodes_by_layer children parents layer_numbers
        (bottom_up_sweep nodes_by_layer children layer_numbers
           (top_down_sweep nodes_by_layer parents layer_numbers node_orders))
  end.

(** ** order_bottom_layer_by_support *)

(** A group's position: a number, or [float('inf')]. *)
Inductive group_position := Finite (q : Q) | Infinity.

Definition position_ltb (a b : group_position) : bool :=
  match a, b with
  | Finite x, Finite y => Qltb x y
  | Finite _, Infinity => true
  | Infinity, _ => false
  end.

Definition position_eqb (a b : group_position) : bool :=
  match a, b with
  | Finite x, Finite y => Qeq_bool x y
  | Infinity, Infinity => true
  | _, _ => false
  end.

Definition orphan_key : list string := ["orphan"].

Definition group_nodes_by_parents (bottom_layer_nodes : list string)
    (parents : gmap string (list string)) : list (list string * list string) :=
  fold_left (fun groups node_id =>
               match dget [] parents node_id with
               | [] => od_append orphan_key node_id groups
               | parent_ids => od_append (py_sorted String.ltb parent_ids) node_id groups
               end)
            bottom_layer_nodes [].

Definition group_position_of (parent_orders : gmap string Z) (group_key : list string)
  : group_position :=
  if decide (group_key = orphan_key) then Infinity
  else
    match omap (fun p => parent_orders !! p) group_key with
    | [] => Finite 0
    | parent_positions => Finite (mean parent_positions)
    end.

(** Python's [<] on the keys [(group_position, group_key)]. *)
Definition group_ltb (a b : group_position * list string * list string) : bool :=
  if position_eqb (fst (fst a)) (fst (fst b))
  then tuple_ltb (snd (fst a)) (snd (fst b))
  else position_ltb (fst (fst a)) (fst (fst b)).

Definition order_bottom_layer_by_support (bottom_layer_nodes : list string)
    (parents : gmap string (list string)) (parent_orders : gmap string Z)
  : gmap string Z :=
  let groups := group_nodes_by_parents bottom_layer_nodes parents in
  let sorted_groups :=
    py_sorted group_ltb
      (map (fun g => (group_position_of parent_orders (fst g), fst g, snd g)) groups) in
  fst (fold_left
         (fun acc g =>
            fold_left (fun '(node_orders, current_order) node_id =>
                         (<[node_id := current_order]> node_orders, current_order + 1))
                      (py_sorted String.ltb (snd g)) acc)
         sorted_groups (∅, 0)).

(** The regrouping step that closes [barycenter_ordering]. *)
Definition regroup_bottom (nodes_by_layer : list (Z * list string))
    (parents : gmap string (list string)) (layer_numbers : list Z)
    (node_orders : gmap string Z) : gmap string Z :=
  match last layer_numbers with
  | None => node_orders
  | Some bottom_layer =>
      let bottom_layer_nodes := od_get nodes_by_layer bottom_layer in
      if (1 <? length bottom_layer_nodes)%nat && (1 <? length layer_numbers)%nat
      then order_bottom_layer_by_support bottom_layer_nodes parents node_orders
             ∪ node_orders
      else node_orders
  end.

Definition barycenter_ordering (nodes_by_layer : list (Z * list string))
    (children parents : gmap string (list string)) (iterations : nat)
  : gmap string Z :=
  let layer_numbers := py_sorted Z.ltb (map fst nodes_by_layer) in
  regroup_bottom nodes_by_layer parents layer_numbers
    (sweeps iterations nodes_by_layer children parents layer_numbers
       (init_orders nodes_by_layer)).

(** ** count_edge_crossings *)

Definition bucket_edges (edges : list edge) (node_layers : gmap string Z)
  : list ((Z * Z) * list (string * string)) :=
  fold_left (fun buckets e =>
               match node_layers !! source e, node_layers !! target e with
               | Some src_layer, Some tgt_layer =>
                   if src_layer <? tgt_layer
                   then od_append (src_layer, tgt_layer) (source e, target e) buckets
                   else buckets
               | _, _ => buckets
               end)
            edges [].

Definition edges_cross (node_orders : gmap string Z) (e1 e2 : string * string) : bool :=
  let u1_order := dget 0 node_orders (fst e1) in
  let u2_order := dget 0 node_orders (fst e2) in
  let v1_order := dget 0 node_orders (snd e1) in
  let v2_order := dget 0 node_orders (snd e2) in
  ((u1_order <? u2_order) && (v2_order <? v1_order))
  || ((u2_order <? u1_order) && (v1_order <? v2_order)).

(** The double loop over [i < j] of one bucket. *)
Fixpoint count_pairs (node_orders : gmap string Z) (edge_list : list (string * string))
  : Z :=
  match edge_list with
  | [] => 0
  | e1 :: rest =>
      Z.of_nat (length (filter (fun e2 => edges_cross node_orders e1 e2 = true) rest))
      + count_pairs node_orders rest
  end.

Definition count_edge_crossings (nodes_by_layer : list (Z * list string))
    (edges : list edge) (node_orders node_layers : gmap string Z) : Z :=
  fold_left (fun crossing_count bucket =>
               crossing_count + count_pairs node_orders (snd bucket))
            (bucket_edges edges node_layers) 0.

(** ** compute_layout_positions *)

(** [layer = node_layers[node['id']]; nodes_by_layer[layer].append(node['id'])] *)
Definition group_node (node_layers : gmap string Z)
    (acc : result (list (Z * list string))) (n : node)
  : result (list (Z * list string)) :=
  nodes_by_layer ← acc;
  layer ← getitem node_layers (node_id n);
  Ok (od_append layer (node_id n) nodes_by_layer).

Definition group_by_layer (nodes : list node) (node_layers : gmap string Z)
  : result (list (Z * list string)) :=
  fold_left (group_node node_layers) nodes (Ok []).

(** [sorted(node_list, key=lambda n: node_orders[n])] *)
Definition order_ltb (a b : Z * string) : bool := fst a <? fst b.

Definition sort_by_order (node_orders : gmap string Z) (node_list : list string)
  : result (list string) :=
  keyed ← mapM_result (fun n => o ← getitem node_orders n; Ok (o, n)) node_list;
  Ok (map snd (py_sorted order_ltb keyed)).

Fixpoint place_from (i : nat) (start_x node_spacing y : Z) (sorted_nodes : list string)
    (positions : gmap string (Z * Z)) : gmap string (Z * Z) :=
  match sorted_nodes with
  | [] => positions
  | n :: l' =>
      place_from (S i) start_x node_spacing y l'
        (<[n := (start_x + Z.of_nat i * node_spacing, y)]> positions)
  end.

Definition start_x_of (layer_width : nat) (node_spacing : Z) : Z :=
  let total_width := (Z.of_nat layer_width - 1) * node_spacing in
  if (1 <? layer_width)%nat then (- total_width) / 2 else 0.

(** The body of [for layer, node_list in nodes_by_layer.items()]. *)
Definition place_layer (node_orders : gmap string Z) (node_spacing layer_separation : Z)
    (acc : result (gmap string (Z * Z) * Z)) (item : Z * list string)
  : result (gmap string (Z * Z) * Z) :=
  st ← acc;
  let layer_width := length (snd item) in
  sorted_nodes ← sort_by_order node_orders (snd item);
  Ok (place_from 0 (start_x_of layer_width node_spacing) node_spacing
        (fst item * layer_separation) sorted_nodes (fst st),
      Z.max (snd st) (Z.of_nat layer_width)).

Definition place_layers (nodes_by_layer : list (Z * list string))
    (node_orders : gmap string Z) (node_spacing layer_separation : Z)
  : result (gmap string (Z * Z) * Z) :=
  fold_left (place_layer node_orders node_spacing layer_separation)
            nodes_by_layer (Ok (∅, 0)).

Definition edge_adjacency (nodes : list node) (edges : list edge)
  : gmap string (list string) * gmap string (list string) :=
  let node_ids := node_id_set nodes in
  fold_left (fun '(children, parents) e =>
               let src := source e in
               let tgt := target e in
               if decide (src ∈ node_ids ∧ tgt ∈ node_ids) then
                 (<[src := dget [] children src ++ [tgt]]> children,
                  <[tgt := dget [] parents tgt ++ [src]]> parents)
               else (children, parents))
            edges (∅, ∅).

Definition layout := (gmap string (Z * Z) * gmap string Z * gmap string Z)%type.

(** Steps 1 and 2 of [compute_layout_positions]: the layer map, the
    per-layer node lists and the final order map. *)
Definition ordering_stage (nodes : list node) (edges : list edge) (iterations : nat)
  : result (gmap string Z * list (Z * list string) * gmap string Z) :=
  node_layers ← assign_layers nodes edges;
  nodes_by_layer ← group_by_layer nodes node_layers;
  let '(children, parents) := edge_adjacency nodes edges in
  Ok (node_layers, nodes_by_layer,
      barycenter_ordering nodes_by_layer children parents iterations).

Definition compute_layout_positions (nodes : list node) (edges : list edge)
    (node_spacing layer_separation : Z) (iterations : nat) : result layout :=
  match nodes with
  | [] => Ok (∅, <["crossings" := 0]> (<["layers" := 0]> (<["max_layer_width" := 0]> ∅)), ∅)
  | _ :: _ =>
      '(node_layers, nodes_by_layer, node_orders) ← ordering_stage nodes edges iterations;
      '(positions, max_layer_width) ←
        place_layers nodes_by_layer node_orders node_spacing layer_separation;
      let crossings := count_edge_crossings nodes_by_layer edges node_orders node_layers in
      Ok (positions,
          <["crossings" := crossings]>
            (<["layers" := Z.of_nat (length nodes_by_layer)]>
               (<["max_layer_width" := max_layer_width]>
                  (<["total_nodes" := Z.of_nat (length nodes)]>
                     (<["total_edges" := Z.of_nat (length edges)]> ∅)))),
          node_layers)
  end.

(** The crossing count of the final order: the [crossings] metric. *)
Definition final_crossings (nodes : list node) (edges : list edge) (iterations : nat)
  : result Z :=
  '(node_layers, nodes_by_layer, node_orders) ← ordering_stage nodes edges iterations;
  Ok (count_edge_crossings nodes_by_layer edges node_orders node_layers).

(** The crossing count of the lexicographic order of every layer (the
    order [barycenter_ordering] starts from), over the pipeline's layers. *)
Definition naive_crossings (nodes : list node) (edges : list edge) : result Z :=
  node_layers ← assign_layers nodes edges;
  nodes_by_layer ← group_by_layer nodes node_layers;
  Ok (count_edge_crossings nodes_by_layer edges (init_orders nodes_by_layer) node_layers).
End layout.

(** ** apply_layout_to_nodes *)

(** Node records are Python dicts and node lists are Python lists: mutable
    objects reached through references.  The heap is the list of the objects
    allocated so far and a reference is an index into it; a new object is
    appended. *)
Inductive pyval := VStr (s : string) | VInt (z : Z) | VNone.
Inductive pyobj := ODict (d : gmap string pyval) | OList (items : list nat).

Abbreviation heap := (list pyobj).

Definition get_dict (hp : heap) (r : nat) : result (gmap string pyval) :=
  match hp !! r with
  | Some (ODict d) => Ok d
  | _ => Raise TypeError
  end.

Definition get_list (hp : heap) (r : nat) : result (list nat) :=
  match hp !! r with
  | Some (OList items) => Ok items
  | _ => Raise TypeError
  end.

(** [l.append(x)] on the list object [l] *)
Definition list_append (hp : heap) (l x : nat) : result heap :=
  items ← get_list hp l;
  Ok (<[l := OList (items ++ [x])]> hp).

(** [positions.get(node_id)] for a key of any type; the keys of [positions]
    are strings. *)
Definition position_at (positions : gmap string (Z * Z)) (node_id : pyval)
  : option (Z * Z) :=
  match node_id with
  | VStr s => positions !! s
  | _ => None
  end.

(** The body of [for node in nodes]; [result_list] is the list [result]. *)
Definition copy_node (positions : gmap string (Z * Z)) (result_list : nat)
    (acc : result heap) (node : nat) : result heap :=
  hp ← acc;
  d ← get_dict hp node;
  let node_copy := length hp in
  let hp := hp ++ [ODict d] in
  node_id ← getitem d "id";
  let hp :=
    match position_at positions node_id with
    | Some (x, y) =>
        <[node_copy := ODict (<["y" := VInt y]> (<["x" := VInt x]> d))]> hp
    | None => hp
    end in
  list_append hp result_list node_copy.

Definition apply_layout_to_nodes (nodes : nat) (positions : gmap string (Z * Z))
    (hp : heap) : result (nat * heap) :=
  items ← get_list hp nodes;
  let result_list := length hp in
  hp' ← fold_left (copy_node positions result_list) items (Ok (hp ++ [OList []]));
  Ok (result_list, hp').

(** What the result record of a node must be: the record itself, with [x]
    and [y] set when its id has a position. *)
Definition with_position (positions : gmap string (Z * Z)) (d : gmap string pyval)
  : gmap string pyval :=
  match d !! "id" ≫= position_at positions with
  | Some (x, y) => <["y" := VInt y]> (<["x" := VInt x]> d)
  | None => d
  end.

(** Every item is a record of the heap with an [id] field. *)
Definition node_records (hp : heap) (items : list nat) : Prop :=
  forall r, r ∈ items -> exists d, hp !! r = Some (ODict d) /\ is_Some (d !! "id").

(** [nodes] is a list object whose items are node records. *)
Definition node_list (hp : heap) (nodes : nat) (items : list nat) : Prop :=
  hp !! nodes = Some (OList items) /\ node_records hp items.

(** * Specification vocabulary *)

(** ** Reading a result *)

Definition position_of (r : result layout) (n : string) : option (Z * Z) :=
  match r with Ok (positions, _, _) => positions !! n | _ => None end.
Definition metric_of (r : result layout) (k : string) : option Z :=
  match r with Ok (_, metrics, _) => metrics !! k | _ => None end.
Definition layer_of (r : result layout) (n : string) : option Z :=
  match r with Ok (_, _, node_layers) => node_layers !! n | _ => None end.
Definition order_of (r : result (gmap string Z * list (Z * list string) * gmap string Z))
    (n : string) : option Z :=
  match r with Ok (_, _, node_orders) => node_orders !! n | _ => None end.

Definition make_nodes (ids : list string) : list node := map (fun i => Node i i) ids.

Definition crossings_le (a b : result Z) : Prop :=
  match a, b with
  | Ok x, Ok y => x <= y
  | _, _ => False
  end.

(** Modelled from the spec: section 4.4 gives the left end of a layer as
    [-floor(width/2)] with [width = (count-1) * node_spacing]; this is the
    spec's formula, to be compared with [start_x_of], which is the code's. *)
Definition spec_start_x (count : nat) (node_spacing : Z) : Z :=
  if (1 <? count)%nat then - (((Z.of_nat count - 1) * node_spacing) / 2) else 0.

(** ** The order map is a bijection on every layer *)

(** [node_orders] restricted to the nodes of [layer_nodes] is a bijection onto
    [0 .. len(layer_nodes) - 1]. *)
Definition bijective_on (node_orders : gmap string Z) (layer_nodes : list string) : Prop :=
  (fun n => node_orders !! n) <$> layer_nodes
  ≡ₚ (fun k => Some (Z.of_nat k)) <$> seq 0 (length layer_nodes).

Definition order_invariant (nodes_by_layer : list (Z * list string))
    (node_orders : gmap string Z) : Prop :=
  Forall (fun item => bijective_on node_orders (snd item)) nodes_by_layer.

(** Every node of the layers has an order. *)
Definition orders_cover (node_orders : gmap string Z)
    (nodes_by_layer : list (Z * list string)) : Prop :=
  forall n, n ∈ concat (map snd nodes_by_layer) -> is_Some (node_orders !! n).

(** The layers of a graph with unique node ids: a dict (unique keys) whose
    lists are duplicate-free and pairwise disjoint. *)
Definition unique_ids (nodes_by_layer : list (Z * list string)) : Prop :=
  NoDup (map fst nodes_by_layer) /\ NoDup (concat (map snd nodes_by_layer)).

(** The members of the groups, in the order the final loop numbers them. *)
Definition bottom_sequence (bottom_layer_nodes : list string)
    (parents : gmap string (list string)) (parent_orders : gmap string Z) : list string :=
  concat (map (fun g => py_sorted String.ltb (snd g))
            (py_sorted group_ltb
               (map (fun g => (group_position_of parent_orders (fst g), fst g, snd g))
                    (group_nodes_by_parents bottom_layer_nodes parents)))).

(** The edges that [assign_layers] and [compute_layout_positions] keep. *)
Definition valid_edges (nodes : list node) (edges : list edge) : list edge :=
  filter (fun e => source e ∈ node_id_set nodes /\ target e ∈ node_id_set nodes) edges.

(** A node is resolved when the queue reaches it: every included edge into it
    comes from a resolved node, so there is no cycle among its ancestors.  The
    other nodes are the ones the spec calls part of an unresolved cycle: they
    lie on a cycle of included edges, or downstream of one. *)
Inductive resolved (E : list edge) : string -> Prop :=
| resolved_intro (v : string) :
    (forall e, e ∈ E -> target e = v -> resolved E (source e)) -> resolved E v.

Definition layering_invariant (nodes : list node) (edges : list edge)
    (node_layers : gmap string Z) : Prop :=
  forall e, e ∈ edges ->
    source e ∈ map node_id nodes -> target e ∈ map node_id nodes ->
    resolved (valid_edges nodes edges) (source e) ->
    exists lu lv, node_layers !! source e = Some lu /\ node_layers !! target e = Some lv
                  /\ lu < lv.

(** The included edges lead from [u] to [v], in zero or more steps. *)
Inductive path (E : list edge) : string -> string -> Prop :=
| path_refl (v : string) : path E v v
| path_step (e : edge) (v : string) :
    e ∈ E -> path E (target e) v -> path E (source e) v.

(** No included edge closes a cycle. *)
Definition acyclic (E : list edge) : Prop :=
  forall e, e ∈ E -> ~ path E (target e) (source e).

(** Every edge between nodes of the list goes to a strictly deeper layer. *)
Definition strictly_layered (nodes : list node) (edges : list edge)
    (node_layers : gmap string Z) : Prop :=
  forall e, e ∈ edges ->
    source e ∈ map node_id nodes -> target e ∈ map node_id nodes ->
    exists lu lv, node_layers !! source e = Some lu /\ node_layers !! target e = Some lv
                  /\ lu < lv.

Definition children_of (E : list edge) (u : string) : list string :=
  map target (filter (fun e => source e = u) E).
Definition parents_of (E : list edge) (v : string) : list string :=
  map source (filter (fun e => target e = v) E).

Definition occurrences (v : string) (cs : list string) : nat :=
  length (filter (fun c => c = v) cs).

(** The in-edges of [v] whose source has not been processed yet: the value
    the counter [in_degree[v]] holds while the ids of [P] have been popped. *)
Definition remaining (E : list edge) (P : list string) (v : string) : Z :=
  Z.of_nat (length (filter (fun e => target e = v /\ source e ∉ P) E)).

(** The layer the edges out of the ids of [P] give to [v]: one below the
    deepest of them, and 0 without any. *)
Definition max_list (l : list Z) : Z := fold_right Z.max 0 l.

Definition layer_spec (E : list edge) (P : list string) (L : gmap string Z) (v : string)
  : Z :=
  max_list (map (fun e => dget 0 L (source e) + 1)
                (filter (fun e => target e = v /\ source e ∈ P) E)).

(** What is left to push: the sum of the positive counters of the ids [ks]. *)
Definition positive_mass (ks : list string) (D : gmap string Z) : nat :=
  sum_list ((fun k => Z.to_nat (dget 0 D k)) <$> ks).

(** Every queued id has a layer, so [layers[node_id]] does not raise. *)
Definition queue_layered (st : kahn) : Prop :=
  forall v, v ∈ queue st -> is_Some (layers st !! v).

(** The state of the queue loop after the ids of [P] have been popped. *)
Record kahn_inv (ids : list string) (E : list edge) (P : list string) (st : kahn)
: Prop := {
  inv_deg : forall v, dget 0 (degrees st) v = remaining E P v;
  inv_front : forall v, v ∈ ids -> (remaining E P v = 0 <-> v ∈ queue st \/ v ∈ P);
  inv_nodup : NoDup (queue st ++ P);
  inv_ids : forall v, v ∈ queue st ++ P -> v ∈ ids;
  inv_queued : forall v, v ∈ queue st -> is_Some (layers st !! v);
  inv_edges : forall e, e ∈ E -> source e ∈ P ->
              exists lu lv, layers st !! source e = Some lu
                            /\ layers st !! target e = Some lv /\ lu < lv;
  inv_resolved : forall v, v ∈ queue st ++ P -> resolved E v;
  inv_layer : forall v, dget 0 (layers st) v = layer_spec E P (layers st) v
}.

(** ** Graphs of the test-suite and small inputs *)

Definition diamond_nodes := make_nodes ["A"; "B"; "C"; "D"].
Definition diamond_edges :=
  [Edge "A" "B"; Edge "A" "C"; Edge "B" "D"; Edge "C" "D"].

Definition messy_nodes :=
  make_nodes ["A"; "B"; "C"; "D"; "E"; "F"; "G"; "H"; "I"; "J"; "K"].
Definition messy_edges :=
  [Edge "A" "C"; Edge "A" "D"; Edge "B" "E"; Edge "B" "F";
   Edge "C" "G"; Edge "D" "G"; Edge "E" "H"; Edge "F" "I";
   Edge "G" "J"; Edge "H" "J"; Edge "H" "K"; Edge "I" "K"].

(** [a] has the children [c] and [d]; [b] is isolated and takes the hash fallback. *)
Definition lone_nodes := make_nodes ["a"; "b"; "c"; "d"].
Definition lone_edges := [Edge "a" "c"; Edge "a" "d"].

(** A long edge [a -> e] next to short ones. *)
Definition skew_nodes := make_nodes ["a"; "b"; "c"; "d"; "e"].
Definition skew_edges :=
  [Edge "a" "b"; Edge "a" "c"; Edge "a" "e"; Edge "b" "d"; Edge "c" "e"; Edge "c" "d"].

(** The edge [c -> e] occurs twice (say, once per relation). *)
Definition twice_nodes := make_nodes ["a"; "b"; "c"; "d"; "e"; "f"].
Definition twice_edges :=
  [Edge "a" "d"; Edge "a" "e"; Edge "b" "f"; Edge "c" "d"; Edge "c" "e"; Edge "c" "e"].

Definition pair_nodes := make_nodes ["A"; "B"].

(** Two records and the list [[A, B]] that holds them. *)
Definition sample_heap : heap :=
  [ ODict {["id" := VStr "A"; "label" := VStr "Top"]};
    ODict {["id" := VStr "B"; "label" := VStr "Left"]};
    OList [0%nat; 1%nat] ].

(** ** Vocabulary of the further properties *)

#[global] Instance edge_eq_dec : EqDecision edge.
Proof. solve_decision. Defined.

(** A walk of [n] included edges from [u] to [v]. *)
Inductive walk (E : list edge) : nat -> string -> string -> Prop :=
| walk_nil (v : string) : walk E 0 v v
| walk_cons (e : edge) (n : nat) (v : string) :
    e ∈ E -> walk E n (target e) v -> walk E (S n) (source e) v.

(** The number of nodes of a layer. *)
Definition layer_width (nodes : list node) (node_layers : gmap string Z) (layer : Z) : nat :=
  length (filter (fun m => node_layers !! m = Some layer) (map node_id nodes)).

(** The pair of layers an edge spans when [count_edge_crossings] keeps it:
    both endpoints have a layer and the target lies deeper. *)
Definition spanned_layers (node_layers : gmap string Z) (e : edge) : option (Z * Z) :=
  match node_layers !! source e, node_layers !! target e with
  | Some src_layer, Some tgt_layer =>
      if src_layer <? tgt_layer then Some (src_layer, tgt_layer) else None
  | _, _ => None
  end.

(** Two edges cross: they span the same pair of layers and their endpoints
    are in opposite orders. *)
Definition crossing_pair (node_orders node_layers : gmap string Z) (e1 e2 : edge) : bool :=
  match spanned_layers node_layers e1, spanned_layers node_layers e2 with
  | Some p1, Some p2 =>
      bool_decide (p1 = p2)
      && edges_cross node_orders (source e1, target e1) (source e2, target e2)
  | _, _ => false
  end.

(** The number of pairs of edges, taken in the order of the list, that cross. *)
Fixpoint crossing_pairs (node_orders node_layers : gmap string Z) (edges : list edge) : Z :=
  match edges with
  | [] => 0
  | e1 :: rest =>
      Z.of_nat (length (filter (fun e2 => crossing_pair node_orders node_layers e1 e2 = true)
                          rest))
      + crossing_pairs node_orders node_layers rest
  end.

(** The key under which [order_bottom_layer_by_support] files a node: the
    sorted tuple of its parent ids, or [('orphan',)] without parents. *)
Definition group_key (parents : gmap string (list string)) (node_id : string) : list string :=
  match dget [] parents node_id with
  | [] => orphan_key
  | parent_ids => py_sorted String.ltb parent_ids
  end.

(** The node list the layout engine reads off the records [items]: the
    [i]-th record has the id of the [i]-th node. *)
Definition records_of (hp : heap) (items : list nat) (nodes : list node) : Prop :=
  Forall2 (fun r n => exists d, hp !! r = Some (ODict d)
                                /\ d !! "id" = Some (VStr (node_id n)))
          items nodes.

(** The bottom layer of the test-suite: three premises under [Claim1], two
    under [Claim2]. *)
Definition support_nodes : list string := ["P1"; "P2"; "P3"; "P4"; "P5"].
Definition support_parents : gmap string (list string) :=
  {["P1" := ["Claim1"]; "P2" := ["Claim1"]; "P3" := ["Claim1"];
    "P4" := ["Claim2"]; "P5" := ["Claim2"]]}.
Definition support_orders : gmap string Z := {["Claim1" := 0; "Claim2" := 1]}.

(** [y] has no parent; the one parent of [x] has the id [orphan]. *)
Definition stray_nodes : list string := ["x"; "y"].
Definition stray_parents : gmap string (list string) := {["x" := ["orphan"]]}.

(** Three nodes of the deepest layer under the parents [a] and [c] (the
    edges into [e] come in the other order), one under [b]. *)
Definition twin_nodes : list node := make_nodes ["a"; "b"; "c"; "d"; "e"; "f"; "g"].
Definition twin_edges : list edge :=
  [Edge "a" "d"; Edge "c" "d"; Edge "c" "e"; Edge "a" "e"; Edge "b" "f";
   Edge "a" "g"; Edge "c" "g"].

(** The second record has no [id]. *)
Definition broken_heap : heap :=
  [ ODict {["id" := VStr "A"; "label" := VStr "Top"]};
    ODict {["label" := VStr "Left"]};
    OList [0%nat; 1%nat] ].

(** * Properties *)

(** ** Sorting and numbering *)

Section sorting_facts.
Context {A : Type} (lt : A -> A -> bool).

Lemma insert_sorted_perm (x : A) (l : list A) : insert_sorted lt x l ≡ₚ x :: l.
Proof.
  induction l as [|y l IH]; cbn; [done|].
  destruct (lt y x); [|done].
  rewrite IH. apply perm_swap.
Qed.

Lemma py_sorted_perm (l : list A) : py_sorted lt l ≡ₚ l.
Proof.
  induction l as [|x l IH]; cbn; [done|].
  by rewrite insert_sorted_perm, IH.
Qed.

(** The result is ordered: no element is [lt] its predecessor. *)
Hypothesis lt_asym : forall x y, lt x y = true -> lt y x = false.

Lemma insert_sorted_sorted (x : A) (l : list A) :
  Sorted (fun a b => lt b a = false) l ->
  Sorted (fun a b => lt b a = false) (insert_sorted lt x l).
Proof.
  induction 1 as [|y l Hs IH Hd]; cbn.
  - repeat constructor.
  - destruct (lt y x) eqn:E.
    + constructor; [done|].
      destruct Hd as [|z l Hyz]; cbn.
      * constructor. by apply lt_asym.
      * destruct (lt z x); constructor; [done | by apply lt_asym].
    + constructor; [by constructor | by constructor].
Qed.

Lemma py_sorted_sorted (l : list A) :
  Sorted (fun a b => lt b a = false) (py_sorted lt l).
Proof.
  induction l as [|x l IH]; cbn; [constructor | by apply insert_sorted_sorted].
Qed.
End sorting_facts.

Lemma assign_from_notin (i : nat) (l : list string) (o : gmap string Z) (n : string) :
  n ∉ l -> assign_from i l o !! n = o !! n.
Proof.
  revert i o. induction l as [|m l IH]; intros i o Hn; cbn; [done|].
  apply not_elem_of_cons in Hn as [Hne Hn].
  rewrite IH by done. by rewrite lookup_insert_ne.
Qed.

Lemma assign_from_nth (i : nat) (l : list string) (o : gmap string Z) (k : nat) (n : string) :
  NoDup l -> l !! k = Some n -> assign_from i l o !! n = Some (Z.of_nat (i + k)).
Proof.
  revert i o k. induction l as [|m l IH]; intros i o k Hnd Hk; [done|].
  apply NoDup_cons in Hnd as [Hm Hnd]. destruct k as [|k]; cbn in *.
  - injection Hk as ->. rewrite assign_from_notin by done.
    rewrite lookup_insert_eq. do 2 f_equal. lia.
  - rewrite (IH (S i) _ k) by done. do 2 f_equal. lia.
Qed.

Lemma assign_from_numbers (i : nat) (l : list string) (o : gmap string Z) :
  NoDup l ->
  (fun n => assign_from i l o !! n) <$> l
  = (fun k => Some (Z.of_nat k)) <$> seq i (length l).
Proof.
  intros Hnd. apply list_eq. intros k.
  rewrite !list_lookup_fmap.
  destruct (l !! k) as [n|] eqn:Hk; cbn.
  - rewrite (assign_from_nth i l o k n) by done.
    rewrite lookup_seq_lt by (by eapply lookup_lt_Some). done.
  - apply lookup_ge_None in Hk. by rewrite lookup_seq_ge.
Qed.

Lemma bijective_on_ext (o o' : gmap string Z) (l : list string) :
  (forall n, n ∈ l -> o' !! n = o !! n) -> bijective_on o l -> bijective_on o' l.
Proof.
  unfold bijective_on. intros Heq Hb. rewrite <- Hb.
  assert (((fun n => o' !! n) <$> l) = ((fun n => o !! n) <$> l)) as ->; [|done].
  apply list_fmap_ext. intros k n Hk. apply Heq.
  by eapply list_elem_of_lookup_2.
Qed.

Lemma bijective_on_renumber (o : gmap string Z) (l s : list string) :
  NoDup l -> s ≡ₚ l -> bijective_on (assign_from 0 s o) l.
Proof.
  intros Hnd Hp. unfold bijective_on.
  rewrite <- Hp at 1. rewrite assign_from_numbers by (by rewrite Hp).
  by rewrite (Permutation_length Hp).
Qed.

Lemma od_get_cases {K V} `{EqDecision K} (d : list (K * list V)) (k : K) :
  od_get d k = [] \/ (k, od_get d k) ∈ d.
Proof.
  induction d as [|[k' l] d IH]; cbn; [by left|].
  destruct (decide (k' = k)) as [->|Hne].
  - right. apply elem_of_cons. by left.
  - destruct IH as [IH|IH]; [by left | right; apply elem_of_cons; by right].
Qed.

Lemma elem_of_concat {A} (x : A) (ls : list (list A)) :
  x ∈ concat ls <-> exists l, x ∈ l /\ l ∈ ls.
Proof.
  induction ls as [|l ls IH]; cbn.
  - split; [intros H; by apply elem_of_nil in H | intros (l & _ & H); by apply elem_of_nil in H].
  - rewrite elem_of_app, IH. split.
    + intros [H|(l' & H1 & H2)]; [exists l | exists l']; split; try done;
        apply elem_of_cons; [by left | by right].
    + intros (l' & H1 & H2). apply elem_of_cons in H2 as [->|H2]; [by left | right; eauto].
Qed.

Lemma concat_elem_disjoint {A} (ls : list (list A)) (l1 l2 : list A) :
  NoDup (concat ls) -> l1 ∈ ls -> l2 ∈ ls ->
  l1 = l2 \/ forall x, x ∈ l1 -> x ∉ l2.
Proof.
  induction ls as [|l ls IH]; cbn; intros Hnd H1 H2; [by apply elem_of_nil in H1|].
  apply NoDup_app in Hnd as (Hl & Hdis & Hnd).
  apply elem_of_cons in H1 as [->|H1]; apply elem_of_cons in H2 as [->|H2].
  - by left.
  - right. intros x Hx Hx2. apply (Hdis x Hx).
    apply elem_of_concat. eauto.
  - right. intros x Hx Hx2. apply (Hdis x Hx2).
    apply elem_of_concat. eauto.
  - by apply IH.
Qed.

Lemma concat_elem_NoDup {A} (ls : list (list A)) (l : list A) :
  NoDup (concat ls) -> l ∈ ls -> NoDup l.
Proof.
  induction ls as [|l' ls IH]; cbn; intros Hnd H1; [by apply elem_of_nil in H1|].
  apply NoDup_app in Hnd as (Hl & Hdis & Hnd).
  apply elem_of_cons in H1 as [->|H1]; [done | by apply IH].
Qed.

(** Renumbering one layer keeps the invariant: the other layers share no id
    with it. *)
Lemma renumber_invariant (nodes_by_layer : list (Z * list string))
    (o : gmap string Z) (layer : Z) (layer_nodes s : list string) :
  unique_ids nodes_by_layer -> (layer, layer_nodes) ∈ nodes_by_layer ->
  s ≡ₚ layer_nodes ->
  order_invariant nodes_by_layer o -> order_invariant nodes_by_layer (assign_from 0 s o).
Proof.
  intros [_ Hnd] Hin Hp Hinv. unfold order_invariant in *.
  rewrite Forall_forall in Hinv. apply Forall_forall. intros [k l] Hl. cbn.
  assert (layer_nodes ∈ map snd nodes_by_layer) as HL.
  { apply (list_elem_of_fmap_2 snd) in Hin. exact Hin. }
  assert (l ∈ map snd nodes_by_layer) as Hl'.
  { apply (list_elem_of_fmap_2 snd) in Hl. exact Hl. }
  destruct (concat_elem_disjoint _ _ _ Hnd Hl' HL) as [->|Hdis].
  - apply bijective_on_renumber; [by eapply concat_elem_NoDup | done].
  - eapply bijective_on_ext; [|exact (Hinv _ Hl)].
    intros n Hn. apply assign_from_notin. rewrite Hp. by apply Hdis.
Qed.

Lemma init_orders_invariant (nodes_by_layer : list (Z * list string)) :
  unique_ids nodes_by_layer -> order_invariant nodes_by_layer (init_orders nodes_by_layer).
Proof.
  intros [_ Hnd]. unfold init_orders, order_invariant.
  enough (forall (rest done : list (Z * list string)) (o : gmap string Z),
             NoDup (concat (map snd (done ++ rest))) ->
             Forall (fun item => bijective_on o (snd item)) done ->
             Forall (fun item => bijective_on
                       (fold_left (fun node_orders item =>
                          assign_from 0 (py_sorted String.ltb (snd item)) node_orders)
                          rest o) (snd item)) (done ++ rest)) as H.
  { apply (H nodes_by_layer [] ∅); [done | constructor]. }
  induction rest as [|item rest IH]; intros done o Hnd' Hdone; cbn.
  - by rewrite app_nil_r.
  - replace (done ++ item :: rest) with ((done ++ [item]) ++ rest) in *
      by (by rewrite <- app_assoc).
    apply IH; [done|].
    rewrite map_app, concat_app in Hnd'. apply NoDup_app in Hnd' as (Hnd1 & _ & _).
    rewrite map_app, concat_app in Hnd1. cbn in Hnd1. rewrite app_nil_r in Hnd1.
    apply NoDup_app in Hnd1 as (_ & Hdis & Hitem).
    apply Forall_app. split.
    + rewrite Forall_forall in Hdone. apply Forall_forall. intros d Hd.
      eapply bijective_on_ext; [|exact (Hdone _ Hd)].
      intros n Hn. apply assign_from_notin. rewrite py_sorted_perm.
      apply Hdis. apply elem_of_concat. exists (snd d). split; [done|].
      by apply (list_elem_of_fmap_2 snd) in Hd.
    + repeat constructor. apply bijective_on_renumber; [done | apply py_sorted_perm].
Qed.

Lemma reorder_layer_invariant (h : string -> Z) (nodes_by_layer : list (Z * list string))
    (neighbors : gmap string (list string)) (adjacent layer : Z) (o : gmap string Z) :
  unique_ids nodes_by_layer -> order_invariant nodes_by_layer o ->
  order_invariant nodes_by_layer
    (reorder_layer h nodes_by_layer neighbors adjacent (od_get nodes_by_layer layer) o).
Proof.
  intros Hu Hinv. unfold reorder_layer.
  destruct (od_get_cases nodes_by_layer layer) as [->|Hin]; [done|].
  eapply renumber_invariant; [done | exact Hin | | done].
  rewrite py_sorted_perm. rewrite map_map. cbn. by rewrite map_id.
Qed.

Lemma top_down_sweep_invariant (h : string -> Z) (nodes_by_layer : list (Z * list string))
    (parents : gmap string (list string)) (layer_numbers : list Z) (o : gmap string Z) :
  unique_ids nodes_by_layer -> order_invariant nodes_by_layer o ->
  order_invariant nodes_by_layer (top_down_sweep h nodes_by_layer parents layer_numbers o).
Proof.
  intros Hu. unfold top_down_sweep. generalize (indexed layer_numbers).
  intros l. revert o. induction l as [|[idx layer] l IH]; intros o Hinv; cbn; [done|].
  apply IH. destruct (_ || _); [done | by apply reorder_layer_invariant].
Qed.

Lemma bottom_up_sweep_invariant (h : string -> Z) (nodes_by_layer : list (Z * list string))
    (children : gmap string (list string)) (layer_numbers : list Z) (o : gmap string Z) :
  unique_ids nodes_by_layer -> order_invariant nodes_by_layer o ->
  order_invariant nodes_by_layer (bottom_up_sweep h nodes_by_layer children layer_numbers o).
Proof.
  intros Hu. unfold bottom_up_sweep. generalize (rev (indexed layer_numbers)).
  generalize (length layer_numbers - 1)%nat.
  intros k l. revert o. induction l as [|[idx layer] l IH]; intros o Hinv; cbn; [done|].
  apply IH. destruct (_ || _); [done | by apply reorder_layer_invariant].
Qed.

Lemma sweeps_invariant (h : string -> Z) (iterations : nat)
    (nodes_by_layer : list (Z * list string)) (children parents : gmap string (list string))
    (layer_numbers : list Z) (o : gmap string Z) :
  unique_ids nodes_by_layer -> order_invariant nodes_by_layer o ->
  order_invariant nodes_by_layer
    (sweeps h iterations nodes_by_layer children parents layer_numbers o).
Proof.
  intros Hu. revert o. induction iterations as [|k IH]; intros o Hinv; cbn; [done|].
  apply IH. by apply bottom_up_sweep_invariant, top_down_sweep_invariant.
Qed.

(** *** The bottom-layer regrouping renumbers the bottom layer *)

Lemma assign_from_app (i : nat) (l1 l2 : list string) (o : gmap string Z) :
  assign_from i (l1 ++ l2) o = assign_from (i + length l1) l2 (assign_from i l1 o).
Proof.
  revert i o. induction l1 as [|n l1 IH]; intros i o; cbn.
  - by rewrite Nat.add_0_r.
  - rewrite IH. f_equal. lia.
Qed.

Lemma assign_from_union (i : nat) (l : list string) (o1 o2 : gmap string Z) :
  assign_from i l o1 ∪ o2 = assign_from i l (o1 ∪ o2).
Proof.
  revert i o1. induction l as [|n l IH]; intros i o1; cbn; [done|].
  by rewrite IH, insert_union_l.
Qed.

Lemma number_group (l : list string) (o : gmap string Z) (i : nat) :
  fold_left (fun '(node_orders, current_order) node_id =>
               (<[node_id := current_order]> node_orders, current_order + 1))
            l (o, Z.of_nat i)
  = (assign_from i l o, Z.of_nat (i + length l)).
Proof.
  revert o i. induction l as [|n l IH]; intros o i; cbn.
  - by rewrite Nat.add_0_r.
  - replace (Z.of_nat i + 1) with (Z.of_nat (S i)) by lia.
    rewrite IH. f_equal. lia.
Qed.

Lemma number_groups {G} (members : G -> list string) (gs : list G)
    (o : gmap string Z) (i : nat) :
  fold_left (fun acc g =>
               fold_left (fun '(node_orders, current_order) node_id =>
                            (<[node_id := current_order]> node_orders, current_order + 1))
                         (members g) acc)
            gs (o, Z.of_nat i)
  = (assign_from i (concat (map members gs)) o,
     Z.of_nat (i + length (concat (map members gs)))).
Proof.
  revert o i. induction gs as [|g gs IH]; intros o i; cbn.
  - by rewrite Nat.add_0_r.
  - rewrite number_group, IH, assign_from_app, length_app.
    f_equal. lia.
Qed.

Lemma concat_perm {A} (l1 l2 : list (list A)) : l1 ≡ₚ l2 -> concat l1 ≡ₚ concat l2.
Proof.
  induction 1 as [|x l1 l2 _ IH|x y l|l1 l2 l3 _ IH1 _ IH2]; cbn.
  - done.
  - by rewrite IH.
  - rewrite !app_assoc. by rewrite (Permutation_app_comm x y).
  - by rewrite IH1.
Qed.

Lemma concat_map_perm {A B} (f : A -> list B) (g : A -> list B) (l : list A) :
  (forall a, f a ≡ₚ g a) -> concat (map f l) ≡ₚ concat (map g l).
Proof.
  intros H. induction l as [|a l IH]; cbn; [done|]. by rewrite IH, H.
Qed.

Lemma od_append_members {K V} `{EqDecision K} (k : K) (v : V) (d : list (K * list V)) :
  concat (map snd (od_append k v d)) ≡ₚ v :: concat (map snd d).
Proof.
  induction d as [|[k' l] d IH]; cbn; [done|].
  destruct (decide (k' = k)); cbn.
  - rewrite <- app_assoc. cbn. by rewrite <- Permutation_middle.
  - rewrite IH. by rewrite <- Permutation_middle.
Qed.

Lemma group_nodes_members (bottom_layer_nodes : list string)
    (parents : gmap string (list string)) :
  concat (map snd (group_nodes_by_parents bottom_layer_nodes parents))
  ≡ₚ bottom_layer_nodes.
Proof.
  unfold group_nodes_by_parents.
  enough (forall (l : list string) (d : list (list string * list string)),
             concat (map snd
               (fold_left (fun groups node_id =>
                  match dget [] parents node_id with
                  | [] => od_append orphan_key node_id groups
                  | parent_ids => od_append (py_sorted String.ltb parent_ids) node_id groups
                  end) l d))
             ≡ₚ concat (map snd d) ++ l) as H by apply (H _ []).
  induction l as [|n l IH]; intros d; cbn; [by rewrite app_nil_r|].
  rewrite IH. destruct (dget [] parents n);
    rewrite od_append_members; by rewrite <- Permutation_middle.
Qed.

Lemma order_bottom_layer_by_support_eq (bottom_layer_nodes : list string)
    (parents : gmap string (list string)) (parent_orders : gmap string Z) :
  order_bottom_layer_by_support bottom_layer_nodes parents parent_orders
  = assign_from 0 (bottom_sequence bottom_layer_nodes parents parent_orders) ∅.
Proof.
  unfold order_bottom_layer_by_support, bottom_sequence.
  change (∅, 0) with ((∅ : gmap string Z), Z.of_nat 0).
  by rewrite (number_groups (fun g => py_sorted String.ltb (snd g))).
Qed.

Lemma bottom_sequence_perm (bottom_layer_nodes : list string)
    (parents : gmap string (list string)) (parent_orders : gmap string Z) :
  bottom_sequence bottom_layer_nodes parents parent_orders ≡ₚ bottom_layer_nodes.
Proof.
  unfold bottom_sequence.
  rewrite (concat_map_perm _ snd) by (intros; apply py_sorted_perm).
  rewrite (concat_perm _ _ (Permutation_map _ (py_sorted_perm _ _))).
  rewrite map_map. cbn. apply group_nodes_members.
Qed.

Lemma regroup_bottom_invariant (nodes_by_layer : list (Z * list string))
    (parents : gmap string (list string)) (layer_numbers : list Z) (o : gmap string Z) :
  unique_ids nodes_by_layer -> order_invariant nodes_by_layer o ->
  order_invariant nodes_by_layer (regroup_bottom nodes_by_layer parents layer_numbers o).
Proof.
  intros Hu Hinv. unfold regroup_bottom.
  destruct (last layer_numbers) as [bottom|]; [|done].
  destruct (_ && _) eqn:E; [|done].
  rewrite order_bottom_layer_by_support_eq, assign_from_union, (left_id_L ∅ (∪)).
  destruct (od_get_cases nodes_by_layer bottom) as [Hnil|Hin].
  - rewrite Hnil in E. done.
  - eapply renumber_invariant; [done | exact Hin | apply bottom_sequence_perm | done].
Qed.

(** C8. For layers with unique node ids, the order map restricted to any
    layer is a bijection onto [0 .. layerSize-1] after the initialisation,
    after every top-down pass and every bottom-up pass of every iteration,
    after the bottom-layer regroup, and hence in the result of
    [barycenter_ordering]; each pass and the regroup keep the property. *)
Theorem order_map_bijective_per_layer (h : string -> Z)
    (nodes_by_layer : list (Z * list string))
    (children parents : gmap string (list string))
    (Hunique : unique_ids nodes_by_layer) :
  let layer_numbers := py_sorted Z.ltb (map fst nodes_by_layer) in
  let after k :=
    sweeps h k nodes_by_layer children parents layer_numbers
      (init_orders nodes_by_layer) in
  order_invariant nodes_by_layer (init_orders nodes_by_layer)
  /\ (forall k,
        order_invariant nodes_by_layer
          (top_down_sweep h nodes_by_layer parents layer_numbers (after k))
        /\ order_invariant nodes_by_layer (after (S k)))
  /\ (forall o, order_invariant nodes_by_layer o ->
        order_invariant nodes_by_layer
          (top_down_sweep h nodes_by_layer parents layer_numbers o))
  /\ (forall o, order_invariant nodes_by_layer o ->
        order_invariant nodes_by_layer
          (bottom_up_sweep h nodes_by_layer children layer_numbers o))
  /\ (forall o, order_invariant nodes_by_layer o ->
        order_invariant nodes_by_layer
          (regroup_bottom nodes_by_layer parents layer_numbers o))
  /\ forall iterations,
       order_invariant nodes_by_layer
         (barycenter_ordering h nodes_by_layer children parents iterations).
Proof.
  intros layer_numbers after.
  assert (forall k, order_invariant nodes_by_layer (after k)) as Hafter
    by (intros k; by apply sweeps_invariant, init_orders_invariant).
  split; [by apply init_orders_invariant|]. split; [|split; [|split; [|split]]].
  - intros k. split; [by apply top_down_sweep_invariant | apply Hafter].
  - intros o. by apply top_down_sweep_invariant.
  - intros o. by apply bottom_up_sweep_invariant.
  - intros o. by apply regroup_bottom_invariant.
  - intros iterations. unfold barycenter_ordering.
    by apply regroup_bottom_invariant, Hafter.
Qed.

(** ** The layering invariant *)

Lemma elem_of_node_id_set (nodes : list node) (i : string) :
  i ∈ node_id_set nodes <-> i ∈ map node_id nodes.
Proof. unfold node_id_set. apply elem_of_list_to_set. Qed.

Lemma elem_of_valid_edges (nodes : list node) (edges : list edge) (e : edge) :
  e ∈ valid_edges nodes edges
  <-> e ∈ edges /\ source e ∈ map node_id nodes /\ target e ∈ map node_id nodes.
Proof.
  unfold valid_edges. rewrite list_elem_of_filter, !elem_of_node_id_set. tauto.
Qed.

(** *** The adjacency maps *)

Lemma dget_insert {V} (d : V) (m : gmap string V) (k k' : string) (v : V) :
  dget d (<[k := v]> m) k' = if decide (k = k') then v else dget d m k'.
Proof.
  unfold dget. destruct (decide (k = k')) as [->|Hne].
  - by rewrite lookup_insert_eq.
  - by rewrite lookup_insert_ne.
Qed.

Lemma fold_add_edge (nodes : list node) (edges : list edge) (a : adjacency) :
  (forall u, dget [] (children (fold_left (add_edge (node_id_set nodes)) edges a)) u
             = dget [] (children a) u ++ children_of (valid_edges nodes edges) u)
  /\ (forall v, dget [] (parents (fold_left (add_edge (node_id_set nodes)) edges a)) v
                = dget [] (parents a) v ++ parents_of (valid_edges nodes edges) v)
  /\ (forall v, dget 0 (in_degree (fold_left (add_edge (node_id_set nodes)) edges a)) v
                = dget 0 (in_degree a) v
                  + Z.of_nat (length (parents_of (valid_edges nodes edges) v))).
Proof.
  revert a. induction edges as [|e edges IH]; intros a.
  - unfold children_of, parents_of. cbn. repeat split; intros; rewrite ?app_nil_r; try done; lia.
  - cbn [fold_left].
    destruct (IH (add_edge (node_id_set nodes) a e)) as (IHc & IHp & IHd).
    unfold valid_edges, children_of, parents_of in *. rewrite filter_cons.
    unfold add_edge in *.
    destruct (decide (source e ∈ node_id_set nodes /\ target e ∈ node_id_set nodes));
      cbn [children parents in_degree] in *; [|done].
    repeat split.
    + intros u. rewrite IHc, dget_insert, filter_cons.
      destruct (decide (source e = u)) as [->|Hne]; cbn; [by rewrite <- app_assoc | done].
    + intros v. rewrite IHp, dget_insert, filter_cons.
      destruct (decide (target e = v)) as [->|Hne]; cbn; [by rewrite <- app_assoc | done].
    + intros v. rewrite IHd, dget_insert, filter_cons.
      destruct (decide (target e = v)) as [->|Hne]; cbn; lia.
Qed.

Lemma build_adjacency_spec (nodes : list node) (edges : list edge) :
  (forall u, dget [] (children (build_adjacency nodes edges)) u
             = children_of (valid_edges nodes edges) u)
  /\ (forall v, dget [] (parents (build_adjacency nodes edges)) v
                = parents_of (valid_edges nodes edges) v)
  /\ (forall v, dget 0 (in_degree (build_adjacency nodes edges)) v
                = Z.of_nat (length (parents_of (valid_edges nodes edges) v))).
Proof.
  destruct (fold_add_edge nodes edges {| children := ∅; parents := ∅; in_degree := ∅ |})
    as (Hc & Hp & Hd).
  unfold build_adjacency. repeat split; intros.
  - by rewrite Hc.
  - by rewrite Hp.
  - by rewrite Hd.
Qed.

Lemma init_in_degree_dget (nodes : list node) (deg : gmap string Z) (v : string) :
  dget 0 (init_in_degree nodes deg) v = dget 0 deg v.
Proof.
  unfold init_in_degree. revert deg. induction nodes as [|n nodes IH]; intros deg; cbn; [done|].
  rewrite IH. destruct (deg !! node_id n) eqn:E; [done|].
  rewrite dget_insert. destruct (decide (node_id n = v)) as [<-|]; [|done].
  unfold dget. by rewrite E.
Qed.

Lemma seed_sources_fold (l : list node) (st0 : kahn) :
  degrees (fold_left seed_node l st0) = degrees st0
  /\ queue (fold_left seed_node l st0)
     = queue st0 ++ filter (fun i => dget 0 (degrees st0) i = 0) (map node_id l)
  /\ forall v, layers (fold_left seed_node l st0) !! v
               = if decide (v ∈ filter (fun i => dget 0 (degrees st0) i = 0) (map node_id l))
                 then Some 0 else layers st0 !! v.
Proof.
  revert st0. induction l as [|n l IH]; intros st0.
  - cbn. split; [done|]. split; [by rewrite app_nil_r|].
    intros v. by rewrite decide_False by apply not_elem_of_nil.
  - cbn [fold_left map]. rewrite filter_cons.
    destruct (IH (seed_node st0 n)) as (H1 & H2 & H3). unfold seed_node in H1, H2, H3.
    unfold seed_node.
    destruct (Z.eqb_spec (dget 0 (degrees st0) (node_id n)) 0) as [Hz|Hz];
      cbn [degrees queue layers] in *.
    + rewrite decide_True by done.
      split; [done|]. split; [by rewrite H2, <- app_assoc|].
      intros v. rewrite H3.
      destruct (decide (v ∈ filter _ (map node_id l))) as [Hv|Hv].
      * rewrite decide_True; [done | apply elem_of_cons; by right].
      * destruct (decide (node_id n = v)) as [<-|Hne].
        -- rewrite lookup_insert_eq. rewrite decide_True; [done | apply elem_of_cons; by left].
        -- rewrite lookup_insert_ne by done. rewrite decide_False; [done|].
           intros [?|?]%elem_of_cons; congruence.
    + rewrite decide_False by done. done.
Qed.

Lemma seed_sources_spec (nodes : list node) (deg : gmap string Z) :
  degrees (seed_sources nodes deg) = deg
  /\ queue (seed_sources nodes deg)
     = filter (fun i => dget 0 deg i = 0) (map node_id nodes)
  /\ forall v, layers (seed_sources nodes deg) !! v
               = if decide (v ∈ queue (seed_sources nodes deg)) then Some 0 else None.
Proof.
  destruct (seed_sources_fold nodes {| layers := ∅; degrees := deg; queue := [] |})
    as (H1 & H2 & H3).
  unfold seed_sources. cbn in *. split; [done|]. split; [done|].
  intros v. by rewrite H3, H2.
Qed.

(** *** One pass of the queue loop *)

Lemma occurrences_cons (v c : string) (cs : list string) :
  occurrences v (c :: cs)
  = ((if decide (c = v) then 1 else 0) + occurrences v cs)%nat.
Proof. unfold occurrences. rewrite filter_cons. by destruct (decide (c = v)). Qed.

Lemma occurrences_pos (v : string) (cs : list string) :
  (0 < occurrences v cs)%nat <-> v ∈ cs.
Proof.
  induction cs as [|c cs IH].
  - cbn. split; [lia | by intros ?%elem_of_nil].
  - rewrite occurrences_cons, elem_of_cons. destruct (decide (c = v)) as [->|Hne].
    + split; [by left | lia].
    + cbn. rewrite IH. split; [by right | intros [?|?]; [congruence | done]].
Qed.

Lemma visit_children_spec (cl : Z) (cs : list string) (st : kahn) :
  (forall v, dget 0 (degrees (fold_left (visit_child cl) cs st)) v
             = dget 0 (degrees st) v - Z.of_nat (occurrences v cs))
  /\ (forall v, layers (fold_left (visit_child cl) cs st) !! v
                = if decide (v ∈ cs)
                  then Some (Z.max (dget 0 (layers st) v) (cl + 1))
                  else layers st !! v)
  /\ exists ext,
       queue (fold_left (visit_child cl) cs st) = queue st ++ ext
       /\ NoDup ext
       /\ forall v, v ∈ ext
                    <-> v ∈ cs /\ 1 <= dget 0 (degrees st) v <= Z.of_nat (occurrences v cs).
Proof.
  revert st. induction cs as [|c cs IH]; intros st.
  - cbn. split; [intros; lia|]. split; [intros v; by rewrite decide_False by apply not_elem_of_nil|].
    exists []. split; [by rewrite app_nil_r|]. split; [constructor|].
    intros v. split; [by intros ?%elem_of_nil | by intros [?%elem_of_nil _]].
  - cbn [fold_left].
    destruct (IH (visit_child cl st c)) as (Hd & Hl & ext1 & Hq & Hnd & Hext).
    assert (forall v, dget 0 (degrees (visit_child cl st c)) v
                      = if decide (c = v) then dget 0 (degrees st) c - 1
                        else dget 0 (degrees st) v) as Hd1.
    { intros v. unfold visit_child. cbn [degrees]. apply dget_insert. }
    split; [|split].
    + intros v. rewrite Hd, Hd1, occurrences_cons.
      destruct (decide (c = v)) as [->|Hne]; lia.
    + intros v. rewrite Hl. unfold visit_child. cbn [layers].
      destruct (decide (c = v)) as [->|Hne].
      * rewrite lookup_insert_eq, dget_insert, (decide_True (P := v = v)) by done.
        rewrite (decide_True (P := v ∈ v :: cs)) by (apply elem_of_cons; by left).
        destruct (decide (v ∈ cs)); f_equal; lia.
      * rewrite lookup_insert_ne, dget_insert, (decide_False (P := c = v)) by done.
        destruct (decide (v ∈ cs)) as [Hv|Hv].
        -- rewrite decide_True; [done | apply elem_of_cons; by right].
        -- rewrite decide_False; [done | intros [?|?]%elem_of_cons; congruence].
    + assert (queue (visit_child cl st c)
              = if dget 0 (degrees st) c - 1 =? 0 then queue st ++ [c] else queue st)
        as Hq1 by done.
      rewrite Hq1 in Hq. clear Hq1.
      destruct (Z.eqb_spec (dget 0 (degrees st) c - 1) 0) as [Hz|Hz].
      * exists (c :: ext1). split; [by rewrite Hq, <- app_assoc|].
        assert (c ∉ ext1) as Hc.
        { intros Hin. apply Hext in Hin as [_ Hin]. rewrite Hd1, decide_True in Hin by done. lia. }
        split; [by constructor|].
        intros v. rewrite elem_of_cons, Hext, Hd1, occurrences_cons, elem_of_cons.
        destruct (decide (c = v)) as [->|Hne].
        -- split; [intros _; split; [by left | lia] | by left].
        -- cbn. split.
           ++ intros [?|(? & ?)]; [congruence|]. split; [by right | lia].
           ++ intros ([?|?] & ?); [congruence|]. right. split; [done | lia].
      * exists ext1. split; [done|]. split; [done|].
        intros v. rewrite Hext, Hd1, occurrences_cons, elem_of_cons.
        destruct (decide (c = v)) as [->|Hne].
        -- split.
           ++ intros (? & ?). split; [by left | lia].
           ++ intros (_ & ?). assert (0 < occurrences v cs)%nat as Hpos by lia.
              apply occurrences_pos in Hpos. split; [done | lia].
        -- cbn. split.
           ++ intros (? & ?). split; [by right | lia].
           ++ intros ([?|?] & ?); [congruence|]. split; [done | lia].
Qed.

Lemma remaining_nil (E : list edge) (v : string) :
  remaining E [] v = Z.of_nat (length (parents_of E v)).
Proof.
  unfold remaining, parents_of. rewrite length_map. do 2 f_equal.
  induction E as [|e E IH]; [done|]. rewrite !filter_cons, IH.
  destruct (decide (target e = v)) as [Hv|Hv].
  - rewrite decide_True; [done | split; [done | apply not_elem_of_nil]].
  - rewrite decide_False; [done | tauto].
Qed.

Lemma remaining_cons (E : list edge) (P : list string) (n v : string) :
  n ∉ P ->
  remaining E (n :: P) v
  = remaining E P v - Z.of_nat (occurrences v (children_of E n)).
Proof.
  intros Hn. unfold remaining, occurrences, children_of.
  induction E as [|e E IH]; [done|].
  rewrite !filter_cons.
  destruct (decide (source e = n)) as [Hs|Hs]; cbn [map]; rewrite ?filter_cons.
  - rewrite (decide_False (P := target e = v /\ source e ∉ n :: P)).
    2:{ intros [_ H]. apply H. rewrite Hs. apply elem_of_cons. by left. }
    destruct (decide (target e = v)) as [Ht|Ht].
    + rewrite decide_True by (split; [done | by rewrite Hs]). cbn [length]. lia.
    + rewrite decide_False by tauto. lia.
  - destruct (decide (target e = v /\ source e ∉ P)) as [[Ht Hp]|Hno].
    + rewrite decide_True; [cbn [length]; lia|].
      split; [done|]. intros [?|?]%elem_of_cons; [congruence | done].
    + rewrite decide_False; [lia|].
      intros [Ht Hp]. apply Hno. split; [done|]. intros H. apply Hp. apply elem_of_cons. by right.
Qed.

Lemma remaining_zero (E : list edge) (P : list string) (v : string) :
  remaining E P v = 0 <-> forall e, e ∈ E -> target e = v -> source e ∈ P.
Proof.
  unfold remaining. split.
  - intros H e He Ht. destruct (decide (source e ∈ P)) as [|Hn]; [done|].
    assert (e ∈ filter (fun e => target e = v /\ source e ∉ P) E) as Hin
      by (apply list_elem_of_filter; done).
    destruct (filter _ E); [by apply elem_of_nil in Hin | cbn in H; lia].
  - intros H.
    destruct (filter (fun e => target e = v /\ source e ∉ P) E) as [|e l] eqn:Hf; [done|].
    assert (e ∈ filter (fun e => target e = v /\ source e ∉ P) E) as Hin
      by (rewrite Hf; apply elem_of_cons; by left).
    apply list_elem_of_filter in Hin as [[Ht Hp] He]. by specialize (H e He Ht).
Qed.

Lemma remaining_nonneg (E : list edge) (P : list string) (v : string) :
  0 <= remaining E P v.
Proof. unfold remaining. lia. Qed.

Lemma elem_of_children_of (E : list edge) (n c : string) :
  c ∈ children_of E n <-> exists e, e ∈ E /\ source e = n /\ target e = c.
Proof.
  unfold children_of. change (map target ?l) with (target <$> l).
  rewrite list_elem_of_fmap. split.
  - intros (e & -> & He). apply list_elem_of_filter in He as [? ?]. eauto.
  - intros (e & He & Hs & <-). exists e. split; [done|]. by apply list_elem_of_filter.
Qed.

Lemma max_list_nonneg (l : list Z) : 0 <= max_list l.
Proof. unfold max_list. induction l as [|x l IH]; cbn; lia. Qed.

Lemma layer_spec_nil (E : list edge) (L : gmap string Z) (v : string) :
  layer_spec E [] L v = 0.
Proof.
  unfold layer_spec. induction E as [|e E IH]; [done|].
  rewrite filter_cons. rewrite decide_False; [done|].
  intros [_ H]. by apply elem_of_nil in H.
Qed.

Lemma layer_spec_agree (E : list edge) (P P' : list string) (L L' : gmap string Z)
    (v : string) :
  (forall e, e ∈ E -> target e = v -> (source e ∈ P <-> source e ∈ P')) ->
  (forall e, e ∈ E -> target e = v -> source e ∈ P ->
     dget 0 L (source e) = dget 0 L' (source e)) ->
  layer_spec E P L v = layer_spec E P' L' v.
Proof.
  unfold layer_spec, max_list. induction E as [|e E IH]; intros HP HL; [done|].
  assert (e ∈ e :: E) as He by (apply elem_of_cons; by left).
  assert (forall e', e' ∈ E -> e' ∈ e :: E) as Hsub by (intros; apply elem_of_cons; by right).
  specialize (IH (fun e' He' => HP e' (Hsub e' He')) (fun e' He' => HL e' (Hsub e' He'))).
  rewrite !filter_cons.
  destruct (decide (target e = v /\ source e ∈ P)) as [[Ht Hs]|Hno].
  - rewrite decide_True by (split; [done | by apply HP]).
    cbn. by rewrite IH, (HL e He Ht Hs).
  - rewrite decide_False; [done|]. intros [Ht Hs]. apply Hno. split; [done | by apply HP].
Qed.

(** Popping [n], whose layer is [cl], raises its children to [cl + 1] at least. *)
Lemma layer_spec_cons (E : list edge) (n : string) (P : list string)
    (L L' : gmap string Z) (cl : Z) (v : string) :
  n ∉ P -> dget 0 L n = cl ->
  (forall e, e ∈ E -> source e ∈ n :: P -> dget 0 L' (source e) = dget 0 L (source e)) ->
  layer_spec E (n :: P) L' v
  = Z.max (layer_spec E P L v) (if decide (v ∈ children_of E n) then cl + 1 else 0).
Proof.
  intros Hn Hcl. unfold layer_spec, children_of. induction E as [|e E IH]; intros HL.
  - cbn. rewrite decide_False by apply not_elem_of_nil. done.
  - assert (e ∈ e :: E) as He by (apply elem_of_cons; by left).
    specialize (IH (fun e' He' => HL e' (proj2 (elem_of_cons _ _ _) (or_intror He')))).
    pose proof (max_list_nonneg
                  (map (fun e => dget 0 L (source e) + 1)
                       (filter (fun e => target e = v /\ source e ∈ P) E))) as Hnn.
    rewrite !filter_cons.
    destruct (decide (source e = n)) as [Hs|Hs].
    + rewrite (decide_False (P := target e = v /\ source e ∈ P)) by (rewrite Hs; tauto).
      cbn [map]. destruct (decide (target e = v)) as [Ht|Ht].
      * rewrite decide_True by (split; [done | rewrite Hs; apply elem_of_cons; by left]).
        rewrite (decide_True (P := v ∈ target e :: _)) by (apply elem_of_cons; by left).
        cbn [map max_list fold_right]. fold (max_list
          (map (fun e => dget 0 L' (source e) + 1)
             (filter (fun e => target e = v /\ source e ∈ n :: P) E))).
        rewrite IH. rewrite (HL e He) by (rewrite Hs; apply elem_of_cons; by left).
        rewrite Hs, Hcl. destruct (decide (v ∈ _)); lia.
      * rewrite decide_False by tauto. rewrite IH.
        destruct (decide (v ∈ map target (filter (fun e => source e = n) E))) as [Hv|Hv].
        -- rewrite decide_True; [done | apply elem_of_cons; by right].
        -- rewrite decide_False; [done | intros [?|?]%elem_of_cons; congruence].
    + destruct (decide (target e = v /\ source e ∈ P)) as [[Ht HsP]|Hno].
      * rewrite decide_True by (split; [done | apply elem_of_cons; by right]).
        cbn [map max_list fold_right]. fold (max_list
          (map (fun e => dget 0 L' (source e) + 1)
             (filter (fun e => target e = v /\ source e ∈ n :: P) E))).
        fold (max_list (map (fun e => dget 0 L (source e) + 1)
             (filter (fun e => target e = v /\ source e ∈ P) E))).
        rewrite IH. rewrite (HL e He) by (apply elem_of_cons; by right). lia.
      * rewrite decide_False; [by rewrite IH|].
        intros [Ht [?|?]%elem_of_cons]; [congruence | tauto].
Qed.

Section kahn_invariant.
Variables (ids : list string) (E : list edge) (ch : gmap string (list string)).
Hypothesis E_valid : forall e, e ∈ E -> source e ∈ ids /\ target e ∈ ids.
Hypothesis ch_spec : forall u, dget [] ch u = children_of E u.

Lemma kahn_inv_step (P : list string) (st : kahn) (n : string) (q : list string) :
  kahn_inv ids E P st -> queue st = n :: q ->
  exists cl, layers st !! n = Some cl
    /\ kahn_inv ids E (n :: P)
         (fold_left (visit_child cl) (dget [] ch n)
            {| layers := layers st; degrees := degrees st; queue := q |}).
Proof.
  intros [Hdeg Hfront Hnd Hids Hqueued Hedges Hres Hlay] Hq. rewrite Hq in *.
  destruct (Hqueued n) as [cl Hcl]; [apply elem_of_cons; by left|].
  exists cl. split; [done|].
  rewrite ch_spec. remember (children_of E n) as cs eqn:Hcs.
  destruct (visit_children_spec cl cs
              {| layers := layers st; degrees := degrees st; queue := q |})
    as (Hd & Hl & ext & Hq' & Hndext & Hext).
  cbn [layers degrees queue] in Hd, Hl, Hq', Hext.
  cbn [app] in Hnd. apply NoDup_cons in Hnd as [Hn Hnd].
  assert (n ∉ P) as HnP by (intros ?; apply Hn, elem_of_app; by right).
  assert (forall c, c ∈ cs -> c ∈ ids /\ 1 <= remaining E P c) as HA.
  { intros c Hc. rewrite Hcs in Hc.
    apply elem_of_children_of in Hc as (e & He & Hs & Ht). split.
    - rewrite <- Ht. by apply E_valid.
    - pose proof (remaining_nonneg E P c).
      destruct (decide (remaining E P c = 0)) as [Hz|]; [|lia].
      rewrite remaining_zero in Hz. specialize (Hz e He Ht). congruence. }
  assert (forall c, c ∈ cs -> c ∉ n :: q ++ P) as HB.
  { intros c Hc Hin. destruct (HA c Hc) as [Hcid Hrem].
    assert (remaining E P c = 0); [|lia].
    apply Hfront; [done|].
    apply elem_of_cons in Hin as [->|Hin]; [left; apply elem_of_cons; by left|].
    apply elem_of_app in Hin as [?|?]; [left; apply elem_of_cons; by right | by right]. }
  assert (forall v, v ∈ ext -> v ∈ cs) as Hsub by (intros v Hv; by apply Hext in Hv as [? _]).
  split.
  - intros v. rewrite Hd, Hdeg, Hcs. by rewrite remaining_cons.
  - intros v Hv. rewrite (remaining_cons E P n v HnP), <- Hcs.
    pose proof (remaining_nonneg E (n :: P) v) as Hnn.
    rewrite (remaining_cons E P n v HnP), <- Hcs in Hnn.
    rewrite Hq'. split.
    + intros Hz. destruct (decide (remaining E P v = 0)) as [Hr|Hr].
      * apply Hfront in Hr as [Hr|Hr]; [|right; apply elem_of_cons; by right|done].
        apply elem_of_cons in Hr as [->|Hr]; [right; apply elem_of_cons; by left|].
        left. apply elem_of_app. by left.
      * left. apply elem_of_app. right. apply Hext.
        pose proof (remaining_nonneg E P v).
        assert (0 < occurrences v cs)%nat as Hpos by lia.
        apply occurrences_pos in Hpos. rewrite Hdeg. split; [done | lia].
    + intros [Hin|Hin].
      * apply elem_of_app in Hin as [Hin|Hin].
        -- assert (remaining E P v = 0); [|lia].
           apply Hfront; [done|]. left. apply elem_of_cons. by right.
        -- apply Hext in Hin as [_ Hin]. rewrite Hdeg in Hin. lia.
      * assert (remaining E P v = 0); [|lia].
        apply Hfront; [done|].
        apply elem_of_cons in Hin as [->|Hin]; [left; apply elem_of_cons; by left | by right].
  - rewrite Hq'.
    assert ((q ++ ext) ++ n :: P ≡ₚ ext ++ n :: q ++ P) as ->.
    { rewrite (Permutation_app_comm q ext), <- app_assoc.
      apply Permutation_app_head. symmetry. apply Permutation_middle. }
    apply NoDup_app. split; [done|]. split; [|by apply NoDup_cons].
    intros v Hv. by apply HB, Hsub.
  - rewrite Hq'. intros v Hv.
    apply elem_of_app in Hv as [Hv|Hv].
    + apply elem_of_app in Hv as [Hv|Hv].
      * apply Hids, elem_of_cons. right. apply elem_of_app. by left.
      * by apply HA, Hsub.
    + apply elem_of_cons in Hv as [->|Hv].
      * apply Hids, elem_of_cons. by left.
      * apply Hids, elem_of_cons. right. apply elem_of_app. by right.
  - rewrite Hq'. intros v Hv. rewrite Hl.
    destruct (decide (v ∈ cs)); [done|].
    apply elem_of_app in Hv as [Hv|Hv]; [|by apply Hsub in Hv].
    apply Hqueued, elem_of_cons. by right.
  - intros e He Hs.
    assert (n ∉ cs) as Hncs by (intros H; apply (HB n H), elem_of_cons; by left).
    apply elem_of_cons in Hs as [Hs|Hs].
    + assert (target e ∈ cs) as Ht by (rewrite Hcs; apply elem_of_children_of; eauto).
      exists cl, (Z.max (dget 0 (layers st) (target e)) (cl + 1)).
      rewrite !Hl, Hs. rewrite decide_False by done. rewrite decide_True by done.
      split; [done|]. split; [done | lia].
    + destruct (Hedges e He Hs) as (lu & lv & Hlu & Hlv & Hlt).
      assert (source e ∉ cs) as Hscs.
      { intros H. apply (HB _ H), elem_of_cons. right. apply elem_of_app. by right. }
      rewrite !Hl. rewrite (decide_False (P := source e ∈ cs)) by done.
      destruct (decide (target e ∈ cs)).
      * exists lu, (Z.max (dget 0 (layers st) (target e)) (cl + 1)).
        split; [done|]. split; [done|]. unfold dget. rewrite Hlv. cbn. lia.
      * exists lu, lv. done.
  - rewrite Hq'. intros v Hv.
    apply elem_of_app in Hv as [Hv|Hv].
    + apply elem_of_app in Hv as [Hv|Hv].
      * apply Hres, elem_of_cons. right. apply elem_of_app. by left.
      * constructor. intros e He Ht.
        apply Hext in Hv as [_ Hv]. rewrite Hdeg in Hv.
        pose proof (remaining_nonneg E (n :: P) v) as Hnn.
        rewrite (remaining_cons E P n v HnP), <- Hcs in Hnn.
        assert (remaining E (n :: P) v = 0) as Hz
          by (rewrite (remaining_cons E P n v HnP), <- Hcs; lia).
        rewrite remaining_zero in Hz. specialize (Hz e He Ht).
        apply Hres. apply elem_of_cons in Hz as [->|Hz].
        -- apply elem_of_cons. by left.
        -- apply elem_of_cons. right. apply elem_of_app. by right.
    + apply Hres. apply elem_of_cons in Hv as [->|Hv].
      * apply elem_of_cons. by left.
      * apply elem_of_cons. right. apply elem_of_app. by right.
  - intros v.
    rewrite (layer_spec_cons E n P (layers st) _ cl v HnP).
    + rewrite <- Hcs, <- Hlay. unfold dget at 1. rewrite Hl.
      pose proof (max_list_nonneg
                    (map (fun e => dget 0 (layers st) (source e) + 1)
                       (filter (fun e => target e = v /\ source e ∈ P) E))) as Hnn.
      fold (layer_spec E P (layers st) v) in Hnn. rewrite <- Hlay in Hnn.
      destruct (decide (v ∈ cs)); cbn; [done|]. fold (dget 0 (layers st) v). lia.
    + unfold dget. by rewrite Hcl.
    + intros e He Hs. unfold dget. rewrite Hl. rewrite decide_False; [done|].
      intros Hin. apply (HB _ Hin).
      apply elem_of_cons in Hs as [->|Hs]; [apply elem_of_cons; by left|].
      apply elem_of_cons. right. apply elem_of_app. by right.
Qed.

Lemma kahn_inv_popped (P : list string) (st : kahn) :
  kahn_inv ids E P st -> (length (queue st) + length P <= length ids)%nat.
Proof.
  intros Hinv. rewrite <- length_app. apply submseteq_length.
  apply NoDup_submseteq; [apply (inv_nodup _ _ _ _ Hinv) | apply (inv_ids _ _ _ _ Hinv)].
Qed.

(** With one unit of fuel per id still to pop, the loop runs to the end. *)
Lemma process_queue_inv (fuel : nat) (P : list string) (st : kahn) :
  kahn_inv ids E P st -> (length ids < fuel + length P)%nat ->
  exists P' st', process_queue fuel ch st = Ok st' /\ kahn_inv ids E P' st' /\ queue st' = [].
Proof.
  revert P st. induction fuel as [|fuel IH]; intros P st Hinv Hfuel.
  - pose proof (kahn_inv_popped P st Hinv).
    destruct (queue st) as [|n q] eqn:Hq; [|cbn in *; lia].
    exists P, st. cbn. by rewrite Hq.
  - destruct (queue st) as [|n q] eqn:Hq.
    + exists P, st. cbn. by rewrite Hq.
    + destruct (kahn_inv_step P st n q Hinv Hq) as (cl & Hcl & Hinv').
      cbn [process_queue]. rewrite Hq. unfold getitem. rewrite Hcl. cbn.
      apply (IH (n :: P)); [done | cbn; lia].
Qed.

(** Every resolved node has been popped when the queue is empty. *)
Lemma resolved_popped (P : list string) (st : kahn) (v : string) :
  kahn_inv ids E P st -> queue st = [] -> resolved E v -> v ∈ ids -> v ∈ P.
Proof.
  intros Hinv Hq Hres. induction Hres as [v _ IH]. intros Hv.
  assert (remaining E P v = 0) as Hz.
  { apply remaining_zero. intros e He Ht. apply IH; [done..|]. by apply E_valid. }
  apply (inv_front _ _ _ _ Hinv v Hv) in Hz as [Hz|Hz]; [|done].
  rewrite Hq in Hz. by apply elem_of_nil in Hz.
Qed.
End kahn_invariant.

Lemma default_layers_lookup (nodes : list node) (ls : gmap string Z) (v : string) :
  default_layers nodes ls !! v
  = match ls !! v with
    | Some l => Some l
    | None => if decide (v ∈ map node_id nodes) then Some 0 else None
    end.
Proof.
  unfold default_layers. revert ls. induction nodes as [|n nodes IH]; intros ls; cbn [fold_left map].
  - destruct (ls !! v); [done|]. by rewrite decide_False by apply not_elem_of_nil.
  - rewrite IH. destruct (ls !! node_id n) eqn:Hn.
    + destruct (ls !! v) eqn:Hv; [done|].
      destruct (decide (v ∈ map node_id nodes)) as [Hin|Hin].
      * rewrite decide_True; [done | apply elem_of_cons; by right].
      * rewrite decide_False; [done|]. intros [->|?]%elem_of_cons; [congruence | done].
    + destruct (decide (node_id n = v)) as [<-|Hne].
      * rewrite lookup_insert_eq, Hn. rewrite decide_True; [done | apply elem_of_cons; by left].
      * rewrite lookup_insert_ne by done. destruct (ls !! v); [done|].
        destruct (decide (v ∈ map node_id nodes)) as [Hin|Hin].
        -- rewrite decide_True; [done | apply elem_of_cons; by right].
        -- rewrite decide_False; [done|]. intros [->|?]%elem_of_cons; [congruence | done].
Qed.

(** *** The queue loop ends within its fuel, whatever the node list *)

Lemma positive_mass_insert_notin (ks : list string) (D : gmap string Z) (c : string) (d : Z) :
  c ∉ ks -> positive_mass ks (<[c := d]> D) = positive_mass ks D.
Proof.
  unfold positive_mass. induction ks as [|k ks IH]; intros Hc; [done|].
  apply not_elem_of_cons in Hc as [Hne Hc]. cbn.
  rewrite IH by done. by rewrite dget_insert, decide_False.
Qed.

Lemma positive_mass_insert (ks : list string) (D : gmap string Z) (c : string) (d : Z) :
  NoDup ks -> c ∈ ks ->
  (positive_mass ks (<[c := d]> D) + Z.to_nat (dget 0%Z D c)
   = positive_mass ks D + Z.to_nat d)%nat.
Proof.
  induction ks as [|k ks IH]; intros Hnd Hc; [by apply elem_of_nil in Hc|].
  apply NoDup_cons in Hnd as [Hk Hnd]. unfold positive_mass in *. cbn.
  rewrite dget_insert. destruct (decide (c = k)) as [->|Hne].
  - fold (positive_mass ks (<[k := d]> D)). rewrite positive_mass_insert_notin by done.
    unfold positive_mass. lia.
  - apply elem_of_cons in Hc as [?|Hc]; [done|]. specialize (IH Hnd Hc). lia.
Qed.

Lemma visit_children_measure (ks : list string) (cl : Z) (cs : list string) (st : kahn) :
  NoDup ks -> (forall c, c ∈ cs -> c ∈ ks) -> queue_layered st ->
  queue_layered (fold_left (visit_child cl) cs st)
  /\ (length (queue (fold_left (visit_child cl) cs st))
      + positive_mass ks (degrees (fold_left (visit_child cl) cs st))
      <= length (queue st) + positive_mass ks (degrees st))%nat.
Proof.
  intros Hnd. revert st. induction cs as [|c cs IH]; intros st Hcs HJ; [done|].
  cbn [fold_left].
  assert (c ∈ ks) as Hc by (apply Hcs, elem_of_cons; by left).
  destruct (IH (visit_child cl st c)) as [HJ' Hm].
  { intros c' Hc'. apply Hcs, elem_of_cons. by right. }
  { intros v Hv. unfold visit_child in *. cbn [queue layers] in *.
    destruct (decide (c = v)) as [->|Hne]; [by rewrite lookup_insert_eq|].
    rewrite lookup_insert_ne by done. apply HJ.
    destruct (_ =? _); [|done].
    apply elem_of_app in Hv as [Hv|Hv]; [done|].
    apply elem_of_cons in Hv as [->|Hv]; [done | by apply elem_of_nil in Hv]. }
  split; [done|].
  pose proof (positive_mass_insert ks (degrees st) c (dget 0 (degrees st) c - 1) Hnd Hc)
    as Hmass.
  assert (length (queue (visit_child cl st c))
          + positive_mass ks (degrees (visit_child cl st c))
          <= length (queue st) + positive_mass ks (degrees st))%nat as Hstep.
  { unfold visit_child. cbn [queue degrees].
    destruct (Z.eqb_spec (dget 0 (degrees st) c - 1) 0) as [Hz|Hz];
      rewrite ?length_app; cbn [length]; lia. }
  lia.
Qed.

Lemma process_queue_total (ks : list string) (ch : gmap string (list string))
    (fuel : nat) (st : kahn) :
  NoDup ks -> (forall u c, c ∈ dget [] ch u -> c ∈ ks) -> queue_layered st ->
  (length (queue st) + positive_mass ks (degrees st) <= fuel)%nat ->
  exists st', process_queue fuel ch st = Ok st'.
Proof.
  intros Hnd Hch. revert st. induction fuel as [|fuel IH]; intros st HJ Hfuel.
  - destruct (queue st) as [|n q] eqn:Hq; [|cbn in Hfuel; lia].
    exists st. cbn. by rewrite Hq.
  - destruct (queue st) as [|n q] eqn:Hq; cbn [process_queue]; rewrite Hq; [by exists st|].
    destruct (HJ n) as [cl Hcl]; [rewrite Hq; apply elem_of_cons; by left|].
    unfold getitem. rewrite Hcl. cbn.
    destruct (visit_children_measure ks cl (dget [] ch n)
                {| layers := layers st; degrees := degrees st; queue := q |} Hnd)
      as [HJ' Hm].
    { intros c. apply Hch. }
    { intros v Hv. cbn in *. apply HJ. rewrite Hq. apply elem_of_cons. by right. }
    apply IH; [done|]. cbn [queue degrees length] in *. lia.
Qed.

Lemma sum_filter_targets (ks : list string) (E : list edge) :
  NoDup ks ->
  sum_list ((fun k => length (filter (fun e => target e = k) E)) <$> ks)
  = length (filter (fun e => target e ∈ ks) E).
Proof.
  induction ks as [|k ks IH]; intros Hnd; cbn.
  - symmetry. apply length_zero_iff_nil. induction E as [|e E IHE]; [done|].
    rewrite filter_cons. by rewrite decide_False by apply not_elem_of_nil.
  - apply NoDup_cons in Hnd as [Hk Hnd]. rewrite (IH Hnd). clear IH.
    induction E as [|e E IHE]; [done|]. rewrite !filter_cons.
    destruct (decide (target e = k)) as [Ht|Ht].
    + rewrite (decide_False (P := target e ∈ ks)) by (by rewrite Ht).
      rewrite decide_True by (apply elem_of_cons; by left). cbn [length]. lia.
    + destruct (decide (target e ∈ ks)) as [Hin|Hin].
      * rewrite decide_True by (apply elem_of_cons; by right). cbn [length]. lia.
      * rewrite decide_False; [done|]. intros [?|?]%elem_of_cons; [congruence | done].
Qed.

(** [assign_layers] returns a layer for every node, whatever the node and
    edge lists (repeated ids, cycles, self-loops and dangling edges included). *)
Lemma assign_layers_total (nodes : list node) (edges : list edge) :
  exists node_layers,
    assign_layers nodes edges = Ok node_layers
    /\ forall v, v ∈ map node_id nodes -> is_Some (node_layers !! v).
Proof.
  unfold assign_layers.
  destruct (build_adjacency_spec nodes edges) as (Hch & _ & Hin).
  set (deg := init_in_degree nodes (in_degree (build_adjacency nodes edges))).
  destruct (seed_sources_spec nodes deg) as (Hdeg & Hq & Hl).
  set (ks := elements (node_id_set nodes)).
  destruct (process_queue_total ks (children (build_adjacency nodes edges))
              (kahn_fuel nodes edges) (seed_sources nodes deg)) as [st Hrun].
  - apply NoDup_elements.
  - intros u c Hc. rewrite Hch in Hc.
    apply elem_of_children_of in Hc as (e & He & _ & <-).
    apply elem_of_elements. unfold valid_edges in He.
    apply list_elem_of_filter in He as [[_ Ht] _]. done.
  - intros v Hv. rewrite Hl. by rewrite decide_True.
  - rewrite Hdeg, Hq. unfold kahn_fuel.
    assert (length (filter (fun i => dget 0%Z deg i = 0%Z) (map node_id nodes))
            <= length nodes)%nat
      as H1 by (etrans; [apply length_filter | by rewrite length_map]).
    assert (positive_mass ks deg <= length edges)%nat as H2.
    { unfold positive_mass.
      assert ((fun k => Z.to_nat (dget 0 deg k)) <$> ks
              = (fun k => length (filter (fun e => target e = k) (valid_edges nodes edges)))
                  <$> ks) as ->.
      { apply list_fmap_ext. intros _ k _. unfold deg.
        rewrite init_in_degree_dget, Hin. unfold parents_of. rewrite length_map. lia. }
      rewrite sum_filter_targets by apply NoDup_elements.
      etrans; [apply length_filter|]. unfold valid_edges. apply length_filter. }
    lia.
  - rewrite Hrun. cbn. eexists. split; [done|].
    intros v Hv. rewrite default_layers_lookup.
    destruct (layers st !! v); [done|]. by rewrite decide_True.
Qed.

(** *** assign_layers returns, and its layers respect the resolved edges *)

Lemma seed_sources_inv (nodes : list node) (edges : list edge) :
  NoDup (map node_id nodes) ->
  kahn_inv (map node_id nodes) (valid_edges nodes edges) []
    (seed_sources nodes
       (init_in_degree nodes (in_degree (build_adjacency nodes edges)))).
Proof.
  intros Hnd.
  destruct (seed_sources_spec nodes
              (init_in_degree nodes (in_degree (build_adjacency nodes edges))))
    as (Hdeg & Hq & Hl).
  destruct (build_adjacency_spec nodes edges) as (_ & _ & Hin).
  assert (forall v, dget 0 (init_in_degree nodes (in_degree (build_adjacency nodes edges))) v
                    = remaining (valid_edges nodes edges) [] v) as Hrem.
  { intros v. by rewrite init_in_degree_dget, Hin, remaining_nil. }
  split.
  - intros v. by rewrite Hdeg.
  - intros v Hv. rewrite Hq, list_elem_of_filter, Hrem, elem_of_nil. tauto.
  - rewrite Hq, app_nil_r. by apply NoDup_filter.
  - intros v. rewrite Hq, app_nil_r, list_elem_of_filter. tauto.
  - intros v Hv. rewrite Hl. by rewrite decide_True.
  - intros e _ H. by apply elem_of_nil in H.
  - intros v Hv. rewrite Hq, app_nil_r in Hv.
    apply list_elem_of_filter in Hv as [Hz _]. rewrite Hrem, remaining_zero in Hz.
    constructor. intros e He Ht. specialize (Hz e He Ht). by apply elem_of_nil in Hz.
  - intros v. rewrite layer_spec_nil. unfold dget. rewrite Hl. by destruct (decide _).
Qed.

Lemma assign_layers_sound (nodes : list node) (edges : list edge) :
  NoDup (map node_id nodes) ->
  exists node_layers,
    assign_layers nodes edges = Ok node_layers
    /\ (forall v, v ∈ map node_id nodes -> is_Some (node_layers !! v))
    /\ layering_invariant nodes edges node_layers
    /\ exists P,
         (forall v, v ∈ P <-> v ∈ map node_id nodes /\ resolved (valid_edges nodes edges) v)
         /\ forall v, v ∈ map node_id nodes ->
              node_layers !! v
              = Some (layer_spec (valid_edges nodes edges) P node_layers v).
Proof.
  intros Hnd. unfold assign_layers.
  destruct (build_adjacency_spec nodes edges) as (Hch & _ & _).
  assert (forall e, e ∈ valid_edges nodes edges ->
            source e ∈ map node_id nodes /\ target e ∈ map node_id nodes) as Hvalid.
  { intros e He. apply elem_of_valid_edges in He. tauto. }
  destruct (process_queue_inv (map node_id nodes) (valid_edges nodes edges)
              (children (build_adjacency nodes edges)) Hvalid Hch
              (kahn_fuel nodes edges) [] _ (seed_sources_inv nodes edges Hnd))
    as (P & st & Hrun & Hinv & Hq).
  { unfold kahn_fuel. rewrite length_map. cbn. lia. }
  rewrite Hrun. cbn. eexists. split; [done|]. split; [|split].
  - intros v Hv. rewrite default_layers_lookup.
    destruct (layers st !! v); [done|]. by rewrite decide_True.
  - intros e He Hs Ht Hres.
    assert (e ∈ valid_edges nodes edges) as He' by (by apply elem_of_valid_edges).
    assert (source e ∈ P) as HP by (by eapply resolved_popped).
    destruct (inv_edges _ _ _ _ Hinv e He' HP) as (lu & lv & Hlu & Hlv & Hlt).
    exists lu, lv. rewrite !default_layers_lookup, Hlu, Hlv. done.
  - assert (forall v, v ∈ map node_id nodes ->
              default_layers nodes (layers st) !! v = Some (dget 0 (layers st) v)) as Hfinal.
    { intros v Hv. rewrite default_layers_lookup. unfold dget.
      destruct (layers st !! v); [done|]. by rewrite decide_True. }
    exists P. split.
    + intros v. split.
      * intros Hv. split.
        -- apply (inv_ids _ _ _ _ Hinv). apply elem_of_app. by right.
        -- apply (inv_resolved _ _ _ _ Hinv). apply elem_of_app. by right.
      * intros [Hv Hres]. by eapply resolved_popped.
    + intros v Hv. rewrite (Hfinal v Hv), (inv_layer _ _ _ _ Hinv). f_equal.
      apply layer_spec_agree; [done|].
      intros e He _ _. unfold dget at 2. rewrite Hfinal; [done|]. by apply Hvalid.
Qed.

(** ** Grouping by layer and placing the layers *)

Lemma od_append_keys {K V} `{EqDecision K} (k : K) (v : V) (d : list (K * list V)) :
  NoDup (map fst d) -> NoDup (map fst (od_append k v d)).
Proof.
  assert (forall d k', k' ∈ map fst (od_append k v d) -> k' = k \/ k' ∈ map fst d) as Hsub.
  { clear d. induction d as [|[k0 l] d IH]; cbn; intros k' Hk.
    - apply elem_of_cons in Hk as [?|?]; [by left | by right].
    - destruct (decide (k0 = k)); cbn in *; [by right|].
      apply elem_of_cons in Hk as [->|Hk]; [right; apply elem_of_cons; by left|].
      destruct (IH _ Hk); [by left | right; apply elem_of_cons; by right]. }
  induction d as [|[k0 l] d IH]; cbn; intros Hnd.
  - repeat constructor. apply not_elem_of_nil.
  - apply NoDup_cons in Hnd as [Hk0 Hnd].
    destruct (decide (k0 = k)); cbn; [by constructor|].
    constructor; [|by apply IH].
    intros Hin. destruct (Hsub _ _ Hin); [congruence | done].
Qed.

Lemma od_get_append {K V} `{EqDecision K} (k k' : K) (v : V) (d : list (K * list V)) :
  od_get (od_append k v d) k' = if decide (k = k') then od_get d k ++ [v] else od_get d k'.
Proof.
  induction d as [|[k0 l] d IH]; cbn.
  - destruct (decide (k = k')); [by subst | done].
  - destruct (decide (k0 = k)) as [->|Hne]; cbn.
    + destruct (decide (k = k')); [done | done].
    + destruct (decide (k0 = k')) as [->|Hne'].
      * rewrite decide_False by congruence. done.
      * rewrite IH. destruct (decide (k = k')); [by subst | done].
Qed.

Lemma group_by_layer_fold (node_layers : gmap string Z) (l : list node)
    (d : list (Z * list string)) :
  (forall n, n ∈ l -> is_Some (node_layers !! node_id n)) ->
  NoDup (map fst d) ->
  exists d', fold_left (group_node node_layers) l (Ok d) = Ok d'
    /\ NoDup (map fst d')
    /\ concat (map snd d') ≡ₚ concat (map snd d) ++ map node_id l
    /\ forall layer, od_get d' layer
         = od_get d layer
           ++ filter (fun i => node_layers !! i = Some layer) (map node_id l).
Proof.
  revert d. induction l as [|n l IH]; intros d Hl Hnd; cbn [fold_left map].
  - exists d. split; [done|]. split; [done|]. split; [by rewrite app_nil_r|].
    intros layer. by rewrite app_nil_r.
  - destruct (Hl n) as [layer Hlayer]; [apply elem_of_cons; by left|].
    assert (group_node node_layers (Ok d) n = Ok (od_append layer (node_id n) d)) as ->.
    { unfold group_node, getitem. cbn. by rewrite Hlayer. }
    destruct (IH (od_append layer (node_id n) d)) as (d' & Hrun & Hk & Hp & Hg).
    { intros m Hm. apply Hl. apply elem_of_cons. by right. }
    { by apply od_append_keys. }
    exists d'. split; [done|]. split; [done|]. split.
    + rewrite Hp, od_append_members. by rewrite <- Permutation_middle.
    + intros layer'. rewrite Hg, od_get_append, filter_cons.
      destruct (decide (layer = layer')) as [->|Hne].
      * rewrite decide_True by done. by rewrite <- app_assoc.
      * rewrite decide_False by congruence. done.
Qed.

Lemma group_by_layer_spec (nodes : list node) (node_layers : gmap string Z) :
  (forall v, v ∈ map node_id nodes -> is_Some (node_layers !! v)) ->
  exists nodes_by_layer,
    group_by_layer nodes node_layers = Ok nodes_by_layer
    /\ NoDup (map fst nodes_by_layer)
    /\ concat (map snd nodes_by_layer) ≡ₚ map node_id nodes
    /\ forall layer, od_get nodes_by_layer layer
         = filter (fun i => node_layers !! i = Some layer) (map node_id nodes).
Proof.
  intros Hl. unfold group_by_layer.
  destruct (group_by_layer_fold node_layers nodes []) as (d & Hrun & Hk & Hp & Hg).
  - intros n Hn. apply Hl. by apply (list_elem_of_fmap_2 node_id) in Hn.
  - constructor.
  - exists d. done.
Qed.

Lemma place_from_notin (i : nat) (start_x sp y : Z) (l : list string)
    (pos : gmap string (Z * Z)) (n : string) :
  n ∉ l -> place_from i start_x sp y l pos !! n = pos !! n.
Proof.
  revert i pos. induction l as [|m l IH]; intros i pos Hn; cbn; [done|].
  apply not_elem_of_cons in Hn as [Hne Hn].
  rewrite IH by done. by rewrite lookup_insert_ne.
Qed.

Lemma place_from_nth (i : nat) (start_x sp y : Z) (l : list string)
    (pos : gmap string (Z * Z)) (k : nat) (n : string) :
  NoDup l -> l !! k = Some n ->
  place_from i start_x sp y l pos !! n = Some (start_x + Z.of_nat (i + k) * sp, y).
Proof.
  revert i pos k. induction l as [|m l IH]; intros i pos k Hnd Hk; [done|].
  apply NoDup_cons in Hnd as [Hm Hnd]. destruct k as [|k]; cbn in *.
  - injection Hk as ->. rewrite place_from_notin by done.
    rewrite lookup_insert_eq. do 3 f_equal. lia.
  - rewrite (IH (S i) _ k) by done. do 3 f_equal. lia.
Qed.

Lemma mapM_result_ok {A B} (f : A -> result B) (g : A -> B) (l : list A) :
  (forall a, a ∈ l -> f a = Ok (g a)) -> mapM_result f l = Ok (map g l).
Proof.
  induction l as [|a l IH]; intros H; cbn; [done|].
  rewrite (H a) by (apply elem_of_cons; by left). cbn.
  rewrite IH by (intros; apply H; apply elem_of_cons; by right). done.
Qed.

Lemma bijective_on_lookup (o : gmap string Z) (l : list string) (n : string) :
  bijective_on o l -> n ∈ l -> exists k, (k < length l)%nat /\ o !! n = Some (Z.of_nat k).
Proof.
  unfold bijective_on. intros Hb Hn.
  assert (o !! n ∈ (fun n => o !! n) <$> l) as Hin
    by (by apply (list_elem_of_fmap_2 (fun n => o !! n))).
  rewrite Hb in Hin. apply list_elem_of_fmap in Hin as (k & Hk & Hin).
  apply elem_of_seq in Hin. exists k. split; [lia | done].
Qed.

Lemma sorted_numbers (i k : nat) : Sorted Z.le (Z.of_nat <$> seq i k).
Proof.
  revert i. induction k as [|k IH]; intros i; cbn; [constructor|].
  constructor; [apply IH|]. destruct k; cbn; constructor. lia.
Qed.

(** Sorting a layer by its order map lists the node of order [i] at index [i]. *)
Lemma sort_by_order_spec (o : gmap string Z) (l : list string) :
  bijective_on o l ->
  exists s, sort_by_order o l = Ok s /\ s ≡ₚ l
            /\ forall i n, s !! i = Some n -> o !! n = Some (Z.of_nat i).
Proof.
  intros Hb. unfold sort_by_order.
  rewrite (mapM_result_ok _ (fun n => (dget 0 o n, n))).
  2:{ intros n Hn. destruct (bijective_on_lookup o l n Hb Hn) as (k & _ & Hk).
      unfold getitem, dget. rewrite Hk. done. }
  cbn. eexists. split; [done|].
  set (keyed := map (fun n => (dget 0 o n, n)) l).
  assert (map snd (py_sorted order_ltb keyed) ≡ₚ l) as Hperm.
  { rewrite py_sorted_perm. unfold keyed. rewrite map_map. cbn. by rewrite map_id. }
  split; [done|].
  assert (fst <$> py_sorted order_ltb keyed = Z.of_nat <$> seq 0 (length l)) as Hkeys.
  { apply (Sorted_unique Z.le).
    - eapply Sorted_fmap; [|apply (py_sorted_sorted order_ltb)].
      + intros x y. unfold order_ltb. lia.
      + intros x y. unfold order_ltb. lia.
    - apply sorted_numbers.
    - rewrite py_sorted_perm. unfold keyed. change (map ?f ?l) with (f <$> l).
      rewrite <- list_fmap_compose.
      unfold bijective_on in Hb.
      apply (fmap_Permutation (default 0)) in Hb.
      rewrite <- !list_fmap_compose in Hb. exact Hb. }
  intros i n Hi.
  change (map snd ?l) with (snd <$> l) in Hi.
  rewrite list_lookup_fmap in Hi.
  destruct (py_sorted order_ltb keyed !! i) as [[z m]|] eqn:Hs; [|done].
  cbn in Hi. injection Hi as ->.
  assert ((fst <$> py_sorted order_ltb keyed) !! i = Some z) as Hz
    by (by rewrite list_lookup_fmap, Hs).
  rewrite Hkeys, list_lookup_fmap in Hz.
  destruct (seq 0 (length l) !! i) as [j|] eqn:Hj; [|done].
  apply lookup_seq in Hj as [-> Hj]. cbn in Hz. injection Hz as <-.
  assert ((Z.of_nat i, n) ∈ keyed) as Hin.
  { rewrite <- (py_sorted_perm order_ltb). by eapply list_elem_of_lookup_2. }
  unfold keyed in Hin. change (map ?f ?l) with (f <$> l) in Hin.
  apply list_elem_of_fmap in Hin as (n' & Heq & Hn'). injection Heq as Hd <-.
  destruct (bijective_on_lookup o l n Hb Hn') as (k & _ & Hk).
  unfold dget in Hd. rewrite Hk in Hd |- *. cbn in Hd. by rewrite Hd.
Qed.

Lemma place_layers_fold (o : gmap string Z) (sp sep : Z) (rest : list (Z * list string))
    (pos0 : gmap string (Z * Z)) (w0 : Z) :
  NoDup (concat (map snd rest)) ->
  Forall (fun item => bijective_on o (snd item)) rest ->
  exists pos w,
    fold_left (place_layer o sp sep) rest (Ok (pos0, w0)) = Ok (pos, w)
    /\ (forall n, n ∉ concat (map snd rest) -> pos !! n = pos0 !! n)
    /\ (forall layer l n, (layer, l) ∈ rest -> n ∈ l ->
          exists i, (i < length l)%nat /\ o !! n = Some (Z.of_nat i)
                    /\ pos !! n = Some (start_x_of (length l) sp + Z.of_nat i * sp,
                                        layer * sep)).
Proof.
  revert pos0 w0. induction rest as [|[layer0 l0] rest IH]; intros pos0 w0 Hnd Hb.
  - exists pos0, w0. split; [done|]. split; [done|].
    intros layer l n H. by apply elem_of_nil in H.
  - cbn [map concat] in Hnd. apply NoDup_app in Hnd as (Hl0 & Hdis & Hnd).
    apply Forall_cons in Hb as [Hb0 Hb]. cbn [snd] in Hb0.
    destruct (sort_by_order_spec o l0 Hb0) as (s & Hs & Hperm & Hidx).
    assert (place_layer o sp sep (Ok (pos0, w0)) (layer0, l0)
            = Ok (place_from 0 (start_x_of (length l0) sp) sp (layer0 * sep) s pos0,
                  Z.max w0 (Z.of_nat (length l0)))) as Hstep.
    { unfold place_layer. cbn -[sort_by_order place_from start_x_of].
      rewrite Hs. reflexivity. }
    cbn [fold_left]. rewrite Hstep.
    destruct (IH (place_from 0 (start_x_of (length l0) sp) sp (layer0 * sep) s pos0)
                 (Z.max w0 (Z.of_nat (length l0))) Hnd Hb)
      as (pos & w & Hrun & Hout & Hin).
    exists pos, w. split; [done|]. split.
    + intros n Hn. rewrite Hout.
      * apply place_from_notin. rewrite Hperm. intros H. apply Hn, elem_of_app. by left.
      * intros H. apply Hn, elem_of_app. by right.
    + intros layer l n Hl Hn. apply elem_of_cons in Hl as [Heq|Hl].
      * injection Heq as -> ->.
        assert (n ∈ s) as Hns by (by rewrite Hperm).
        apply list_elem_of_lookup in Hns as [i Hi].
        exists i. split; [|split].
        -- apply lookup_lt_Some in Hi. by rewrite (Permutation_length Hperm) in Hi.
        -- by apply Hidx.
        -- rewrite Hout by (by apply Hdis).
           rewrite (place_from_nth 0 _ _ _ s pos0 i n); [done | by rewrite Hperm | done].
      * by eapply Hin.
Qed.

Lemma assign_layers_no_nodes (edges : list edge) : assign_layers [] edges = Ok ∅.
Proof. reflexivity. Qed.

(** The whole pipeline on a graph with unique node ids: every stage returns,
    and the stages' results are related as the code relates them. *)
Lemma pipeline_spec (h : string -> Z) (nodes : list node) (edges : list edge)
    (sp sep : Z) (iterations : nat) :
  NoDup (map node_id nodes) ->
  exists node_layers nodes_by_layer node_orders positions metrics,
    assign_layers nodes edges = Ok node_layers
    /\ ordering_stage h nodes edges iterations
       = Ok (node_layers, nodes_by_layer, node_orders)
    /\ compute_layout_positions h nodes edges sp sep iterations
       = Ok (positions, metrics, node_layers)
    /\ layering_invariant nodes edges node_layers
    /\ (forall v, v ∈ map node_id nodes -> is_Some (node_layers !! v))
    /\ unique_ids nodes_by_layer
    /\ order_invariant nodes_by_layer node_orders
    /\ (forall layer, od_get nodes_by_layer layer
          = filter (fun i => node_layers !! i = Some layer) (map node_id nodes))
    /\ (forall layer l n, (layer, l) ∈ nodes_by_layer -> n ∈ l ->
          exists i, (i < length l)%nat /\ node_orders !! n = Some (Z.of_nat i)
                    /\ positions !! n
                       = Some (start_x_of (length l) sp + Z.of_nat i * sp, layer * sep)).
Proof.
  intros Hnd. destruct (decide (nodes = [])) as [->|Hne].
  { (* no node: the early return *)
    destruct (edge_adjacency [] edges) as [ch pa] eqn:Hadj.
    exists ∅, [], (barycenter_ordering h [] ch pa iterations), ∅.
    eexists. split; [done|]. split.
    { unfold ordering_stage. rewrite assign_layers_no_nodes. cbn. by rewrite Hadj. }
    split; [reflexivity|]. split.
    { intros e _ H. by apply elem_of_nil in H. }
    split; [by intros v H; apply elem_of_nil in H|].
    split; [split; constructor|]. split; [constructor|]. split; [done|].
    intros layer l n H. by apply elem_of_nil in H. }
  destruct (assign_layers_sound nodes edges Hnd) as (lm & Hlm & Hdom & Hlay & _).
  destruct (group_by_layer_spec nodes lm Hdom) as (nbl & Hnbl & Hkeys & Hperm & Hget).
  assert (unique_ids nbl) as Hu by (split; [done | by rewrite Hperm]).
  destruct (edge_adjacency nodes edges) as [ch pa] eqn:Hadj.
  set (orders := barycenter_ordering h nbl ch pa iterations).
  assert (order_invariant nbl orders) as Hinv.
  { unfold orders, barycenter_ordering.
    by apply regroup_bottom_invariant, sweeps_invariant, init_orders_invariant. }
  destruct (place_layers_fold orders sp sep nbl ∅ 0 (proj2 Hu) Hinv)
    as (pos & w & Hrun & _ & Hpos).
  assert (ordering_stage h nodes edges iterations = Ok (lm, nbl, orders)) as Hstage.
  { unfold ordering_stage. rewrite Hlm. cbn. rewrite Hnbl. cbn. by rewrite Hadj. }
  exists lm, nbl, orders, pos.
  exists (<["crossings" := count_edge_crossings nbl edges orders lm]>
            (<["layers" := Z.of_nat (length nbl)]>
               (<["max_layer_width" := w]>
                  (<["total_nodes" := Z.of_nat (length nodes)]>
                     (<["total_edges" := Z.of_nat (length edges)]> ∅))))).
  split; [done|]. split; [done|]. split.
  { unfold compute_layout_positions. rewrite Hstage. unfold place_layers.
    destruct nodes; [done|]. cbn. rewrite Hrun. reflexivity. }
  split; [done|]. split; [done|]. split; [done|]. split; [done|]. split; [done|].
  exact Hpos.
Qed.

(** *** The pipeline returns, whatever the node and edge lists *)

Lemma assign_from_dom (i : nat) (l : list string) (o : gmap string Z) (n : string) :
  is_Some (assign_from i l o !! n) <-> n ∈ l \/ is_Some (o !! n).
Proof.
  revert i o. induction l as [|m l IH]; intros i o; cbn.
  - rewrite elem_of_nil. tauto.
  - rewrite IH, elem_of_cons. destruct (decide (m = n)) as [->|Hne].
    + rewrite lookup_insert_eq. split; [intros _; by left; left | intros _; right; eauto].
    + rewrite lookup_insert_ne by done. split; [tauto|].
      intros [[?|?]|?]; [congruence | tauto..].
Qed.

Lemma init_orders_cover (nodes_by_layer : list (Z * list string)) :
  orders_cover (init_orders nodes_by_layer) nodes_by_layer.
Proof.
  unfold init_orders, orders_cover.
  enough (forall (rest : list (Z * list string)) (o : gmap string Z) n,
             n ∈ concat (map snd rest) \/ is_Some (o !! n) ->
             is_Some (fold_left (fun node_orders item =>
                        assign_from 0 (py_sorted String.ltb (snd item)) node_orders)
                        rest o !! n)) as H by (intros n Hn; apply H; by left).
  induction rest as [|item rest IH]; intros o n Hn; cbn [fold_left map concat] in *.
  - destruct Hn as [Hn|Hn]; [by apply elem_of_nil in Hn | done].
  - apply IH. destruct Hn as [Hn|Hn].
    + apply elem_of_app in Hn as [Hn|Hn]; [|by left].
      right. apply assign_from_dom. left. by rewrite py_sorted_perm.
    + right. apply assign_from_dom. by right.
Qed.

Lemma reorder_layer_keeps (h : string -> Z) (nodes_by_layer : list (Z * list string))
    (neighbors : gmap string (list string)) (adjacent : Z) (layer_nodes : list string)
    (o : gmap string Z) (n : string) :
  is_Some (o !! n) ->
  is_Some (reorder_layer h nodes_by_layer neighbors adjacent layer_nodes o !! n).
Proof. intros Hn. unfold reorder_layer. apply assign_from_dom. by right. Qed.

Lemma sweeps_keep (h : string -> Z) (iterations : nat)
    (nodes_by_layer : list (Z * list string)) (children parents : gmap string (list string))
    (layer_numbers : list Z) (o : gmap string Z) (n : string) :
  is_Some (o !! n) ->
  is_Some (sweeps h iterations nodes_by_layer children parents layer_numbers o !! n).
Proof.
  revert o. induction iterations as [|k IH]; intros o Hn; cbn [sweeps]; [done|].
  apply IH. unfold bottom_up_sweep, top_down_sweep.
  generalize (length layer_numbers - 1)%nat. intros last_idx.
  assert (forall (l : list (nat * Z)) (f : gmap string Z -> nat * Z -> gmap string Z)
            (o : gmap string Z),
            (forall o p, is_Some (o !! n) -> is_Some (f o p !! n)) ->
            is_Some (o !! n) -> is_Some (fold_left f l o !! n)) as Hfold.
  { induction l as [|p l IHl]; intros f o' Hf Ho; cbn; [done|]. apply IHl; [done|]. by apply Hf. }
  apply Hfold.
  { intros o' [idx layer] Ho. destruct (_ || _); [done | by apply reorder_layer_keeps]. }
  apply Hfold; [|done].
  intros o' [idx layer] Ho. destruct (_ || _); [done | by apply reorder_layer_keeps].
Qed.

Lemma barycenter_ordering_cover (h : string -> Z) (nodes_by_layer : list (Z * list string))
    (children parents : gmap string (list string)) (iterations : nat) :
  orders_cover (barycenter_ordering h nodes_by_layer children parents iterations)
               nodes_by_layer.
Proof.
  intros n Hn. unfold barycenter_ordering, regroup_bottom.
  pose proof (sweeps_keep h iterations nodes_by_layer children parents
                (py_sorted Z.ltb (map fst nodes_by_layer)) _ n
                (init_orders_cover nodes_by_layer n Hn)) as Hs.
  destruct (last _); [|done]. destruct (_ && _); [|done].
  apply lookup_union_is_Some. by right.
Qed.

Lemma sort_by_order_total (o : gmap string Z) (l : list string) :
  (forall n, n ∈ l -> is_Some (o !! n)) -> exists s, sort_by_order o l = Ok s.
Proof.
  intros Hl. unfold sort_by_order.
  rewrite (mapM_result_ok _ (fun n => (dget 0 o n, n))).
  - cbn. by eexists.
  - intros n Hn. destruct (Hl n Hn) as [k Hk]. unfold getitem, dget. by rewrite Hk.
Qed.

Lemma place_layers_total (nodes_by_layer : list (Z * list string)) (o : gmap string Z)
    (sp sep : Z) :
  orders_cover o nodes_by_layer -> exists r, place_layers nodes_by_layer o sp sep = Ok r.
Proof.
  unfold place_layers, orders_cover. generalize (∅ : gmap string (Z * Z), 0).
  induction nodes_by_layer as [|item rest IH]; intros acc Hc; cbn [fold_left].
  - by eexists.
  - destruct (sort_by_order_total o (snd item)) as [s Hs].
    { intros n Hn. apply Hc. cbn. apply elem_of_app. by left. }
    assert (exists acc', place_layer o sp sep (Ok acc) item = Ok acc') as [acc' ->].
    { unfold place_layer. cbn -[sort_by_order place_from start_x_of]. rewrite Hs.
      by eexists. }
    apply IH. intros n Hn. apply Hc. cbn. apply elem_of_app. by right.
Qed.

(** [compute_layout_positions] never raises. *)
Lemma compute_layout_positions_total (h : string -> Z) (nodes : list node)
    (edges : list edge) (sp sep : Z) (iterations : nat) :
  exists l, compute_layout_positions h nodes edges sp sep iterations = Ok l.
Proof.
  unfold compute_layout_positions. destruct nodes as [|n0 nodes']; [by eexists|].
  remember (n0 :: nodes') as nodes eqn:Hnodes. clear Hnodes.
  unfold ordering_stage.
  destruct (assign_layers_total nodes edges) as (lm & -> & Hdom).
  destruct (group_by_layer_spec nodes lm Hdom) as (nbl & Hnbl & _).
  cbn. rewrite Hnbl. cbn. destruct (edge_adjacency nodes edges) as [ch pa]. cbn.
  destruct (place_layers_total nbl (barycenter_ordering h nbl ch pa iterations) sp sep
              (barycenter_ordering_cover h nbl ch pa iterations)) as [[pos w] ->].
  cbn. by eexists.
Qed.

(** *** Without a cycle every node is resolved *)

Lemma path_mono (E E' : list edge) (u v : string) :
  (forall e, e ∈ E' -> e ∈ E) -> path E' u v -> path E u v.
Proof.
  intros Hsub. induction 1 as [v|e v He _ IH]; [constructor|].
  apply path_step; [by apply Hsub | done].
Qed.

Lemma path_snoc (E : list edge) (u : string) (e : edge) :
  path E u (source e) -> e ∈ E -> path E u (target e).
Proof.
  intros Hp He. remember (source e) as w eqn:Hw.
  induction Hp as [v|e' v He' _ IH]; subst.
  - apply path_step; [done | constructor].
  - apply path_step; [done | by apply IH].
Qed.

Lemma resolved_cons_avoid (e0 : edge) (E : list edge) (u : string) :
  resolved E u -> ~ path E (target e0) u -> resolved (e0 :: E) u.
Proof.
  induction 1 as [u _ IH]. intros Hno. constructor. intros e He Ht.
  apply elem_of_cons in He as [->|He].
  - exfalso. apply Hno. rewrite Ht. constructor.
  - apply IH; [done..|]. intros Hp. apply Hno. rewrite <- Ht. by apply path_snoc.
Qed.

Lemma resolved_cons (e0 : edge) (E : list edge) (u : string) :
  resolved (e0 :: E) (source e0) -> resolved E u -> resolved (e0 :: E) u.
Proof.
  intros H0. induction 1 as [u _ IH]. constructor. intros e He Ht.
  apply elem_of_cons in He as [->|He]; [done | by apply IH].
Qed.

Lemma acyclic_resolved (E : list edge) (v : string) : acyclic E -> resolved E v.
Proof.
  revert v. induction E as [|e0 E IH]; intros v Hac.
  - constructor. intros e He. by apply elem_of_nil in He.
  - assert (forall e, e ∈ E -> e ∈ e0 :: E) as Hsub by (intros; apply elem_of_cons; by right).
    assert (acyclic E) as Hac'.
    { intros e He Hp. apply (Hac e (Hsub e He)). by eapply path_mono. }
    assert (resolved (e0 :: E) (source e0)) as H0.
    { apply resolved_cons_avoid; [by apply IH|].
      intros Hp. apply (Hac e0); [apply elem_of_cons; by left | by eapply path_mono]. }
    apply resolved_cons; [done | by apply IH].
Qed.

(** A strictly increasing labelling of the nodes rules out cycles. *)
Lemma labelled_acyclic (E : list edge) (f : string -> Z) :
  (forall e, e ∈ E -> f (source e) < f (target e)) -> acyclic E.
Proof.
  intros Hf.
  assert (forall u v, path E u v -> f u <= f v) as Hle.
  { induction 1 as [v|e v He _ IH]; [lia|]. specialize (Hf e He). lia. }
  intros e He Hp. specialize (Hf e He). specialize (Hle _ _ Hp). lia.
Qed.

(** ** The claims about the pipeline *)

(** C1. For a graph with unique node ids, [assign_layers] returns a layer
    map, the one that [compute_layout_positions] returns as its third
    component, in which every edge whose endpoints are both in the node list
    and whose source is resolved (not part of an unresolved cycle) goes to a
    strictly deeper layer; when the included edges have no cycle at all, this
    holds of every edge between nodes of the list. *)
Theorem layering_invariant_holds (h : string -> Z) (nodes : list node) (edges : list edge)
    (node_spacing layer_separation : Z) (iterations : nat)
    (Hunique : NoDup (map node_id nodes)) :
  exists node_layers,
    assign_layers nodes edges = Ok node_layers
    /\ (exists positions metrics,
          compute_layout_positions h nodes edges node_spacing layer_separation iterations
          = Ok (positions, metrics, node_layers))
    /\ layering_invariant nodes edges node_layers
    /\ (acyclic (valid_edges nodes edges) -> strictly_layered nodes edges node_layers).
Proof.
  destruct (pipeline_spec h nodes edges node_spacing layer_separation iterations Hunique)
    as (lm & nbl & orders & pos & met & Hlm & _ & Hrun & Hlay & _).
  exists lm. split; [done|]. split; [by exists pos, met|]. split; [done|].
  intros Hac e He Hs Ht. apply Hlay; [done..|]. by apply acyclic_resolved.
Qed.

Lemma layering_invariant_witness :
  NoDup (map node_id diamond_nodes)
  /\ exists node_layers,
       assign_layers diamond_nodes diamond_edges = Ok node_layers
       /\ (exists positions metrics,
             compute_layout_positions (fun _ => 0) diamond_nodes diamond_edges 250 200 8
             = Ok (positions, metrics, node_layers))
       /\ layering_invariant diamond_nodes diamond_edges node_layers
       /\ (acyclic (valid_edges diamond_nodes diamond_edges)
           -> strictly_layered diamond_nodes diamond_edges node_layers).
Proof.
  assert (NoDup (map node_id diamond_nodes)) as H
    by (apply (bool_decide_unpack _); vm_compute; exact I).
  split; [exact H|].
  exact (layering_invariant_holds (fun _ => 0) diamond_nodes diamond_edges 250 200 8 H).
Defined.

(** The diamond has no cycle, so the invariant is about all its edges. *)
Example diamond_acyclic : acyclic (valid_edges diamond_nodes diamond_edges).
Proof.
  apply (labelled_acyclic _ (fun v => if String.eqb v "A" then 0
                                      else if String.eqb v "D" then 2 else 1)).
  intros e He. apply elem_of_valid_edges in He as [He _].
  repeat (apply elem_of_cons in He as [->|He]; [vm_compute; reflexivity|]).
  by apply elem_of_nil in He.
Qed.

(** *** A self-loop leaves the layers off its node's descendants alone *)

Section self_loop.
Variables (nodes : list node) (edges1 edges2 : list edge) (a : string).
Local Abbreviation E := (valid_edges nodes (edges1 ++ edges2)).
Local Abbreviation E' := (valid_edges nodes (edges1 ++ Edge a a :: edges2)).

Lemma loop_edges_incl (e : edge) : e ∈ E -> e ∈ E'.
Proof.
  rewrite !elem_of_valid_edges, !elem_of_app, elem_of_cons. tauto.
Qed.

Lemma loop_edges_cases (e : edge) : e ∈ E' -> e ∈ E \/ e = Edge a a.
Proof.
  rewrite !elem_of_valid_edges, !elem_of_app, elem_of_cons. tauto.
Qed.

Lemma loop_layer_spec (P : list string) (L : gmap string Z) (v : string) :
  v <> a -> layer_spec E' P L v = layer_spec E P L v.
Proof.
  intros Hv. unfold layer_spec, valid_edges. do 2 f_equal.
  rewrite !filter_app, filter_cons.
  destruct (decide _); [|done].
  rewrite filter_cons. cbn [target]. rewrite decide_False; [done | intros [? _]; congruence].
Qed.

Lemma loop_resolved_keep (v : string) :
  resolved E v -> ~ path E' a v -> resolved E' v.
Proof.
  induction 1 as [v _ IH]. intros Hno. constructor. intros e He Ht.
  destruct (loop_edges_cases e He) as [HeE | ->].
  - apply IH; [done..|]. intros Hp. apply Hno. rewrite <- Ht. by apply path_snoc.
  - exfalso. apply Hno. cbn in Ht. rewrite <- Ht. constructor.
Qed.

Lemma loop_resolved_back (v : string) : resolved E' v -> resolved E v.
Proof.
  induction 1 as [v _ IH]. constructor. intros e He Ht. apply IH; [|done].
  by apply loop_edges_incl.
Qed.

Variables (lm lm' : gmap string Z) (P P' : list string).
Hypothesis P_spec : forall v, v ∈ P <-> v ∈ map node_id nodes /\ resolved E v.
Hypothesis P'_spec : forall v, v ∈ P' <-> v ∈ map node_id nodes /\ resolved E' v.
Hypothesis lm_spec :
  forall v, v ∈ map node_id nodes -> lm !! v = Some (layer_spec E P lm v).
Hypothesis lm'_spec :
  forall v, v ∈ map node_id nodes -> lm' !! v = Some (layer_spec E' P' lm' v).

Lemma loop_layer_from_parents (v : string) :
  v ∈ map node_id nodes -> ~ path E' a v ->
  (forall e, e ∈ E -> target e = v -> source e ∈ P -> lm' !! source e = lm !! source e) ->
  lm' !! v = lm !! v.
Proof.
  intros Hv Hno Hpar.
  assert (v <> a) as Hva by (intros ->; apply Hno; constructor).
  rewrite (lm_spec v Hv), (lm'_spec v Hv), (loop_layer_spec _ _ _ Hva). f_equal.
  assert (forall e, e ∈ E -> target e = v -> source e ∈ P' <-> source e ∈ P) as HPP.
  { intros e He Ht. rewrite P_spec, P'_spec.
    assert (~ path E' a (source e)) as Hs.
    { intros Hp. apply Hno. rewrite <- Ht. apply path_snoc; [done | by apply loop_edges_incl]. }
    split; intros [? ?]; (split; [done|]);
      [by apply loop_resolved_back | by apply loop_resolved_keep]. }
  apply layer_spec_agree; [done|].
  intros e He Ht Hs. unfold dget. rewrite Hpar; [done..|]. by apply HPP.
Qed.

Lemma loop_layer_resolved (v : string) :
  resolved E v -> v ∈ map node_id nodes -> ~ path E' a v -> lm' !! v = lm !! v.
Proof.
  induction 1 as [v _ IH]. intros Hv Hno.
  apply loop_layer_from_parents; [done..|].
  intros e He Ht Hs. apply IH; [done..| by apply P_spec in Hs as [? _] |].
  intros Hp. apply Hno. rewrite <- Ht. apply path_snoc; [done | by apply loop_edges_incl].
Qed.

Lemma loop_layer_unchanged (v : string) :
  v ∈ map node_id nodes -> ~ path E' a v -> lm' !! v = lm !! v.
Proof.
  intros Hv Hno. apply loop_layer_from_parents; [done..|].
  intros e He Ht Hs. apply P_spec in Hs as [Hs Hres].
  apply loop_layer_resolved; [done..|].
  intros Hp. apply Hno. rewrite <- Ht. apply path_snoc; [done | by apply loop_edges_incl].
Qed.
End self_loop.

Lemma self_loop_unresolved (E : list edge) (a : string) :
  Edge a a ∈ E -> ~ resolved E a.
Proof.
  intros Hin Hres. remember a as v eqn:Hv in Hres.
  induction Hres as [v _ IH]. subst v. by apply (IH (Edge a a)).
Qed.

(** C2, amended. Adding a self-loop on an existing node anywhere in the edge
    list does not make [compute_layout_positions] raise; the self-loop is
    not excluded from the in-degree counts: it adds one to the counter of its
    node, which is therefore never resolved by the queue; and, when the node
    ids are unique, the layer of every node that the included edges do not
    reach from the self-looped node is unchanged. *)
Theorem self_loop_counted_not_raised (h : string -> Z) (nodes : list node)
    (edges1 edges2 : list edge) (a : string)
    (node_spacing layer_separation : Z) (iterations : nat)
    (Ha : a ∈ map node_id nodes) :
  let edges := edges1 ++ edges2 in
  let edges' := edges1 ++ Edge a a :: edges2 in
  let r := compute_layout_positions h nodes edges node_spacing layer_separation
             iterations in
  let r' := compute_layout_positions h nodes edges' node_spacing layer_separation
              iterations in
  (exists l, r' = Ok l)
  /\ dget 0 (in_degree (build_adjacency nodes edges')) a
     = dget 0 (in_degree (build_adjacency nodes edges)) a + 1
  /\ ~ resolved (valid_edges nodes edges') a
  /\ (NoDup (map node_id nodes) ->
      forall v, v ∈ map node_id nodes -> ~ path (valid_edges nodes edges') a v ->
        layer_of r' v = layer_of r v).
Proof.
  intros edges edges' r r'.
  split; [|split; [|split]].
  - apply compute_layout_positions_total.
  - destruct (build_adjacency_spec nodes edges') as (_ & _ & ->).
    destruct (build_adjacency_spec nodes edges) as (_ & _ & ->).
    unfold edges, edges', valid_edges, parents_of.
    rewrite !filter_app, filter_cons. cbn [source target].
    rewrite decide_True by (by rewrite !elem_of_node_id_set).
    rewrite ?filter_app, filter_cons. cbn [target].
    rewrite decide_True by done.
    rewrite !map_app, !length_app. cbn [map length]. lia.
  - apply self_loop_unresolved. apply elem_of_valid_edges. cbn [source target].
    split; [|done]. apply elem_of_app. right. apply elem_of_cons. by left.
  - intros Hunique v Hv Hno.
    destruct (pipeline_spec h nodes edges node_spacing layer_separation iterations Hunique)
      as (lm & nbl & orders & pos & met & Hlm & _ & Hrun & _).
    destruct (pipeline_spec h nodes edges' node_spacing layer_separation iterations Hunique)
      as (lm' & nbl' & orders' & pos' & met' & Hlm' & _ & Hrun' & _).
    unfold r, r'. rewrite Hrun, Hrun'. cbn [layer_of].
    destruct (assign_layers_sound nodes edges Hunique) as (lm0 & Hlm0 & _ & _ & P & HP & HL).
    destruct (assign_layers_sound nodes edges' Hunique)
      as (lm0' & Hlm0' & _ & _ & P' & HP' & HL').
    assert (lm0 = lm) as -> by congruence. assert (lm0' = lm') as -> by congruence.
    by apply (loop_layer_unchanged nodes edges1 edges2 a lm lm' P P').
Qed.

Lemma self_loop_witness :
  "A" ∈ map node_id pair_nodes
  /\ let edges := [Edge "A" "B"] ++ [] in
     let edges' := [Edge "A" "B"] ++ Edge "A" "A" :: [] in
     let r := compute_layout_positions (fun _ => 0) pair_nodes edges 250 200 8 in
     let r' := compute_layout_positions (fun _ => 0) pair_nodes edges' 250 200 8 in
     (exists l, r' = Ok l)
     /\ dget 0 (in_degree (build_adjacency pair_nodes edges')) "A"
        = dget 0 (in_degree (build_adjacency pair_nodes edges)) "A" + 1
     /\ ~ resolved (valid_edges pair_nodes edges') "A"
     /\ (NoDup (map node_id pair_nodes) ->
         forall v, v ∈ map node_id pair_nodes ->
           ~ path (valid_edges pair_nodes edges') "A" v ->
           layer_of r' v = layer_of r v).
Proof.
  assert ("A" ∈ map node_id pair_nodes) as Ha
    by (apply (bool_decide_unpack _); vm_compute; exact I).
  split; [exact Ha|].
  exact (self_loop_counted_not_raised (fun _ => 0) pair_nodes [Edge "A" "B"] []
           "A" 250 200 8 Ha).
Defined.

(** C7, amended. For a graph with unique node ids, the node of final order
    index [i] in a layer of [count] nodes is placed at
    [x = start_x + i * node_spacing], [y = layer * layer_separation], where
    [start_x = floor(-((count-1) * node_spacing) / 2)] if [count > 1] and [0]
    otherwise: [y] depends only on the layer and [x] only on the size of the
    layer and the order index within it. *)
Theorem positions_from_layer_and_order (h : string -> Z) (nodes : list node)
    (edges : list edge) (node_spacing layer_separation : Z) (iterations : nat)
    (Hunique : NoDup (map node_id nodes)) :
  exists node_layers nodes_by_layer node_orders positions metrics,
    ordering_stage h nodes edges iterations = Ok (node_layers, nodes_by_layer, node_orders)
    /\ compute_layout_positions h nodes edges node_spacing layer_separation iterations
       = Ok (positions, metrics, node_layers)
    /\ forall n, n ∈ map node_id nodes ->
         exists layer i,
           node_layers !! n = Some layer
           /\ node_orders !! n = Some (Z.of_nat i)
           /\ let count :=
                length (filter (fun m => node_layers !! m = Some layer)
                               (map node_id nodes)) in
              (i < count)%nat
              /\ positions !! n
                 = Some ((if (1 <? count)%nat
                          then (- ((Z.of_nat count - 1) * node_spacing)) / 2
                          else 0)
                         + Z.of_nat i * node_spacing,
                         layer * layer_separation).
Proof.
  destruct (pipeline_spec h nodes edges node_spacing layer_separation iterations Hunique)
    as (lm & nbl & orders & pos & met & _ & Hstage & Hrun & _ & Hdom & Hu & _ & Hget & Hpos).
  exists lm, nbl, orders, pos, met. split; [done|]. split; [done|].
  intros n Hn. destruct (Hdom n Hn) as [layer Hlayer]. exists layer.
  assert (n ∈ od_get nbl layer) as Hin by (rewrite Hget; by apply list_elem_of_filter).
  destruct (od_get_cases nbl layer) as [Hnil|Hitem].
  { rewrite Hnil in Hin. by apply elem_of_nil in Hin. }
  destruct (Hpos layer _ n Hitem Hin) as (i & Hi & Ho & Hp).
  rewrite Hget in Hi, Hp. exists i. split; [done|]. split; [done|]. cbn zeta.
  split; [done|]. exact Hp.
Qed.

Lemma positions_witness :
  NoDup (map node_id pair_nodes)
  /\ exists node_layers nodes_by_layer node_orders positions metrics,
       ordering_stage (fun _ => 0) pair_nodes [] 8
       = Ok (node_layers, nodes_by_layer, node_orders)
       /\ compute_layout_positions (fun _ => 0) pair_nodes [] 251 200 8
          = Ok (positions, metrics, node_layers)
       /\ forall n, n ∈ map node_id pair_nodes ->
            exists layer i,
              node_layers !! n = Some layer
              /\ node_orders !! n = Some (Z.of_nat i)
              /\ let count :=
                   length (filter (fun m => node_layers !! m = Some layer)
                                  (map node_id pair_nodes)) in
                 (i < count)%nat
                 /\ positions !! n
                    = Some ((if (1 <? count)%nat
                             then (- ((Z.of_nat count - 1) * 251)) / 2
                             else 0)
                            + Z.of_nat i * 251,
                            layer * 200).
Proof.
  assert (NoDup (map node_id pair_nodes)) as H
    by (apply (bool_decide_unpack _); vm_compute; exact I).
  split; [exact H|].
  exact (positions_from_layer_and_order (fun _ => 0) pair_nodes [] 251 200 8 H).
Defined.

Lemma order_map_witness :
  unique_ids [(0, ["A"]); (1, ["B"; "C"]); (2, ["D"])]
  /\ order_invariant [(0, ["A"]); (1, ["B"; "C"]); (2, ["D"])]
       (barycenter_ordering (fun _ => 0) [(0, ["A"]); (1, ["B"; "C"]); (2, ["D"])]
          {["A" := ["B"; "C"]; "B" := ["D"]; "C" := ["D"]]}
          {["B" := ["A"]; "C" := ["A"]; "D" := ["B"; "C"]]} 8).
Proof.
  assert (unique_ids [(0, ["A"]); (1, ["B"; "C"]); (2, ["D"])]) as H
    by (split; apply (bool_decide_unpack _); vm_compute; exact I).
  split; [exact H|].
  exact (proj2 (proj2 (proj2 (proj2 (proj2
           (order_map_bijective_per_layer (fun _ => 0) _
              {["A" := ["B"; "C"]; "B" := ["D"]; "C" := ["D"]]}
              {["B" := ["A"]; "C" := ["A"]; "D" := ["B"; "C"]]} H))))) 8%nat).
Defined.

(** ** apply_layout_to_nodes copies and preserves *)

Lemma copy_node_spec (positions : gmap string (Z * Z)) (res : nat) (acc : list nat)
    (hp : heap) (r : nat) (d : gmap string pyval) :
  hp !! r = Some (ODict d) -> is_Some (d !! "id") -> hp !! res = Some (OList acc) ->
  exists hp', copy_node positions res (Ok hp) r = Ok hp'
    /\ length hp' = S (length hp)
    /\ (forall k, (k < length hp)%nat -> k <> res -> hp' !! k = hp !! k)
    /\ hp' !! length hp = Some (ODict (with_position positions d))
    /\ hp' !! res = Some (OList (acc ++ [length hp])).
Proof.
  intros Hr [v Hv] Hres.
  assert (res < length hp)%nat as Hlt by (by eapply lookup_lt_Some).
  unfold copy_node, get_dict, getitem, with_position, list_append, get_list.
  cbn. rewrite Hr. cbn. rewrite Hv. cbn.
  destruct (position_at positions v) as [[x y]|].
  - rewrite list_lookup_insert_ne by lia. rewrite lookup_app_l by done. rewrite Hres. cbn.
    eexists. split; [done|]. split; [|split; [|split]].
    + by rewrite !length_insert, length_app, Nat.add_1_r.
    + intros k Hk Hne. rewrite !list_lookup_insert_ne by lia. by apply lookup_app_l.
    + rewrite list_lookup_insert_ne by lia. apply list_lookup_insert_eq.
      rewrite length_app. cbn. lia.
    + apply list_lookup_insert_eq. rewrite length_insert, length_app. lia.
  - rewrite lookup_app_l by done. rewrite Hres. cbn.
    eexists. split; [done|]. split; [|split; [|split]].
    + by rewrite length_insert, length_app, Nat.add_1_r.
    + intros k Hk Hne. rewrite list_lookup_insert_ne by lia. by apply lookup_app_l.
    + rewrite list_lookup_insert_ne by lia. rewrite lookup_app_r by lia.
      by rewrite Nat.sub_diag.
    + apply list_lookup_insert_eq. rewrite length_app. lia.
Qed.

Lemma apply_layout_fold (positions : gmap string (Z * Z)) (res : nat)
    (items acc : list nat) (hp0 : heap) :
  node_records hp0 items -> hp0 !! res = Some (OList acc) ->
  exists new hp',
    fold_left (copy_node positions res) items (Ok hp0) = Ok hp'
    /\ hp' !! res = Some (OList (acc ++ new))
    /\ (forall k, (k < length hp0)%nat -> k <> res -> hp' !! k = hp0 !! k)
    /\ Forall2 (fun r r' => (length hp0 <= r' < length hp')%nat
                            /\ exists d, hp0 !! r = Some (ODict d)
                                 /\ hp' !! r' = Some (ODict (with_position positions d)))
               items new
    /\ NoDup new.
Proof.
  revert acc hp0. induction items as [|r items IH]; intros acc hp0 Hwf Hres.
  - exists [], hp0. cbn. rewrite app_nil_r.
    split; [done|]. split; [done|]. split; [done|]. split; constructor.
  - assert (res < length hp0)%nat as Hlt by (by eapply lookup_lt_Some).
    destruct (Hwf r) as (d & Hr & Hid); [apply elem_of_cons; by left|].
    destruct (copy_node_spec positions res acc hp0 r d Hr Hid Hres)
      as (hp1 & Hstep & Hlen & Hold & Hnew & Hres1).
    assert (forall a da, hp0 !! a = Some (ODict da) -> hp1 !! a = Some (ODict da)) as Hdict.
    { intros a da Ha. rewrite Hold; [done | by eapply lookup_lt_Some | congruence]. }
    destruct (IH (acc ++ [length hp0]) hp1) as (new & hp' & Hrun & Hres' & Hkeep & Hall & Hnd).
    { intros r' Hr'. destruct (Hwf r') as (d' & Hd' & Hid'); [apply elem_of_cons; by right|].
      exists d'. split; [by apply Hdict | done]. }
    { done. }
    exists (length hp0 :: new), hp'. cbn [fold_left]. rewrite Hstep, Hrun.
    split; [done|]. split; [by rewrite Hres', <- app_assoc|]. split; [|split].
    + intros k Hk Hne. rewrite Hkeep by lia. by apply Hold.
    + constructor.
      * split.
        -- assert (is_Some (hp' !! length hp0)) as Hs
             by (rewrite Hkeep by lia; rewrite Hnew; done).
           apply lookup_lt_is_Some in Hs. lia.
        -- exists d. split; [done|]. rewrite Hkeep by lia. done.
      * apply Forall2_same_length_lookup_2; [by eapply Forall2_length|].
        intros i a b Ha Hb.
        destruct (Forall2_lookup_lr _ _ _ _ _ _ Hall Ha Hb) as ([Hb1 Hb2] & d' & Hd' & Hb').
        split; [lia|]. exists d'. split; [|done].
        destruct (Hwf a) as (da & Hda & _).
        { apply elem_of_cons. right. by eapply list_elem_of_lookup_2. }
        rewrite (Hdict a da Hda) in Hd'. congruence.
    + constructor; [|done]. intros Hin.
      assert (Forall (fun r' => (length hp1 <= r')%nat) new) as Hge.
      { clear -Hall. induction Hall as [|a b l1 l2 [[Hb _] _] _ IH]; constructor; done. }
      rewrite Forall_forall in Hge. specialize (Hge _ Hin). lia.
Qed.

Lemma apply_layout_spec (nodes : nat) (items : list nat) (positions : gmap string (Z * Z))
    (hp : heap) :
  node_list hp nodes items ->
  exists result hp' items',
    apply_layout_to_nodes nodes positions hp = Ok (result, hp')
    /\ hp !! result = None
    /\ hp' !! result = Some (OList items')
    /\ (forall r o, hp !! r = Some o -> hp' !! r = Some o)
    /\ NoDup items'
    /\ Forall2 (fun r r' => hp !! r' = None
                            /\ exists d, hp !! r = Some (ODict d)
                                 /\ hp' !! r' = Some (ODict (with_position positions d)))
               items items'.
Proof.
  intros [Hlist Hrec]. unfold apply_layout_to_nodes, get_list. rewrite Hlist. cbn.
  destruct (apply_layout_fold positions (length hp) items [] (hp ++ [OList []]))
    as (new & hp' & Hrun & Hres & Hkeep & Hall & Hnd).
  { intros r Hr. destruct (Hrec r Hr) as (d & Hd & Hid). exists d.
    split; [|done]. rewrite lookup_app_l; [done | by eapply lookup_lt_Some]. }
  { rewrite lookup_app_r by lia. by rewrite Nat.sub_diag. }
  rewrite Hrun. cbn. exists (length hp), hp', new.
  split; [done|]. split; [by apply lookup_ge_None|]. split; [done|].
  rewrite length_app in Hkeep, Hall. cbn [length] in Hkeep, Hall.
  split; [|split; [done|]].
  - intros r o Hr. pose proof (lookup_lt_Some _ _ _ Hr) as Hlt.
    rewrite Hkeep by lia. by rewrite lookup_app_l.
  - apply Forall2_same_length_lookup_2; [by eapply Forall2_length|].
    intros i a b Ha Hb.
    destruct (Forall2_lookup_lr _ _ _ _ _ _ Hall Ha Hb) as ([Hb1 Hb2] & d & Hd & Hb').
    split; [apply lookup_ge_None; lia|]. exists d. split; [|done].
    destruct (Hrec a) as (da & Hda & _); [by eapply list_elem_of_lookup_2|].
    rewrite lookup_app_l in Hd; [done | by eapply lookup_lt_Some].
Qed.

(** C9. On a heap where [nodes] is a list of records with an [id],
    [apply_layout_to_nodes] returns a new list object holding references to
    new records, one per input node and distinct from each other; each new
    record is the input record with [x] and [y] set from the positions map;
    and every object that existed before the call, the input list and the
    input records among them, is unchanged. *)
Theorem apply_layout_copies_nodes (nodes : nat) (items : list nat)
    (positions : gmap string (Z * Z)) (hp : heap) (Hwf : node_list hp nodes items) :
  exists result hp' items',
    apply_layout_to_nodes nodes positions hp = Ok (result, hp')
    /\ hp !! result = None
    /\ hp' !! result = Some (OList items')
    /\ hp' !! nodes = Some (OList items)
    /\ (forall r o, hp !! r = Some o -> hp' !! r = Some o)
    /\ NoDup items'
    /\ Forall2 (fun r r' => hp !! r' = None
                            /\ exists d, hp !! r = Some (ODict d)
                                 /\ hp' !! r = Some (ODict d)
                                 /\ hp' !! r' = Some (ODict (with_position positions d)))
               items items'.
Proof.
  destruct (apply_layout_spec nodes items positions hp Hwf)
    as (res & hp' & items' & Hrun & Hfresh & Hres & Hkeep & Hnd & Hall).
  exists res, hp', items'. split; [exact Hrun|]. split; [done|]. split; [done|].
  split; [apply Hkeep, Hwf|]. split; [done|]. split; [done|].
  eapply Forall2_impl; [exact Hall|]. cbn.
  intros r r' (Hr' & d & Hd & Hnew). split; [done|]. exists d. eauto.
Qed.

(** C10. The result is a new list with the length and the order of the
    input list: its [i]-th record is a new object, other than the [i]-th
    input record, which stays as it was; it has the id of that record; and
    a node whose id has no position is copied as it is, without [x] or [y]
    added. *)
Theorem apply_layout_keeps_length_and_order (nodes : nat) (items : list nat)
    (positions : gmap string (Z * Z)) (hp : heap) (Hwf : node_list hp nodes items) :
  exists result hp' items',
    apply_layout_to_nodes nodes positions hp = Ok (result, hp')
    /\ hp !! result = None
    /\ hp' !! result = Some (OList items')
    /\ hp' !! nodes = Some (OList items)
    /\ length items' = length items
    /\ forall i r d, items !! i = Some r -> hp !! r = Some (ODict d) ->
         exists r' d', items' !! i = Some r'
           /\ hp !! r' = None
           /\ r' <> r
           /\ hp' !! r = Some (ODict d)
           /\ hp' !! r' = Some (ODict d')
           /\ d' !! "id" = d !! "id"
           /\ (d !! "id" ≫= position_at positions = None -> d' = d).
Proof.
  destruct (apply_layout_spec nodes items positions hp Hwf)
    as (res & hp' & items' & Hrun & Hfresh & Hres & Hkeep & Hnd & Hall).
  exists res, hp', items'. split; [exact Hrun|]. split; [done|]. split; [done|].
  split; [apply Hkeep, Hwf|]. split.
  - symmetry. by eapply Forall2_length.
  - intros i r d Hi Hr.
    destruct (Forall2_lookup_l _ _ _ _ _ Hall Hi) as (r' & Hr' & Hnone & d' & Hd' & Hnew).
    assert (d' = d) as -> by congruence.
    exists r', (with_position positions d). split; [done|]. split; [done|].
    split; [congruence|]. split; [by apply Hkeep|]. split; [done|].
    unfold with_position. split.
    + destruct (d !! "id" ≫= position_at positions) as [[x y]|]; [|done].
      by rewrite !lookup_insert_ne.
    + by intros ->.
Qed.

Lemma sample_heap_node_list : node_list sample_heap 2 [0%nat; 1%nat].
Proof.
  split; [reflexivity|]. intros r Hr. apply elem_of_cons in Hr as [->|Hr].
  - eexists. split; [reflexivity|]. vm_compute. eauto.
  - apply elem_of_cons in Hr as [->|Hr]; [|by apply elem_of_nil in Hr].
    eexists. split; [reflexivity|]. vm_compute. eauto.
Defined.

Lemma apply_layout_copies_witness :
  node_list sample_heap 2 [0%nat; 1%nat]
  /\ exists result hp' items',
       apply_layout_to_nodes 2 {["A" := (100, 200)]} sample_heap = Ok (result, hp')
       /\ sample_heap !! result = None
       /\ hp' !! result = Some (OList items')
       /\ hp' !! 2%nat = Some (OList [0%nat; 1%nat])
       /\ (forall r o, sample_heap !! r = Some o -> hp' !! r = Some o)
       /\ NoDup items'
       /\ Forall2 (fun r r' =>
                     sample_heap !! r' = None
                     /\ exists d, sample_heap !! r = Some (ODict d)
                          /\ hp' !! r = Some (ODict d)
                          /\ hp' !! r' = Some (ODict (with_position
                                                        {["A" := (100, 200)]} d)))
                  [0%nat; 1%nat] items'.
Proof.
  split; [exact sample_heap_node_list|].
  exact (apply_layout_copies_nodes 2 [0%nat; 1%nat] {["A" := (100, 200)]} sample_heap
           sample_heap_node_list).
Defined.

Lemma apply_layout_order_witness :
  node_list sample_heap 2 [0%nat; 1%nat]
  /\ exists result hp' items',
       apply_layout_to_nodes 2 {["A" := (100, 200)]} sample_heap = Ok (result, hp')
       /\ sample_heap !! result = None
       /\ hp' !! result = Some (OList items')
       /\ hp' !! 2%nat = Some (OList [0%nat; 1%nat])
       /\ length items' = length [0%nat; 1%nat]
       /\ forall i r d, [0%nat; 1%nat] !! i = Some r ->
            sample_heap !! r = Some (ODict d) ->
            exists r' d', items' !! i = Some r'
              /\ sample_heap !! r' = None
              /\ r' <> r
              /\ hp' !! r = Some (ODict d)
              /\ hp' !! r' = Some (ODict d')
              /\ d' !! "id" = d !! "id"
              /\ (d !! "id" ≫= position_at {["A" := (100, 200)]} = None -> d' = d).
Proof.
  split; [exact sample_heap_node_list|].
  exact (apply_layout_keeps_length_and_order 2 [0%nat; 1%nat] {["A" := (100, 200)]}
           sample_heap sample_heap_node_list).
Defined.

Example apply_layout_run :
  apply_layout_to_nodes 2 {["A" := (100, 200)]} sample_heap
  = Ok (3%nat,
        sample_heap
        ++ [ OList [4%nat; 5%nat];
             ODict (<["y" := VInt 200]> (<["x" := VInt 100]>
                      {["id" := VStr "A"; "label" := VStr "Top"]}));
             ODict {["id" := VStr "B"; "label" := VStr "Left"]} ]).
Proof. vm_compute. reflexivity. Qed.

(** ** Concrete runs *)

Example diamond_layout (h : string -> Z) :
  let r := compute_layout_positions h diamond_nodes diamond_edges 250 200 8 in
  layer_of r "A" = Some 0 /\ layer_of r "B" = Some 1 /\ layer_of r "C" = Some 1
  /\ layer_of r "D" = Some 2 /\ metric_of r "crossings" = Some 0
  /\ position_of r "B" = Some (-125, 200) /\ position_of r "C" = Some (125, 200).
Proof. vm_compute. repeat split; reflexivity. Qed.

(** C3 (code_bug). On an empty node list the early return gives empty
    positions, an empty layer map and zero-valued metrics, but with only three
    keys: [total_nodes] and [total_edges], present on the main path, are
    missing. *)
Theorem empty_graph_metrics_lack_totals (h : string -> Z) (edges : list edge)
    (node_spacing layer_separation : Z) (iterations : nat) :
  let r := compute_layout_positions h [] edges node_spacing layer_separation iterations in
  r = Ok (∅, <["crossings" := 0]> (<["layers" := 0]> (<["max_layer_width" := 0]> ∅)), ∅)
  /\ metric_of r "crossings" = Some 0 /\ metric_of r "layers" = Some 0
  /\ metric_of r "max_layer_width" = Some 0
  /\ metric_of r "total_nodes" = None /\ metric_of r "total_edges" = None.
Proof. cbn. repeat split; reflexivity. Qed.

(** C4 (code_bug). The layout depends on the interpreter's string hash: with
    two hash functions (two processes) the isolated node [b] lands left or
    right of [a], so the positions differ between runs. *)
Theorem layout_depends_on_hash_seed :
  let r1 := compute_layout_positions (fun _ => 0) lone_nodes lone_edges 250 200 8 in
  let r2 := compute_layout_positions (fun _ => 9999) lone_nodes lone_edges 250 200 8 in
  position_of r1 "a" = Some (125, 0) /\ position_of r1 "b" = Some (-125, 0)
  /\ position_of r2 "a" = Some (-125, 0) /\ position_of r2 "b" = Some (125, 0).
Proof. vm_compute. repeat split; reflexivity. Qed.

(** C5, counterexample. Regrouping the bottom layer of the skew graph puts
    [e] before [d] and creates a crossing that the lexicographic order does
    not have. *)
Lemma skew_crossings (h : string -> Z) :
  final_crossings h skew_nodes skew_edges 8 = Ok 1
  /\ metric_of (compute_layout_positions h skew_nodes skew_edges 250 200 8) "crossings"
     = Some 1
  /\ naive_crossings skew_nodes skew_edges = Ok 0.
Proof. vm_compute. repeat split; reflexivity. Qed.

Lemma optimized_order_can_cross_more :
  ~ crossings_le (final_crossings (fun _ => 0) skew_nodes skew_edges 8)
                 (naive_crossings skew_nodes skew_edges).
Proof.
  destruct (skew_crossings (fun _ => 0)) as (-> & _ & ->). cbn. lia.
Qed.

(** C5, amended. On the two graphs of the test-suite the final order has no
    more crossings than the lexicographic one, whatever the hash. *)
Theorem optimized_no_worse_on_test_graphs (h : string -> Z) :
  crossings_le (final_crossings h messy_nodes messy_edges 10)
               (naive_crossings messy_nodes messy_edges)
  /\ crossings_le (final_crossings h diamond_nodes diamond_edges 8)
                  (naive_crossings diamond_nodes diamond_edges).
Proof. vm_compute. split; discriminate. Qed.

(** C6 (code_bug). [d] and [e] have the same set of parents, [{a, c}], but
    the doubled edge gives them different group keys, and [f] (parent [b])
    is ordered between them. *)
Theorem doubled_edge_splits_group (h : string -> Z) :
  let r := ordering_stage h twice_nodes twice_edges 8 in
  layer_of (compute_layout_positions h twice_nodes twice_edges 250 200 8) "d" = Some 1
  /\ order_of r "d" = Some 0 /\ order_of r "f" = Some 1 /\ order_of r "e" = Some 2.
Proof. vm_compute. repeat split; reflexivity. Qed.

(** C7, counterexample. With an odd total width the code's left end is
    [floor(-width/2)], one less than the spec's [-floor(width/2)]. *)
Lemma odd_width_start_x :
  position_of (compute_layout_positions (fun _ => 0) pair_nodes [] 251 200 8) "A"
  <> Some (spec_start_x 2 251 + 0 * 251, 0 * 200).
Proof. vm_compute. discriminate. Qed.

(** C2, counterexample. A self-loop on [A] moves its child [B] from layer 1
    to layer 0; it also moves the isolated node [C], which keeps its layer,
    to another position. *)
Lemma self_loop_moves_other_node :
  let nodes := make_nodes ["A"; "B"; "C"] in
  let r := compute_layout_positions (fun _ => 0) nodes [Edge "A" "B"] 250 200 8 in
  let r' := compute_layout_positions (fun _ => 0) nodes
              [Edge "A" "B"; Edge "A" "A"] 250 200 8 in
  layer_of r' "B" <> layer_of r "B" /\ position_of r' "B" <> position_of r "B"
  /\ layer_of r' "C" = layer_of r "C" /\ position_of r' "C" <> position_of r "C".
Proof. vm_compute. repeat split; discriminate. Qed.

(** * Further properties *)

(** ** More on [assign_layers] *)

Lemma assign_layers_inv (nodes : list node) (edges : list edge) (lm : gmap string Z) :
  assign_layers nodes edges = Ok lm ->
  exists st,
    process_queue (kahn_fuel nodes edges) (children (build_adjacency nodes edges))
      (seed_sources nodes
         (init_in_degree nodes (in_degree (build_adjacency nodes edges)))) = Ok st
    /\ lm = default_layers nodes (layers st).
Proof.
  unfold assign_layers. intros H.
  destruct (process_queue _ _ _) as [st| |]; cbn in H; [|done..].
  exists st. split; [done|]. congruence.
Qed.

Lemma visit_children_keys (ids : list string) (cl : Z) (cs : list string) (st : kahn) :
  (forall c, c ∈ cs -> c ∈ ids) ->
  (forall v l, layers st !! v = Some l -> v ∈ ids /\ 0 <= l) ->
  forall v l, layers (fold_left (visit_child cl) cs st) !! v = Some l -> v ∈ ids /\ 0 <= l.
Proof.
  revert st. induction cs as [|c cs IH]; intros st Hcs Hst; cbn [fold_left]; [done|].
  apply IH.
  - intros c' Hc'. apply Hcs. apply elem_of_cons. by right.
  - intros v l. unfold visit_child. cbn [layers].
    destruct (decide (c = v)) as [->|Hne].
    + rewrite lookup_insert_eq. intros [= <-]. split.
      * apply Hcs. apply elem_of_cons. by left.
      * unfold dget. destruct (layers st !! v) as [l0|] eqn:E; cbn; [|lia].
        destruct (Hst v l0 E). lia.
    + rewrite lookup_insert_ne by done. apply Hst.
Qed.

Lemma process_queue_keys (ids : list string) (ch : gmap string (list string))
    (fuel : nat) (st st' : kahn) :
  (forall u c, c ∈ dget [] ch u -> c ∈ ids) ->
  (forall v l, layers st !! v = Some l -> v ∈ ids /\ 0 <= l) ->
  process_queue fuel ch st = Ok st' ->
  forall v l, layers st' !! v = Some l -> v ∈ ids /\ 0 <= l.
Proof.
  intros Hch. revert st. induction fuel as [|fuel IH]; intros st Hst Hrun.
  - cbn in Hrun. destruct (queue st); [|done]. by injection Hrun as <-.
  - cbn [process_queue] in Hrun. destruct (queue st) as [|n q]; [by injection Hrun as <-|].
    destruct (getitem (layers st) n) as [cl| |] eqn:Hcl; cbn in Hrun; [|done..].
    eapply IH; [|exact Hrun].
    apply visit_children_keys; [apply Hch | done].
Qed.

Lemma seed_sources_keys (nodes : list node) (deg : gmap string Z) (v : string) (l : Z) :
  layers (seed_sources nodes deg) !! v = Some l -> v ∈ map node_id nodes /\ 0 <= l.
Proof.
  destruct (seed_sources_spec nodes deg) as (_ & Hq & Hl). rewrite Hl.
  destruct (decide _) as [Hin|]; [|done]. intros [= <-].
  rewrite Hq in Hin. apply list_elem_of_filter in Hin as [_ Hin]. split; [done | lia].
Qed.

(** The keys of the layer map are the node ids, and no layer is negative. *)
Lemma assign_layers_keys (nodes : list node) (edges : list edge) :
  exists node_layers,
    assign_layers nodes edges = Ok node_layers
    /\ (forall v, is_Some (node_layers !! v) <-> v ∈ map node_id nodes)
    /\ forall v l, node_layers !! v = Some l -> 0 <= l.
Proof.
  destruct (assign_layers_total nodes edges) as (lm & Hlm & Hdom).
  exists lm. split; [done|].
  destruct (assign_layers_inv nodes edges lm Hlm) as (st & Hrun & ->).
  destruct (build_adjacency_spec nodes edges) as (Hch & _ & _).
  pose proof (process_queue_keys (map node_id nodes) _ _ _ _
                (fun u c (H : c ∈ dget [] (children (build_adjacency nodes edges)) u) =>
                   ltac:(rewrite Hch in H; apply elem_of_children_of in H
                           as (e & He & _ & <-);
                         apply elem_of_valid_edges in He; tauto))
                (seed_sources_keys nodes _) Hrun) as Hkeys.
  split.
  - intros v. split; [|apply Hdom].
    intros [l Hl]. rewrite default_layers_lookup in Hl.
    destruct (layers st !! v) as [l0|] eqn:E; [by destruct (Hkeys v l0 E)|].
    by destruct (decide (v ∈ map node_id nodes)).
  - intros v l. rewrite default_layers_lookup.
    destruct (layers st !! v) as [l0|] eqn:E.
    + intros [= <-]. by destruct (Hkeys v l0 E).
    + destruct (decide _); [|done]. intros [= <-]. lia.
Qed.

(** *** Edges that name an unknown node *)

Lemma build_adjacency_valid (nodes : list node) (edges : list edge) :
  build_adjacency nodes (valid_edges nodes edges) = build_adjacency nodes edges.
Proof.
  unfold build_adjacency, valid_edges.
  generalize ({| children := ∅; parents := ∅; in_degree := ∅ |}).
  induction edges as [|e edges IH]; intros a; [done|].
  rewrite filter_cons. cbn [fold_left]. rewrite <- IH. unfold add_edge at 3.
  destruct (decide (source e ∈ node_id_set nodes /\ target e ∈ node_id_set nodes)) as [H|H].
  - cbn [fold_left]. unfold add_edge at 2. by rewrite decide_True.
  - done.
Qed.

Lemma process_queue_fuel_mono (ch : gmap string (list string)) (fuel fuel' : nat)
    (st st' : kahn) :
  process_queue fuel ch st = Ok st' -> (fuel <= fuel')%nat ->
  process_queue fuel' ch st = Ok st'.
Proof.
  revert fuel' st. induction fuel as [|fuel IH]; intros fuel' st Hrun Hle.
  - cbn in Hrun. destruct fuel'; cbn; destruct (queue st); done.
  - destruct fuel' as [|fuel']; [lia|]. cbn [process_queue] in *.
    destruct (queue st) as [|n q]; [done|].
    destruct (getitem (layers st) n) as [cl| |]; cbn in *; [|done..].
    apply IH; [done | lia].
Qed.

Lemma valid_edges_length (nodes : list node) (edges : list edge) :
  (length (valid_edges nodes edges) <= length edges)%nat.
Proof. unfold valid_edges. apply length_filter. Qed.

Lemma assign_layers_valid_edges (nodes : list node) (edges : list edge) :
  assign_layers nodes (valid_edges nodes edges) = assign_layers nodes edges.
Proof.
  destruct (assign_layers_total nodes (valid_edges nodes edges)) as (lm & Hlm & _).
  rewrite Hlm. symmetry.
  destruct (assign_layers_inv _ _ _ Hlm) as (st & Hrun & ->).
  unfold assign_layers. rewrite build_adjacency_valid in Hrun.
  rewrite (process_queue_fuel_mono _ _ (kahn_fuel nodes edges) _ _ Hrun); [done|].
  unfold kahn_fuel. pose proof (valid_edges_length nodes edges). lia.
Qed.

(** *** The layer of a node from the layers of its parents *)

Lemma max_list_ub (l : list Z) (x : Z) : x ∈ l -> x <= max_list l.
Proof.
  unfold max_list. induction l as [|y l IH]; intros Hx; [by apply elem_of_nil in Hx|].
  cbn. apply elem_of_cons in Hx as [->|Hx]; [lia|]. specialize (IH Hx). lia.
Qed.

Lemma max_list_cases (l : list Z) : max_list l = 0 \/ max_list l ∈ l.
Proof.
  unfold max_list. induction l as [|y l IH]; [by left|]. cbn.
  destruct (Z.max_spec y (fold_right Z.max 0 l)) as [[_ ->]|[_ ->]].
  - destruct IH as [IH|IH]; [by left | right; apply elem_of_cons; by right].
  - right. apply elem_of_cons. by left.
Qed.

Lemma max_list_ext (l l' : list Z) : (forall x, x ∈ l <-> x ∈ l') -> max_list l = max_list l'.
Proof.
  intros H.
  pose proof (max_list_nonneg l). pose proof (max_list_nonneg l').
  destruct (max_list_cases l) as [Hl|Hl]; destruct (max_list_cases l') as [Hl'|Hl'].
  - lia.
  - apply H, max_list_ub in Hl'. lia.
  - apply H, max_list_ub in Hl. lia.
  - apply H, max_list_ub in Hl. apply H, max_list_ub in Hl'. lia.
Qed.

Lemma elem_of_layer_spec_list (E : list edge) (P : list string) (L : gmap string Z)
    (v : string) (x : Z) :
  x ∈ map (fun e => dget 0 L (source e) + 1)
          (filter (fun e => target e = v /\ source e ∈ P) E)
  <-> exists e, e ∈ E /\ target e = v /\ source e ∈ P /\ x = dget 0 L (source e) + 1.
Proof.
  change (map ?f ?l) with (f <$> l). rewrite list_elem_of_fmap. split.
  - intros (e & -> & He). apply list_elem_of_filter in He as [[? ?] ?]. eauto 6.
  - intros (e & He & Ht & Hs & ->). exists e. split; [done|].
    by apply list_elem_of_filter.
Qed.

Lemma resolved_ext (E E' : list edge) (v : string) :
  (forall e, e ∈ E' -> e ∈ E) -> resolved E v -> resolved E' v.
Proof.
  intros Hsub. induction 1 as [v _ IH]. constructor. intros e He Ht. by apply IH; [apply Hsub|].
Qed.

(** The equations [layer(v) = layer_spec v] have one solution: the layers
    depend on the set of included edges only. *)
Lemma layer_equations_unique (ids : list string) (E E' : list edge) (P P' : list string)
    (L L' : gmap string Z) :
  (forall e, e ∈ E <-> e ∈ E') ->
  (forall v, v ∈ P <-> v ∈ ids /\ resolved E v) ->
  (forall v, v ∈ P' <-> v ∈ ids /\ resolved E' v) ->
  (forall e, e ∈ E -> source e ∈ ids) ->
  (forall v, v ∈ ids -> L !! v = Some (layer_spec E P L v)) ->
  (forall v, v ∈ ids -> L' !! v = Some (layer_spec E' P' L' v)) ->
  forall v, v ∈ ids -> L !! v = L' !! v.
Proof.
  intros HE HP HP' Hsrc HL HL'.
  assert (forall v, v ∈ P <-> v ∈ P') as HPP.
  { intros v. rewrite HP, HP'. split; intros [? Hr]; (split; [done|]);
      (eapply resolved_ext; [|exact Hr]); intros e; apply HE. }
  assert (forall v, (forall e, e ∈ E -> target e = v -> source e ∈ P ->
                       L !! source e = L' !! source e) ->
                    layer_spec E P L v = layer_spec E' P' L' v) as Hstep.
  { intros v Hv. unfold layer_spec. apply max_list_ext. intros x.
    rewrite !elem_of_layer_spec_list. split.
    - intros (e & He & Ht & Hs & ->). exists e.
      split; [by apply HE|]. split; [done|]. split; [by apply HPP|].
      unfold dget. by rewrite (Hv e He Ht Hs).
    - intros (e & He & Ht & Hs & ->). apply HE in He. apply HPP in Hs. exists e.
      split; [done|]. split; [done|]. split; [done|].
      unfold dget. by rewrite (Hv e He Ht Hs). }
  assert (forall v, resolved E v -> v ∈ ids -> L !! v = L' !! v) as Hres.
  { induction 1 as [v _ IH]. intros Hv. rewrite (HL v Hv), (HL' v Hv). f_equal.
    apply Hstep. intros e He Ht Hs. apply IH; [done..|by apply Hsrc]. }
  intros v Hv. rewrite (HL v Hv), (HL' v Hv). f_equal.
  apply Hstep. intros e He Ht Hs. apply HP in Hs as [? ?]. by apply Hres.
Qed.

Lemma valid_edges_source (nodes : list node) (edges : list edge) (e : edge) :
  e ∈ valid_edges nodes edges -> source e ∈ map node_id nodes.
Proof. intros H. apply elem_of_valid_edges in H. tauto. Qed.

Lemma assign_layers_set_ext (nodes nodes' : list node) (edges edges' : list edge) :
  NoDup (map node_id nodes) -> NoDup (map node_id nodes') ->
  (forall i, i ∈ map node_id nodes <-> i ∈ map node_id nodes') ->
  (forall e, e ∈ edges <-> e ∈ edges') ->
  assign_layers nodes edges = assign_layers nodes' edges'.
Proof.
  intros Hnd Hnd' Hids Hedges.
  destruct (assign_layers_sound nodes edges Hnd) as (lm & Hlm & _ & _ & P & HP & HL).
  destruct (assign_layers_sound nodes' edges' Hnd') as (lm' & Hlm' & _ & _ & P' & HP' & HL').
  destruct (assign_layers_keys nodes edges) as (lm0 & Hlm0 & Hdom & _).
  destruct (assign_layers_keys nodes' edges') as (lm0' & Hlm0' & Hdom' & _).
  assert (lm0 = lm) as -> by congruence. assert (lm0' = lm') as -> by congruence.
  rewrite Hlm, Hlm'. f_equal. apply map_eq. intros v.
  destruct (decide (v ∈ map node_id nodes)) as [Hv|Hv].
  - apply (layer_equations_unique (map node_id nodes) (valid_edges nodes edges)
             (valid_edges nodes' edges') P P' lm lm').
    + intros e. rewrite !elem_of_valid_edges.
      rewrite (Hedges e), (Hids (source e)), (Hids (target e)). done.
    + exact HP.
    + intros v'. rewrite (HP' v'), (Hids v'). done.
    + apply valid_edges_source.
    + exact HL.
    + intros v' Hv'. apply HL'. by apply Hids.
    + exact Hv.
  - assert (lm !! v = None) as ->.
    { apply eq_None_not_Some. intros H. by apply Hdom in H. }
    symmetry. apply eq_None_not_Some. intros H. apply Hdom' in H. by apply Hids in H.
Qed.

(** The layer of a node is one below its deepest resolved parent, and 0
    without one. *)
Lemma assign_layers_recurrence (nodes : list node) (edges : list edge) :
  NoDup (map node_id nodes) ->
  exists node_layers,
    assign_layers nodes edges = Ok node_layers
    /\ forall v k, v ∈ map node_id nodes -> node_layers !! v = Some k ->
         0 <= k
         /\ (forall e, e ∈ valid_edges nodes edges -> target e = v ->
               resolved (valid_edges nodes edges) (source e) ->
               exists j, node_layers !! source e = Some j /\ j < k)
         /\ (k = 0
             \/ exists e, e ∈ valid_edges nodes edges /\ target e = v
                          /\ resolved (valid_edges nodes edges) (source e)
                          /\ node_layers !! source e = Some (k - 1)).
Proof.
  intros Hnd.
  destruct (assign_layers_sound nodes edges Hnd) as (lm & Hlm & Hdom & _ & P & HP & HL).
  exists lm. split; [done|]. intros v k Hv Hk. rewrite (HL v Hv) in Hk.
  injection Hk as <-. unfold layer_spec.
  set (l := map _ _).
  assert (forall x, x ∈ l <->
            exists e, e ∈ valid_edges nodes edges /\ target e = v /\ source e ∈ P
                      /\ x = dget 0 lm (source e) + 1) as Hl
    by (intros x; apply elem_of_layer_spec_list).
  assert (forall e, e ∈ valid_edges nodes edges ->
            lm !! source e = Some (dget 0 lm (source e))) as Hsrc.
  { intros e He. destruct (Hdom (source e)) as [j Hj]; [by eapply valid_edges_source|].
    unfold dget. by rewrite Hj. }
  split; [apply max_list_nonneg|]. split.
  - intros e He Ht Hres. exists (dget 0 lm (source e)). split; [by apply Hsrc|].
    assert (dget 0 lm (source e) + 1 ∈ l) as Hin.
    { apply Hl. exists e. repeat split; try done. apply HP. split; [|done].
      by eapply valid_edges_source. }
    apply max_list_ub in Hin. lia.
  - destruct (max_list_cases l) as [H0|Hin]; [by left|]. right.
    apply Hl in Hin as (e & He & Ht & Hs & Heq). exists e.
    split; [done|]. split; [done|]. split; [by apply HP in Hs as [_ ?]|].
    rewrite (Hsrc e He). f_equal. lia.
Qed.

Lemma assign_layers_recurrence_of (nodes : list node) (edges : list edge)
    (node_layers : gmap string Z) :
  NoDup (map node_id nodes) -> assign_layers nodes edges = Ok node_layers ->
  forall v k, v ∈ map node_id nodes -> node_layers !! v = Some k ->
    0 <= k
    /\ (forall e, e ∈ valid_edges nodes edges -> target e = v ->
          resolved (valid_edges nodes edges) (source e) ->
          exists j, node_layers !! source e = Some j /\ j < k)
    /\ (k = 0
        \/ exists e, e ∈ valid_edges nodes edges /\ target e = v
                     /\ resolved (valid_edges nodes edges) (source e)
                     /\ node_layers !! source e = Some (k - 1)).
Proof.
  intros Hnd Hlm. destruct (assign_layers_recurrence nodes edges Hnd) as (lm & Hlm' & H).
  assert (lm = node_layers) as -> by congruence. exact H.
Qed.

(** *** Longest paths *)

Lemma walk_snoc (E : list edge) (n : nat) (u w : string) (e : edge) :
  walk E n u w -> e ∈ E -> source e = w -> walk E (S n) u (target e).
Proof.
  intros Hw He Hs. induction Hw as [v|e' n v He' Hw IH].
  - subst v. apply walk_cons; [done | constructor].
  - apply walk_cons; [done | by apply IH].
Qed.

Lemma walk_layers (nodes : list node) (edges : list edge) (node_layers : gmap string Z)
    (n : nat) (u v : string) (k : Z) :
  NoDup (map node_id nodes) -> acyclic (valid_edges nodes edges) ->
  assign_layers nodes edges = Ok node_layers ->
  walk (valid_edges nodes edges) n u v ->
  v ∈ map node_id nodes -> node_layers !! v = Some k ->
  exists j, node_layers !! u = Some j /\ 0 <= j /\ j + Z.of_nat n <= k.
Proof.
  intros Hnd Hac Hlm Hw. induction Hw as [v|e n v He Hw IH]; intros Hv Hk.
  - exists k. split; [done|].
    destruct (assign_layers_recurrence_of nodes edges node_layers Hnd Hlm v k Hv Hk). lia.
  - destruct (IH Hv Hk) as (jt & Hjt & _ & Hle).
    assert (target e ∈ map node_id nodes) as Ht
      by (apply elem_of_valid_edges in He; tauto).
    destruct (assign_layers_recurrence_of nodes edges node_layers Hnd Hlm _ _ Ht Hjt)
      as (_ & Hpar & _).
    destruct (Hpar e He eq_refl (acyclic_resolved _ _ Hac)) as (j & Hj & Hlt).
    exists j. split; [done|].
    destruct (assign_layers_recurrence_of nodes edges node_layers Hnd Hlm _ _
                (valid_edges_source _ _ _ He) Hj). lia.
Qed.

Lemma walk_of_layer (nodes : list node) (edges : list edge) (node_layers : gmap string Z)
    (m : nat) (v : string) :
  NoDup (map node_id nodes) -> assign_layers nodes edges = Ok node_layers ->
  v ∈ map node_id nodes -> node_layers !! v = Some (Z.of_nat m) ->
  exists u, walk (valid_edges nodes edges) m u v /\ node_layers !! u = Some 0.
Proof.
  intros Hnd Hlm. revert v. induction m as [|m IH]; intros v Hv Hk.
  - exists v. split; [constructor | done].
  - destruct (assign_layers_recurrence_of nodes edges node_layers Hnd Hlm v _ Hv Hk)
      as (_ & _ & [H0|(e & He & Ht & _ & Hs)]); [lia|].
    replace (Z.of_nat (S m) - 1) with (Z.of_nat m) in Hs by lia.
    destruct (IH (source e) (valid_edges_source _ _ _ He) Hs) as (u & Hw & Hu).
    exists u. split; [|done]. rewrite <- Ht. by eapply walk_snoc.
Qed.

(** *** The layers in use have no gap *)

Lemma layers_no_gap (nodes : list node) (edges : list edge) (node_layers : gmap string Z)
    (v : string) (k j : Z) :
  NoDup (map node_id nodes) -> assign_layers nodes edges = Ok node_layers ->
  v ∈ map node_id nodes -> node_layers !! v = Some k -> 0 <= j <= k ->
  exists u, u ∈ map node_id nodes /\ node_layers !! u = Some j.
Proof.
  intros Hnd Hlm. remember (Z.to_nat (k - j)) as d eqn:Hd.
  revert v k Hd. induction d as [|d IH]; intros v k Hd Hv Hk Hj.
  - exists v. split; [done|]. rewrite Hk. f_equal. lia.
  - destruct (assign_layers_recurrence_of nodes edges node_layers Hnd Hlm v _ Hv Hk)
      as (_ & _ & [H0|(e & He & Ht & _ & Hs)]); [lia|].
    apply (IH (source e) (k - 1)); [lia | by eapply valid_edges_source | done | lia].
Qed.

(** *** Results on [assign_layers] *)

(** X1. Whatever the node and edge lists (duplicate ids, cycles, edges to
    unknown nodes), [assign_layers] returns a map whose keys are exactly the
    node ids and whose layers are never negative. *)
Theorem assign_layers_maps_every_node (nodes : list node) (edges : list edge) :
  exists node_layers,
    assign_layers nodes edges = Ok node_layers
    /\ (forall v, is_Some (node_layers !! v) <-> v ∈ map node_id nodes)
    /\ forall v l, node_layers !! v = Some l -> 0 <= l.
Proof. apply assign_layers_keys. Qed.

(** X2. An edge with an endpoint that is no node id is ignored: the layer
    map is the one of the edge list without such edges. *)
Theorem assign_layers_skips_unknown_endpoints (nodes : list node) (edges : list edge) :
  exists node_layers,
    assign_layers nodes edges = Ok node_layers
    /\ assign_layers nodes (valid_edges nodes edges) = Ok node_layers.
Proof.
  destruct (assign_layers_total nodes edges) as (lm & Hlm & _).
  exists lm. split; [done|]. by rewrite assign_layers_valid_edges.
Qed.

(** X3. With unique node ids the layer of a node is one more than the
    layer of its deepest resolved parent, and 0 when it has none: every
    resolved parent lies in a shallower layer, and a node of layer [k > 0]
    has a resolved parent in layer [k - 1]. *)
Theorem layer_is_one_below_deepest_parent (nodes : list node) (edges : list edge)
    (Hunique : NoDup (map node_id nodes)) :
  exists node_layers,
    assign_layers nodes edges = Ok node_layers
    /\ forall v k, v ∈ map node_id nodes -> node_layers !! v = Some k ->
         0 <= k
         /\ (forall e, e ∈ valid_edges nodes edges -> target e = v ->
               resolved (valid_edges nodes edges) (source e) ->
               exists j, node_layers !! source e = Some j /\ j < k)
         /\ (k = 0
             \/ exists e, e ∈ valid_edges nodes edges /\ target e = v
                          /\ resolved (valid_edges nodes edges) (source e)
                          /\ node_layers !! source e = Some (k - 1)).
Proof. by apply assign_layers_recurrence. Qed.

Lemma layer_is_one_below_deepest_parent_witness :
  NoDup (map node_id diamond_nodes)
  /\ exists node_layers,
       assign_layers diamond_nodes diamond_edges = Ok node_layers
       /\ forall v k, v ∈ map node_id diamond_nodes -> node_layers !! v = Some k ->
            0 <= k
            /\ (forall e, e ∈ valid_edges diamond_nodes diamond_edges -> target e = v ->
                  resolved (valid_edges diamond_nodes diamond_edges) (source e) ->
                  exists j, node_layers !! source e = Some j /\ j < k)
            /\ (k = 0
                \/ exists e, e ∈ valid_edges diamond_nodes diamond_edges /\ target e = v
                             /\ resolved (valid_edges diamond_nodes diamond_edges) (source e)
                             /\ node_layers !! source e = Some (k - 1)).
Proof.
  assert (NoDup (map node_id diamond_nodes)) as H
    by (apply (bool_decide_unpack _); vm_compute; exact I).
  split; [exact H|].
  exact (layer_is_one_below_deepest_parent diamond_nodes diamond_edges H).
Defined.

(** X4. In a graph with unique node ids and no cycle the layer of a node
    is the length of the longest path that ends in it: a path of that many
    edges leads to it from a node of layer 0, and no path into it is longer. *)
Theorem layer_is_longest_path (nodes : list node) (edges : list edge)
    (Hunique : NoDup (map node_id nodes))
    (Hacyclic : acyclic (valid_edges nodes edges)) :
  exists node_layers,
    assign_layers nodes edges = Ok node_layers
    /\ forall v k, v ∈ map node_id nodes -> node_layers !! v = Some k ->
         (exists u, walk (valid_edges nodes edges) (Z.to_nat k) u v
                    /\ node_layers !! u = Some 0)
         /\ forall n u, walk (valid_edges nodes edges) n u v -> Z.of_nat n <= k.
Proof.
  destruct (assign_layers_total nodes edges) as (lm & Hlm & _).
  exists lm. split; [done|]. intros v k Hv Hk.
  destruct (assign_layers_recurrence_of nodes edges lm Hunique Hlm v k Hv Hk) as [Hk0 _].
  split.
  - apply (walk_of_layer nodes edges lm (Z.to_nat k) v Hunique Hlm Hv).
    rewrite Hk. f_equal. lia.
  - intros n u Hw.
    destruct (walk_layers nodes edges lm n u v k Hunique Hacyclic Hlm Hw Hv Hk)
      as (j & _ & Hj & Hle). lia.
Qed.

Lemma layer_is_longest_path_witness :
  NoDup (map node_id diamond_nodes)
  /\ acyclic (valid_edges diamond_nodes diamond_edges)
  /\ exists node_layers,
       assign_layers diamond_nodes diamond_edges = Ok node_layers
       /\ forall v k, v ∈ map node_id diamond_nodes -> node_layers !! v = Some k ->
            (exists u, walk (valid_edges diamond_nodes diamond_edges) (Z.to_nat k) u v
                       /\ node_layers !! u = Some 0)
            /\ forall n u, walk (valid_edges diamond_nodes diamond_edges) n u v ->
                 Z.of_nat n <= k.
Proof.
  assert (NoDup (map node_id diamond_nodes)) as H
    by (apply (bool_decide_unpack _); vm_compute; exact I).
  split; [exact H|]. split; [exact diamond_acyclic|].
  exact (layer_is_longest_path diamond_nodes diamond_edges H diamond_acyclic).
Defined.

(** X5. With unique node ids the layer map depends on the set of node ids
    and on the set of edges only: neither the order of the two lists nor a
    repeated edge changes it. *)
Theorem layers_depend_on_the_sets_only (nodes nodes' : list node)
    (edges edges' : list edge)
    (Hunique : NoDup (map node_id nodes)) (Hunique' : NoDup (map node_id nodes'))
    (Hnodes : forall i, i ∈ map node_id nodes <-> i ∈ map node_id nodes')
    (Hedges : forall e, e ∈ edges <-> e ∈ edges') :
  exists node_layers,
    assign_layers nodes edges = Ok node_layers
    /\ assign_layers nodes' edges' = Ok node_layers.
Proof.
  destruct (assign_layers_total nodes edges) as (lm & Hlm & _).
  exists lm. split; [done|].
  by rewrite <- (assign_layers_set_ext nodes nodes' edges edges').
Qed.

Lemma layers_depend_on_the_sets_only_witness :
  NoDup (map node_id (make_nodes ["A"; "B"]))
  /\ NoDup (map node_id (make_nodes ["B"; "A"]))
  /\ (forall i, i ∈ map node_id (make_nodes ["A"; "B"])
                <-> i ∈ map node_id (make_nodes ["B"; "A"]))
  /\ (forall e, e ∈ [Edge "A" "B"] <-> e ∈ [Edge "A" "B"; Edge "A" "B"])
  /\ exists node_layers,
       assign_layers (make_nodes ["A"; "B"]) [Edge "A" "B"] = Ok node_layers
       /\ assign_layers (make_nodes ["B"; "A"]) [Edge "A" "B"; Edge "A" "B"]
          = Ok node_layers.
Proof.
  assert (NoDup (map node_id (make_nodes ["A"; "B"]))) as H1
    by (apply (bool_decide_unpack _); vm_compute; exact I).
  assert (NoDup (map node_id (make_nodes ["B"; "A"]))) as H2
    by (apply (bool_decide_unpack _); vm_compute; exact I).
  assert (forall i, i ∈ map node_id (make_nodes ["A"; "B"])
                    <-> i ∈ map node_id (make_nodes ["B"; "A"])) as H3.
  { intros i. cbn. rewrite !elem_of_cons, !elem_of_nil. tauto. }
  assert (forall e, e ∈ [Edge "A" "B"] <-> e ∈ [Edge "A" "B"; Edge "A" "B"]) as H4.
  { intros e. rewrite !elem_of_cons, !elem_of_nil. tauto. }
  split; [exact H1|]. split; [exact H2|]. split; [exact H3|]. split; [exact H4|].
  exact (layers_depend_on_the_sets_only _ _ _ _ H1 H2 H3 H4).
Defined.

(** ** More on [compute_layout_positions] *)

(** *** The stages behind a result *)

Lemma edge_adjacency_spec (nodes : list node) (edges : list edge) :
  edge_adjacency nodes edges
  = (children (build_adjacency nodes edges), parents (build_adjacency nodes edges)).
Proof.
  unfold edge_adjacency, build_adjacency.
  enough (forall a,
            fold_left (fun '(children, parents) e =>
                         if decide (source e ∈ node_id_set nodes /\ target e ∈ node_id_set nodes)
                         then (<[source e := dget [] children (source e) ++ [target e]]> children,
                               <[target e := dget [] parents (target e) ++ [source e]]> parents)
                         else (children, parents))
                      edges (children a, parents a)
            = (children (fold_left (add_edge (node_id_set nodes)) edges a),
               parents (fold_left (add_edge (node_id_set nodes)) edges a))) as H
    by apply (H {| children := ∅; parents := ∅; in_degree := ∅ |}).
  induction edges as [|e edges IH]; intros a; cbn [fold_left]; [done|].
  rewrite <- IH. unfold add_edge.
  by destruct (decide (source e ∈ node_id_set nodes /\ target e ∈ node_id_set nodes)).
Qed.

Lemma compute_layout_positions_inv (h : string -> Z) (nodes : list node) (edges : list edge)
    (sp sep : Z) (iterations : nat) (positions : gmap string (Z * Z))
    (metrics node_layers : gmap string Z) :
  nodes <> [] ->
  compute_layout_positions h nodes edges sp sep iterations
  = Ok (positions, metrics, node_layers) ->
  exists nodes_by_layer max_layer_width,
    let node_orders :=
      barycenter_ordering h nodes_by_layer (children (build_adjacency nodes edges))
        (parents (build_adjacency nodes edges)) iterations in
    assign_layers nodes edges = Ok node_layers
    /\ group_by_layer nodes node_layers = Ok nodes_by_layer
    /\ ordering_stage h nodes edges iterations = Ok (node_layers, nodes_by_layer, node_orders)
    /\ place_layers nodes_by_layer node_orders sp sep = Ok (positions, max_layer_width)
    /\ metrics
       = <["crossings" := count_edge_crossings nodes_by_layer edges node_orders node_layers]>
           (<["layers" := Z.of_nat (length nodes_by_layer)]>
              (<["max_layer_width" := max_layer_width]>
                 (<["total_nodes" := Z.of_nat (length nodes)]>
                    (<["total_edges" := Z.of_nat (length edges)]> ∅)))).
Proof.
  intros Hne. unfold compute_layout_positions. destruct nodes as [|n0 nodes']; [done|].
  remember (n0 :: nodes') as nodes eqn:Hnodes. clear Hnodes Hne.
  unfold ordering_stage. rewrite edge_adjacency_spec.
  destruct (assign_layers nodes edges) as [lm| |] eqn:Hlm; cbn; [|done..].
  destruct (group_by_layer nodes lm) as [nbl| |] eqn:Hnbl; cbn; [|done..].
  destruct (place_layers nbl (barycenter_ordering h nbl
              (children (build_adjacency nodes edges))
              (parents (build_adjacency nodes edges)) iterations) sp sep)
    as [[pos w]| |] eqn:Hpl; cbn; [|done..].
  intros [= <- <- <-]. exists nbl, w. done.
Qed.

(** *** The keys of the positions map *)

Lemma place_from_dom (i : nat) (start_x sp y : Z) (l : list string)
    (pos : gmap string (Z * Z)) (n : string) :
  is_Some (place_from i start_x sp y l pos !! n) <-> n ∈ l \/ is_Some (pos !! n).
Proof.
  revert i pos. induction l as [|m l IH]; intros i pos; cbn.
  - rewrite elem_of_nil. tauto.
  - rewrite IH, elem_of_cons. destruct (decide (m = n)) as [->|Hne].
    + rewrite lookup_insert_eq. split; [intros _; by left; left | intros _; right; eauto].
    + rewrite lookup_insert_ne by done. split; [tauto|].
      intros [[?|?]|?]; [congruence | tauto..].
Qed.

Lemma mapM_result_snd {A B} (f : A -> result B) (l : list A) (r : list (B * A)) :
  mapM_result (fun a => b ← f a; Ok (b, a)) l = Ok r -> map snd r = l.
Proof.
  revert r. induction l as [|a l IH]; intros r; cbn.
  - by intros [= <-].
  - destruct (f a) as [b| |]; cbn; [|done..].
    destruct (mapM_result _ l) as [r'| |]; cbn; [|done..].
    intros [= <-]. cbn. by rewrite (IH r').
Qed.

Lemma sort_by_order_perm (o : gmap string Z) (l s : list string) :
  sort_by_order o l = Ok s -> s ≡ₚ l.
Proof.
  unfold sort_by_order.
  destruct (mapM_result _ l) as [keyed| |] eqn:Hk; cbn; [|done..].
  intros [= <-]. rewrite py_sorted_perm. by rewrite (mapM_result_snd _ _ _ Hk).
Qed.

Lemma place_layer_raise (o : gmap string Z) (sp sep : Z) (rest : list (Z * list string))
    (r : gmap string (Z * Z) * Z) (acc : result (gmap string (Z * Z) * Z)) :
  (forall a, acc <> Ok a) -> fold_left (place_layer o sp sep) rest acc <> Ok r.
Proof.
  revert acc. induction rest as [|it rest IH]; intros acc Hacc; cbn [fold_left]; [done|].
  apply IH. intros a. destruct acc as [a0| |]; [by destruct (Hacc a0) | done..].
Qed.

Lemma place_layers_inv (o : gmap string Z) (sp sep : Z) (rest : list (Z * list string))
    (pos0 pos : gmap string (Z * Z)) (w0 w : Z) :
  fold_left (place_layer o sp sep) rest (Ok (pos0, w0)) = Ok (pos, w) ->
  (forall n, is_Some (pos !! n) <-> n ∈ concat (map snd rest) \/ is_Some (pos0 !! n))
  /\ w0 <= w
  /\ (forall item, item ∈ rest -> Z.of_nat (length (snd item)) <= w)
  /\ (w = w0 \/ exists item, item ∈ rest /\ w = Z.of_nat (length (snd item))).
Proof.
  revert pos0 w0. induction rest as [|item rest IH]; intros pos0 w0; cbn [fold_left map concat].
  - intros [= <- <-]. split; [|split; [lia|split; [|by left]]].
    + intros n. rewrite elem_of_nil. tauto.
    + intros item H. by apply elem_of_nil in H.
  - destruct (sort_by_order o (snd item)) as [s| |] eqn:Hs.
    + assert (place_layer o sp sep (Ok (pos0, w0)) item
              = Ok (place_from 0 (start_x_of (length (snd item)) sp) sp (fst item * sep) s pos0,
                    Z.max w0 (Z.of_nat (length (snd item))))) as ->.
      { unfold place_layer. cbn -[sort_by_order place_from start_x_of].
        rewrite Hs. reflexivity. }
      intros Hrun. apply IH in Hrun as (Hdom & Hw0 & Hall & Hex).
      split; [|split; [lia|split]].
      * intros n. rewrite Hdom, place_from_dom, elem_of_app, (sort_by_order_perm _ _ _ Hs).
        tauto.
      * intros it Hit. apply elem_of_cons in Hit as [->|Hit]; [lia | by apply Hall].
      * destruct Hex as [Hex|(it & Hit & Hex)].
        -- destruct (Z.max_spec w0 (Z.of_nat (length (snd item)))) as [[_ Hm]|[_ Hm]].
           ++ right. exists item. split; [apply elem_of_cons; by left | lia].
           ++ left. lia.
        -- right. exists it. split; [apply elem_of_cons; by right | done].
    + intros Hrun. exfalso. revert Hrun. apply place_layer_raise.
      unfold place_layer. cbn -[sort_by_order place_from start_x_of]. rewrite Hs. done.
    + intros Hrun. exfalso. revert Hrun. apply place_layer_raise.
      unfold place_layer. cbn -[sort_by_order place_from start_x_of]. rewrite Hs. done.
Qed.

(** *** Layers and their nodes *)

Lemma od_append_nonempty {K V} `{EqDecision K} (k : K) (v : V) (d : list (K * list V)) :
  Forall (fun item => snd item <> []) d ->
  Forall (fun item => snd item <> []) (od_append k v d).
Proof.
  induction 1 as [|[k' l] d Hl Hd IH]; cbn.
  - constructor; [done | constructor].
  - destruct (decide (k' = k)); constructor; try done.
    cbn. intros H. by apply app_eq_nil in H as [_ ?].
Qed.

Lemma group_by_layer_nonempty (nodes : list node) (node_layers : gmap string Z)
    (nodes_by_layer : list (Z * list string)) :
  group_by_layer nodes node_layers = Ok nodes_by_layer ->
  Forall (fun item => snd item <> []) nodes_by_layer.
Proof.
  unfold group_by_layer.
  assert (Forall (fun item : Z * list string => snd item <> []) []) as H0 by constructor.
  revert H0. generalize (@nil (Z * list string)).
  induction nodes as [|n nodes IH]; intros d Hd; cbn [fold_left].
  - by intros [= <-].
  - unfold group_node at 2. cbn. destruct (getitem node_layers (node_id n)) as [layer| |]; cbn.
    + apply IH. by apply od_append_nonempty.
    + intros H. exfalso. clear -H. induction nodes as [|m nodes IH]; cbn in H; [done | by apply IH].
    + intros H. exfalso. clear -H. induction nodes as [|m nodes IH]; cbn in H; [done | by apply IH].
Qed.

Lemma od_get_elem {K V} `{EqDecision K} (d : list (K * list V)) (k : K) (l : list V) :
  NoDup (map fst d) -> (k, l) ∈ d -> od_get d k = l.
Proof.
  induction d as [|[k' l'] d IH]; cbn; intros Hnd Hin; [by apply elem_of_nil in Hin|].
  apply NoDup_cons in Hnd as [Hk Hnd].
  apply elem_of_cons in Hin as [[= -> ->]|Hin].
  - by rewrite decide_True.
  - rewrite decide_False; [by apply IH|]. intros ->. apply Hk.
    by apply (list_elem_of_fmap_2 fst) in Hin.
Qed.

Lemma length_concat_nonempty {A} (ls : list (list A)) :
  Forall (fun l => l <> []) ls -> (length ls <= length (concat ls))%nat.
Proof.
  induction 1 as [|l ls Hl _ IH]; cbn; [lia|].
  rewrite length_app. destruct l; [done|]. cbn. lia.
Qed.

(** The keys of [nodes_by_layer] are the layers in use; each holds the ids
    of its layer in the order of the node list. *)
Lemma group_by_layer_keys (nodes : list node) (node_layers : gmap string Z)
    (nodes_by_layer : list (Z * list string)) :
  (forall v, v ∈ map node_id nodes -> is_Some (node_layers !! v)) ->
  group_by_layer nodes node_layers = Ok nodes_by_layer ->
  NoDup (map fst nodes_by_layer)
  /\ (forall layer l, (layer, l) ∈ nodes_by_layer ->
        l <> [] /\ l = filter (fun i => node_layers !! i = Some layer) (map node_id nodes))
  /\ (forall layer, layer ∈ map fst nodes_by_layer
        <-> exists v, v ∈ map node_id nodes /\ node_layers !! v = Some layer)
  /\ concat (map snd nodes_by_layer) ≡ₚ map node_id nodes.
Proof.
  intros Hdom Hrun.
  destruct (group_by_layer_spec nodes node_layers Hdom) as (nbl & Hnbl & Hnd & Hperm & Hget).
  assert (nbl = nodes_by_layer) as -> by congruence.
  pose proof (group_by_layer_nonempty _ _ _ Hrun) as Hne. rewrite Forall_forall in Hne.
  assert (forall layer l, (layer, l) ∈ nodes_by_layer ->
            l <> [] /\ l = filter (fun i => node_layers !! i = Some layer) (map node_id nodes))
    as Hitems.
  { intros layer l Hin. split; [exact (Hne _ Hin)|].
    by rewrite <- Hget, (od_get_elem _ _ _ Hnd Hin). }
  split; [done|]. split; [done|]. split; [|done].
  intros layer. split.
  - intros Hin. apply list_elem_of_fmap in Hin as ([k l] & -> & Hin). cbn.
    destruct (Hitems k l Hin) as [Hl Heq]. destruct l as [|v l]; [done|].
    assert (v ∈ filter (fun i => node_layers !! i = Some k) (map node_id nodes)) as Hv
      by (rewrite <- Heq; apply elem_of_cons; by left).
    apply list_elem_of_filter in Hv as [? ?]. eauto.
  - intros (v & Hv & Hl).
    destruct (od_get_cases nodes_by_layer layer) as [Hnil|Hin].
    + rewrite Hget in Hnil.
      assert (v ∈ filter (fun i => node_layers !! i = Some layer) (map node_id nodes)) as Hin
        by (by apply list_elem_of_filter).
      rewrite Hnil in Hin. by apply elem_of_nil in Hin.
    + by apply (list_elem_of_fmap_2 fst) in Hin.
Qed.

Lemma NoDup_fmap_inj_on {A B} (f : A -> B) (l : list A) (x y : A) :
  NoDup (f <$> l) -> x ∈ l -> y ∈ l -> f x = f y -> x = y.
Proof.
  induction l as [|a l IH]; cbn; intros Hnd Hx Hy Hf; [by apply elem_of_nil in Hx|].
  apply NoDup_cons in Hnd as [Ha Hnd].
  apply elem_of_cons in Hx as [->|Hx]; apply elem_of_cons in Hy as [->|Hy]; [done| | |by apply IH].
  - exfalso. apply Ha. rewrite Hf. by apply list_elem_of_fmap_2.
  - exfalso. apply Ha. rewrite <- Hf. by apply list_elem_of_fmap_2.
Qed.

Lemma bijective_on_inj (o : gmap string Z) (l : list string) (n m : string) :
  bijective_on o l -> n ∈ l -> m ∈ l -> o !! n = o !! m -> n = m.
Proof.
  unfold bijective_on. intros Hb. apply (NoDup_fmap_inj_on (fun n => o !! n)). rewrite Hb.
  apply NoDup_fmap_2; [|apply NoDup_seq]. intros a b [= H]. lia.
Qed.

Lemma bijective_on_surj (o : gmap string Z) (l : list string) (i : nat) :
  bijective_on o l -> (i < length l)%nat -> exists n, n ∈ l /\ o !! n = Some (Z.of_nat i).
Proof.
  unfold bijective_on. intros Hb Hi.
  assert (Some (Z.of_nat i) ∈ (fun k => Some (Z.of_nat k)) <$> seq 0 (length l)) as Hin.
  { apply (list_elem_of_fmap_2 (fun k => Some (Z.of_nat k))). apply elem_of_seq. lia. }
  rewrite <- Hb in Hin. apply list_elem_of_fmap in Hin as (n & Heq & Hn). eauto.
Qed.

(** *** Layers, orders and positions of a graph with unique ids *)

Lemma layout_geometry (h : string -> Z) (nodes : list node) (edges : list edge)
    (sp sep : Z) (iterations : nat) :
  NoDup (map node_id nodes) ->
  exists node_layers nodes_by_layer node_orders positions metrics,
    assign_layers nodes edges = Ok node_layers
    /\ ordering_stage h nodes edges iterations
       = Ok (node_layers, nodes_by_layer, node_orders)
    /\ compute_layout_positions h nodes edges sp sep iterations
       = Ok (positions, metrics, node_layers)
    /\ (forall n, n ∈ map node_id nodes ->
          exists layer i,
            node_layers !! n = Some layer
            /\ node_orders !! n = Some (Z.of_nat i)
            /\ (i < layer_width nodes node_layers layer)%nat
            /\ positions !! n
               = Some (start_x_of (layer_width nodes node_layers layer) sp
                       + Z.of_nat i * sp, layer * sep))
    /\ (forall n m, n ∈ map node_id nodes -> m ∈ map node_id nodes ->
          node_layers !! n = node_layers !! m -> node_orders !! n = node_orders !! m ->
          n = m)
    /\ (forall layer i, (i < layer_width nodes node_layers layer)%nat ->
          exists n, n ∈ map node_id nodes /\ node_layers !! n = Some layer
                    /\ node_orders !! n = Some (Z.of_nat i)).
Proof.
  intros Hnd.
  destruct (pipeline_spec h nodes edges sp sep iterations Hnd)
    as (lm & nbl & orders & pos & met & Hlm & Hstage & Hrun & _ & Hdom & Hu & Hinv & Hget
        & Hpos).
  exists lm, nbl, orders, pos, met. split; [done|]. split; [done|]. split; [done|].
  assert (forall n layer, n ∈ map node_id nodes -> lm !! n = Some layer ->
            (layer, od_get nbl layer) ∈ nbl /\ n ∈ od_get nbl layer) as Hitem.
  { intros n layer Hn Hl.
    assert (n ∈ od_get nbl layer) as Hin by (rewrite Hget; by apply list_elem_of_filter).
    destruct (od_get_cases nbl layer) as [Hnil|Hitem]; [|done].
    rewrite Hnil in Hin. by apply elem_of_nil in Hin. }
  unfold order_invariant in Hinv. rewrite Forall_forall in Hinv.
  unfold layer_width. split; [|split].
  - intros n Hn. destruct (Hdom n Hn) as [layer Hlayer]. exists layer.
    destruct (Hitem n layer Hn Hlayer) as [Hit Hin].
    destruct (Hpos layer _ n Hit Hin) as (i & Hi & Ho & Hp).
    rewrite Hget in Hi, Hp. exists i. done.
  - intros n m Hn Hm Hl Ho. destruct (Hdom n Hn) as [layer Hlayer].
    destruct (Hitem n layer Hn Hlayer) as [Hit Hin].
    destruct (Hitem m layer Hm) as [_ Hin']; [congruence|].
    exact (bijective_on_inj orders _ n m (Hinv _ Hit) Hin Hin' Ho).
  - intros layer i Hi. rewrite <- Hget in Hi.
    destruct (od_get_cases nbl layer) as [Hnil|Hit].
    { rewrite Hnil in Hi. cbn in Hi. lia. }
    destruct (bijective_on_surj orders _ i (Hinv _ Hit) Hi) as (n & Hn & Ho).
    cbn in Hn. rewrite Hget in Hn. apply list_elem_of_filter in Hn as [? ?].
    exists n. done.
Qed.

Lemma compute_layout_positions_intro (h : string -> Z) (nodes : list node)
    (edges : list edge) (sp sep : Z) (iterations : nat)
    (node_layers : gmap string Z) (nodes_by_layer : list (Z * list string))
    (positions : gmap string (Z * Z)) (max_layer_width : Z) :
  nodes <> [] ->
  assign_layers nodes edges = Ok node_layers ->
  group_by_layer nodes node_layers = Ok nodes_by_layer ->
  place_layers nodes_by_layer
    (barycenter_ordering h nodes_by_layer (children (build_adjacency nodes edges))
       (parents (build_adjacency nodes edges)) iterations) sp sep
  = Ok (positions, max_layer_width) ->
  compute_layout_positions h nodes edges sp sep iterations
  = Ok (positions,
        <["crossings" :=
            count_edge_crossings nodes_by_layer edges
              (barycenter_ordering h nodes_by_layer (children (build_adjacency nodes edges))
                 (parents (build_adjacency nodes edges)) iterations) node_layers]>
          (<["layers" := Z.of_nat (length nodes_by_layer)]>
             (<["max_layer_width" := max_layer_width]>
                (<["total_nodes" := Z.of_nat (length nodes)]>
                   (<["total_edges" := Z.of_nat (length edges)]> ∅)))),
        node_layers).
Proof.
  intros Hne Hlm Hnbl Hpl. unfold compute_layout_positions.
  destruct nodes as [|n0 nodes']; [done|].
  remember (n0 :: nodes') as nodes eqn:Hnodes. clear Hnodes Hne.
  unfold ordering_stage. rewrite edge_adjacency_spec, Hlm. cbn. rewrite Hnbl. cbn.
  rewrite Hpl. reflexivity.
Qed.

(** *** The metrics *)

Lemma layers_in_use (nodes : list node) (edges : list edge) (node_layers : gmap string Z)
    (nodes_by_layer : list (Z * list string)) :
  NoDup (map node_id nodes) -> nodes <> [] ->
  assign_layers nodes edges = Ok node_layers ->
  group_by_layer nodes node_layers = Ok nodes_by_layer ->
  (1 <= length nodes_by_layer <= length nodes)%nat
  /\ forall layer,
       (exists v, v ∈ map node_id nodes /\ node_layers !! v = Some layer)
       <-> 0 <= layer < Z.of_nat (length nodes_by_layer).
Proof.
  intros Hnd Hne Hlm Hnbl.
  destruct (assign_layers_keys nodes edges) as (lm & Hlm' & Hdom & Hpos).
  assert (lm = node_layers) as -> by congruence.
  destruct (group_by_layer_keys nodes node_layers nodes_by_layer) as (Hk & Hitems & Hkeys & Hperm);
    [intros v Hv; by apply Hdom | done |].
  set (K := map fst nodes_by_layer) in *.
  assert (forall k, k ∈ K -> 0 <= k) as Hk0.
  { intros k Hin. apply Hkeys in Hin as (v & _ & Hv). by eapply Hpos. }
  assert (forall k j, k ∈ K -> 0 <= j <= k -> j ∈ K) as Hdown.
  { intros k j Hin Hj. apply Hkeys in Hin as (v & Hv & Hl).
    apply Hkeys. by eapply (layers_no_gap nodes edges node_layers v k j). }
  assert (max_list K ∈ K) as HM.
  { destruct (max_list_cases K) as [H0|H]; [|done].
    destruct nodes as [|n0 nodes']; [done|].
    destruct (Hdom (node_id n0)) as [_ [k Hk']]; [apply elem_of_cons; by left|].
    assert (k ∈ K) as Hin.
    { apply Hkeys. exists (node_id n0). split; [apply elem_of_cons; by left | done]. }
    rewrite H0. apply (Hdown k 0 Hin). split; [lia | by apply Hk0]. }
  assert (K ≡ₚ Z.of_nat <$> seq 0 (S (Z.to_nat (max_list K)))) as HKperm.
  { apply NoDup_Permutation; [done | |].
    - apply NoDup_fmap_2; [intros a b; lia | apply NoDup_seq].
    - intros k. rewrite list_elem_of_fmap. split.
      + intros Hin. exists (Z.to_nat k). pose proof (Hk0 k Hin).
        pose proof (max_list_ub K k Hin). split; [lia|]. apply elem_of_seq. lia.
      + intros (i & -> & Hi). apply elem_of_seq in Hi.
        apply (Hdown _ _ HM). pose proof (max_list_nonneg K). lia. }
  assert (length nodes_by_layer = S (Z.to_nat (max_list K))) as Hlen.
  { rewrite <- (length_map fst nodes_by_layer). fold K.
    rewrite (Permutation_length HKperm), length_fmap, length_seq. done. }
  split.
  - split; [lia|].
    rewrite <- (length_map node_id nodes), <- (Permutation_length Hperm).
    rewrite <- (length_map snd nodes_by_layer). apply length_concat_nonempty.
    apply Forall_forall. intros l Hl. apply list_elem_of_fmap in Hl as ([k l'] & -> & Hin).
    by destruct (Hitems k l' Hin).
  - intros layer. rewrite <- Hkeys, HKperm, list_elem_of_fmap, Hlen. split.
    + intros (i & -> & Hi). apply elem_of_seq in Hi. lia.
    + intros Hl. exists (Z.to_nat layer). split; [lia|]. apply elem_of_seq. lia.
Qed.

Lemma layout_metrics (h : string -> Z) (nodes : list node) (edges : list edge)
    (sp sep : Z) (iterations : nat) :
  NoDup (map node_id nodes) -> nodes <> [] ->
  exists positions metrics node_layers layer_count width,
    compute_layout_positions h nodes edges sp sep iterations
    = Ok (positions, metrics, node_layers)
    /\ metrics !! "total_nodes" = Some (Z.of_nat (length nodes))
    /\ metrics !! "total_edges" = Some (Z.of_nat (length edges))
    /\ metrics !! "layers" = Some (Z.of_nat layer_count)
    /\ metrics !! "max_layer_width" = Some (Z.of_nat width)
    /\ (1 <= layer_count <= length nodes)%nat
    /\ (forall layer,
          (exists v, v ∈ map node_id nodes /\ node_layers !! v = Some layer)
          <-> 0 <= layer < Z.of_nat layer_count)
    /\ (forall layer, (layer_width nodes node_layers layer <= width)%nat)
    /\ (exists layer, layer_width nodes node_layers layer = width)
    /\ (1 <= width <= length nodes)%nat.
Proof.
  intros Hnd Hne.
  destruct (compute_layout_positions_total h nodes edges sp sep iterations)
    as [[[pos met] lm] Hrun].
  destruct (compute_layout_positions_inv h nodes edges sp sep iterations pos met lm Hne Hrun)
    as (nbl & w & Hlm & Hnbl & _ & Hpl & Hmet).
  destruct (layers_in_use nodes edges lm nbl Hnd Hne Hlm Hnbl) as [Hcount Huse].
  destruct (assign_layers_keys nodes edges) as (lm' & Hlm' & Hdom & _).
  assert (lm' = lm) as -> by congruence.
  destruct (group_by_layer_keys nodes lm nbl) as (Hk & Hitems & Hkeys & Hperm);
    [intros v Hv; by apply Hdom | done |].
  unfold place_layers in Hpl. apply place_layers_inv in Hpl as (_ & Hw0 & Hall & Hex).
  assert (forall layer, Z.of_nat (layer_width nodes lm layer) <= w) as Hwidth.
  { intros layer. unfold layer_width.
    destruct (od_get_cases nbl layer) as [Hnil|Hin].
    - destruct (group_by_layer_spec nodes lm) as (nbl' & Hnbl' & _ & _ & Hget);
        [intros v Hv; by apply Hdom|].
      assert (nbl' = nbl) as -> by congruence. rewrite <- Hget, Hnil. cbn. lia.
    - destruct (Hitems _ _ Hin) as [_ Heq]. rewrite <- Heq. exact (Hall _ Hin). }
  assert (exists layer, Z.of_nat (layer_width nodes lm layer) = w /\ 1 <= w) as [layer [Hw Hw1]].
  { destruct Hex as [->|([k l] & Hin & ->)].
    - destruct nbl as [|[k l] nbl'] eqn:E; [cbn in Hcount; lia|].
      assert ((k, l) ∈ (k, l) :: nbl') as Hin by (apply elem_of_cons; by left).
      pose proof (Hall _ Hin) as Hle. destruct (Hitems _ _ Hin) as [Hl _].
      destruct l; [done|]. cbn in Hle. lia.
    - destruct (Hitems _ _ Hin) as [Hl Heq]. exists k. cbn. unfold layer_width.
      rewrite <- Heq. split; [done|]. destruct l; [done|]. cbn. lia. }
  exists pos, met, lm, (length nbl), (Z.to_nat w).
  split; [done|]. rewrite Hmet.
  split; [by rewrite !lookup_insert_ne by done; rewrite lookup_insert_eq|].
  split; [by rewrite !lookup_insert_ne by done; rewrite lookup_insert_eq|].
  split; [by rewrite !lookup_insert_ne by done; rewrite lookup_insert_eq|].
  split; [rewrite !lookup_insert_ne by done; rewrite lookup_insert_eq; f_equal; lia|].
  split; [done|]. split; [done|]. split; [intros l; specialize (Hwidth l); lia|].
  split; [exists layer; lia|].
  split; [lia|]. rewrite <- Hw. unfold layer_width.
  rewrite <- (length_map node_id nodes).
  pose proof (length_filter (fun m => lm !! m = Some layer) (map node_id nodes)). lia.
Qed.

(** *** Keys of the results, for every input *)

Lemma layout_keys (h : string -> Z) (nodes : list node) (edges : list edge)
    (sp sep : Z) (iterations : nat) :
  exists positions metrics node_layers,
    compute_layout_positions h nodes edges sp sep iterations
    = Ok (positions, metrics, node_layers)
    /\ assign_layers nodes edges = Ok node_layers
    /\ (forall n, is_Some (positions !! n) <-> n ∈ map node_id nodes)
    /\ (forall n, is_Some (node_layers !! n) <-> n ∈ map node_id nodes).
Proof.
  destruct (decide (nodes = [])) as [->|Hne].
  { exists ∅. eexists. exists ∅. split; [reflexivity|]. split; [reflexivity|].
    split; intros n; rewrite lookup_empty, elem_of_nil; split; try done; by intros []. }
  destruct (compute_layout_positions_total h nodes edges sp sep iterations)
    as [[[pos met] lm] Hrun].
  destruct (compute_layout_positions_inv h nodes edges sp sep iterations pos met lm Hne Hrun)
    as (nbl & w & Hlm & Hnbl & _ & Hpl & _).
  destruct (assign_layers_keys nodes edges) as (lm' & Hlm' & Hdom & _).
  assert (lm' = lm) as -> by congruence.
  destruct (group_by_layer_keys nodes lm nbl) as (_ & _ & _ & Hperm);
    [intros v Hv; by apply Hdom | done |].
  unfold place_layers in Hpl. apply place_layers_inv in Hpl as (Hpos & _).
  exists pos, met, lm. split; [done|]. split; [done|]. split; [|done].
  intros n. rewrite Hpos, Hperm, lookup_empty. split; [|tauto].
  intros [?|[? ?]]; done.
Qed.

(** *** Edges that name an unknown node *)

Lemma bucket_edges_valid (nodes : list node) (edges : list edge)
    (node_layers : gmap string Z) :
  (forall n, is_Some (node_layers !! n) -> n ∈ map node_id nodes) ->
  bucket_edges (valid_edges nodes edges) node_layers = bucket_edges edges node_layers.
Proof.
  intros Hdom. unfold bucket_edges, valid_edges.
  generalize (@nil (Z * Z * list (string * string))).
  induction edges as [|e edges IH]; intros d; [done|].
  rewrite filter_cons. cbn [fold_left].
  destruct (decide (source e ∈ node_id_set nodes /\ target e ∈ node_id_set nodes)) as [H|H].
  - cbn [fold_left]. apply IH.
  - rewrite IH. f_equal.
    destruct (node_layers !! source e) as [ls|] eqn:Hs; [|done].
    destruct (node_layers !! target e) as [lt|] eqn:Ht; [|done].
    exfalso. apply H. rewrite !elem_of_node_id_set. split; apply Hdom; eauto.
Qed.

Lemma layout_valid_edges (h : string -> Z) (nodes : list node) (edges : list edge)
    (sp sep : Z) (iterations : nat) :
  exists positions metrics metrics' node_layers,
    compute_layout_positions h nodes edges sp sep iterations
    = Ok (positions, metrics, node_layers)
    /\ compute_layout_positions h nodes (valid_edges nodes edges) sp sep iterations
       = Ok (positions, metrics', node_layers)
    /\ forall k, k <> "total_edges" -> metrics' !! k = metrics !! k.
Proof.
  destruct (decide (nodes = [])) as [->|Hne].
  { exists ∅. eexists. eexists. exists ∅. split; [reflexivity|]. split; [reflexivity|]. done. }
  destruct (compute_layout_positions_total h nodes edges sp sep iterations)
    as [[[pos met] lm] Hrun].
  destruct (compute_layout_positions_inv h nodes edges sp sep iterations pos met lm Hne Hrun)
    as (nbl & w & Hlm & Hnbl & _ & Hpl & Hmet).
  destruct (assign_layers_keys nodes edges) as (lm' & Hlm' & Hdom & _).
  assert (lm' = lm) as -> by congruence.
  exists pos, met. eexists. exists lm. split; [done|]. split.
  - apply compute_layout_positions_intro; [done | | done |].
    + by rewrite assign_layers_valid_edges.
    + rewrite build_adjacency_valid. exact Hpl.
  - intros k Hk. rewrite Hmet, build_adjacency_valid.
    unfold count_edge_crossings. rewrite (bucket_edges_valid nodes edges lm).
    2:{ intros n. apply Hdom. }
    rewrite !lookup_insert. repeat (destruct (decide _) as [|]; [done|]; try done).
Qed.

(** *** Results on [compute_layout_positions] *)

(** X6. Whatever the input, [compute_layout_positions] returns; its layer
    map is the one of [assign_layers]; and both the positions and the layer
    map have exactly the node ids as keys. *)
Theorem layout_keyed_by_node_ids (h : string -> Z) (nodes : list node) (edges : list edge)
    (node_spacing layer_separation : Z) (iterations : nat) :
  exists positions metrics node_layers,
    compute_layout_positions h nodes edges node_spacing layer_separation iterations
    = Ok (positions, metrics, node_layers)
    /\ assign_layers nodes edges = Ok node_layers
    /\ (forall n, is_Some (positions !! n) <-> n ∈ map node_id nodes)
    /\ (forall n, is_Some (node_layers !! n) <-> n ∈ map node_id nodes).
Proof. apply layout_keys. Qed.

(** X7. For a non-empty graph with unique node ids the metrics describe
    the layout: [total_nodes] and [total_edges] are the lengths of the two
    lists (edges to unknown nodes included); [layers] is the number of
    layers in use, which are [0 .. layers-1] without a gap; and
    [max_layer_width] is the size of the largest layer.  Both lie between 1
    and the number of nodes. *)
Theorem metrics_describe_the_layout (h : string -> Z) (nodes : list node)
    (edges : list edge) (node_spacing layer_separation : Z) (iterations : nat)
    (Hunique : NoDup (map node_id nodes)) (Hnonempty : nodes <> []) :
  exists positions metrics node_layers layer_count width,
    compute_layout_positions h nodes edges node_spacing layer_separation iterations
    = Ok (positions, metrics, node_layers)
    /\ metrics !! "total_nodes" = Some (Z.of_nat (length nodes))
    /\ metrics !! "total_edges" = Some (Z.of_nat (length edges))
    /\ metrics !! "layers" = Some (Z.of_nat layer_count)
    /\ metrics !! "max_layer_width" = Some (Z.of_nat width)
    /\ (1 <= layer_count <= length nodes)%nat
    /\ (forall layer,
          (exists v, v ∈ map node_id nodes /\ node_layers !! v = Some layer)
          <-> 0 <= layer < Z.of_nat layer_count)
    /\ (forall layer, (layer_width nodes node_layers layer <= width)%nat)
    /\ (exists layer, layer_width nodes node_layers layer = width)
    /\ (1 <= width <= length nodes)%nat.
Proof. by apply layout_metrics. Qed.

Lemma metrics_describe_the_layout_witness :
  NoDup (map node_id diamond_nodes) /\ diamond_nodes <> []
  /\ exists positions metrics node_layers layer_count width,
       compute_layout_positions (fun _ => 0) diamond_nodes diamond_edges 250 200 8
       = Ok (positions, metrics, node_layers)
       /\ metrics !! "total_nodes" = Some (Z.of_nat (length diamond_nodes))
       /\ metrics !! "total_edges" = Some (Z.of_nat (length diamond_edges))
       /\ metrics !! "layers" = Some (Z.of_nat layer_count)
       /\ metrics !! "max_layer_width" = Some (Z.of_nat width)
       /\ (1 <= layer_count <= length diamond_nodes)%nat
       /\ (forall layer,
             (exists v, v ∈ map node_id diamond_nodes /\ node_layers !! v = Some layer)
             <-> 0 <= layer < Z.of_nat layer_count)
       /\ (forall layer, (layer_width diamond_nodes node_layers layer <= width)%nat)
       /\ (exists layer, layer_width diamond_nodes node_layers layer = width)
       /\ (1 <= width <= length diamond_nodes)%nat.
Proof.
  assert (NoDup (map node_id diamond_nodes)) as H
    by (apply (bool_decide_unpack _); vm_compute; exact I).
  assert (diamond_nodes <> []) as Hne by (vm_compute; discriminate).
  split; [exact H|]. split; [exact Hne|].
  exact (metrics_describe_the_layout (fun _ => 0) diamond_nodes diamond_edges 250 200 8
           H Hne).
Defined.

(** X8. With unique node ids, distinct nodes never share a position when
    neither the spacing nor the layer separation is zero. *)
Theorem nodes_never_overlap (h : string -> Z) (nodes : list node) (edges : list edge)
    (node_spacing layer_separation : Z) (iterations : nat)
    (Hunique : NoDup (map node_id nodes))
    (Hspacing : node_spacing <> 0) (Hseparation : layer_separation <> 0) :
  exists positions metrics node_layers,
    compute_layout_positions h nodes edges node_spacing layer_separation iterations
    = Ok (positions, metrics, node_layers)
    /\ forall n m, n ∈ map node_id nodes -> m ∈ map node_id nodes -> n <> m ->
         exists p q, positions !! n = Some p /\ positions !! m = Some q /\ p <> q.
Proof.
  destruct (layout_geometry h nodes edges node_spacing layer_separation iterations Hunique)
    as (lm & nbl & orders & pos & met & _ & _ & Hrun & Hpos & Hinj & _).
  exists pos, met, lm. split; [done|]. intros n m Hn Hm Hne.
  destruct (Hpos n Hn) as (ln & i & Hln & Hon & _ & Hpn).
  destruct (Hpos m Hm) as (lm' & j & Hlm & Hom & _ & Hpm).
  eexists _, _. split; [done|]. split; [done|]. intros [= Hx Hy].
  apply Hne, Hinj; try done.
  - rewrite Hln, Hlm. f_equal. nia.
  - assert (ln = lm') as -> by nia. rewrite Hon, Hom. do 2 f_equal.
    assert (Z.of_nat i * node_spacing = Z.of_nat j * node_spacing) by lia. nia.
Qed.


Lemma nodes_never_overlap_witness :
  NoDup (map node_id diamond_nodes) /\ 250 <> 0 /\ 200 <> 0
  /\ exists positions metrics node_layers,
       compute_layout_positions (fun _ => 0) diamond_nodes diamond_edges 250 200 8
       = Ok (positions, metrics, node_layers)
       /\ forall n m, n ∈ map node_id diamond_nodes -> m ∈ map node_id diamond_nodes ->
            n <> m ->
            exists p q, positions !! n = Some p /\ positions !! m = Some q /\ p <> q.
Proof.
  assert (NoDup (map node_id diamond_nodes)) as H
    by (apply (bool_decide_unpack _); vm_compute; exact I).
  assert (250 <> 0) as Hsp by lia. assert (200 <> 0) as Hsep by lia.
  split; [exact H|]. split; [exact Hsp|]. split; [exact Hsep|].
  exact (nodes_never_overlap (fun _ => 0) diamond_nodes diamond_edges 250 200 8 H Hsp Hsep).
Defined.
(** X9. With unique node ids, the nodes of a layer share their [y], lie
    [node_spacing] apart in the order of their order indices, and are
    centred on [x = 0]: two nodes at mirrored indices have [x] coordinates
    that add up to 0 or to -1 (the floor division [-total_width // 2] rounds
    an odd total width down). *)
Theorem rows_evenly_spaced_and_centred (h : string -> Z) (nodes : list node)
    (edges : list edge) (node_spacing layer_separation : Z) (iterations : nat)
    (Hunique : NoDup (map node_id nodes)) :
  exists node_layers nodes_by_layer node_orders positions metrics,
    ordering_stage h nodes edges iterations
    = Ok (node_layers, nodes_by_layer, node_orders)
    /\ compute_layout_positions h nodes edges node_spacing layer_separation iterations
       = Ok (positions, metrics, node_layers)
    /\ forall a b layer, a ∈ map node_id nodes -> b ∈ map node_id nodes ->
         node_layers !! a = Some layer -> node_layers !! b = Some layer ->
         exists oa ob xa xb,
           node_orders !! a = Some oa /\ node_orders !! b = Some ob
           /\ positions !! a = Some (xa, layer * layer_separation)
           /\ positions !! b = Some (xb, layer * layer_separation)
           /\ xb - xa = (ob - oa) * node_spacing
           /\ (oa + ob = Z.of_nat (layer_width nodes node_layers layer) - 1 ->
               -1 <= xa + xb <= 0).
Proof.
  destruct (layout_geometry h nodes edges node_spacing layer_separation iterations Hunique)
    as (lm & nbl & orders & pos & met & _ & Hstage & Hrun & Hpos & _ & _).
  exists lm, nbl, orders, pos, met. split; [done|]. split; [done|].
  intros a b layer Ha Hb Hla Hlb.
  destruct (Hpos a Ha) as (la & i & Hla' & Hoa & Hi & Hpa).
  destruct (Hpos b Hb) as (lb & j & Hlb' & Hob & Hj & Hpb).
  assert (la = layer) as -> by congruence. assert (lb = layer) as -> by congruence.
  eexists _, _, _, _. split; [done|]. split; [done|]. split; [done|]. split; [done|].
  split; [lia|]. intros Hsum. unfold start_x_of.
  remember (layer_width nodes lm layer) as c eqn:Hc. clear Hc.
  destruct (Nat.ltb_spec 1 c) as [Hlt|Hge].
  - remember ((Z.of_nat c - 1) * node_spacing) as w eqn:Hw.
    assert (Z.of_nat i * node_spacing + Z.of_nat j * node_spacing = w) as Hrow by lia.
    pose proof (Z.div_mod (- w) 2 ltac:(lia)) as Hdiv.
    pose proof (Z.mod_pos_bound (- w) 2 ltac:(lia)) as Hmod. lia.
  - assert (i = 0%nat) as -> by lia. assert (j = 0%nat) as -> by lia. lia.
Qed.

Lemma rows_evenly_spaced_and_centred_witness :
  NoDup (map node_id diamond_nodes)
  /\ exists node_layers nodes_by_layer node_orders positions metrics,
       ordering_stage (fun _ => 0) diamond_nodes diamond_edges 8
       = Ok (node_layers, nodes_by_layer, node_orders)
       /\ compute_layout_positions (fun _ => 0) diamond_nodes diamond_edges 251 200 8
          = Ok (positions, metrics, node_layers)
       /\ forall a b layer, a ∈ map node_id diamond_nodes -> b ∈ map node_id diamond_nodes ->
            node_layers !! a = Some layer -> node_layers !! b = Some layer ->
            exists oa ob xa xb,
              node_orders !! a = Some oa /\ node_orders !! b = Some ob
              /\ positions !! a = Some (xa, layer * 200)
              /\ positions !! b = Some (xb, layer * 200)
              /\ xb - xa = (ob - oa) * 251
              /\ (oa + ob = Z.of_nat (layer_width diamond_nodes node_layers layer) - 1 ->
                  -1 <= xa + xb <= 0).
Proof.
  assert (NoDup (map node_id diamond_nodes)) as H
    by (apply (bool_decide_unpack _); vm_compute; exact I).
  split; [exact H|].
  exact (rows_evenly_spaced_and_centred (fun _ => 0) diamond_nodes diamond_edges 251 200 8 H).
Defined.

(** X10. With unique node ids and a positive layer separation, every edge
    from a resolved node points down: its target lies at least one layer
    separation below its source. *)
Theorem edges_point_down (h : string -> Z) (nodes : list node) (edges : list edge)
    (node_spacing layer_separation : Z) (iterations : nat)
    (Hunique : NoDup (map node_id nodes)) (Hseparation : 0 < layer_separation) :
  exists positions metrics node_layers,
    compute_layout_positions h nodes edges node_spacing layer_separation iterations
    = Ok (positions, metrics, node_layers)
    /\ forall e, e ∈ edges ->
         source e ∈ map node_id nodes -> target e ∈ map node_id nodes ->
         resolved (valid_edges nodes edges) (source e) ->
         exists xs ys xt yt,
           positions !! source e = Some (xs, ys)
           /\ positions !! target e = Some (xt, yt)
           /\ ys + layer_separation <= yt.
Proof.
  destruct (layout_geometry h nodes edges node_spacing layer_separation iterations Hunique)
    as (lm & nbl & orders & pos & met & Hlm & _ & Hrun & Hpos & _ & _).
  exists pos, met, lm. split; [done|]. intros e He Hs Ht Hres.
  destruct (Hpos _ Hs) as (ls & i & Hls & _ & _ & Hps).
  destruct (Hpos _ Ht) as (lt & j & Hlt & _ & _ & Hpt).
  destruct (assign_layers_recurrence_of nodes edges lm Hunique Hlm _ _ Ht Hlt)
    as (_ & Hpar & _).
  destruct (Hpar e) as (ls' & Hls' & Hlt'); [by apply elem_of_valid_edges | done | done |].
  assert (ls' = ls) as -> by congruence.
  eexists _, _, _, _. split; [done|]. split; [done|]. nia.
Qed.


Lemma edges_point_down_witness :
  NoDup (map node_id diamond_nodes) /\ 0 < 200
  /\ exists positions metrics node_layers,
       compute_layout_positions (fun _ => 0) diamond_nodes diamond_edges 250 200 8
       = Ok (positions, metrics, node_layers)
       /\ forall e, e ∈ diamond_edges ->
            source e ∈ map node_id diamond_nodes -> target e ∈ map node_id diamond_nodes ->
            resolved (valid_edges diamond_nodes diamond_edges) (source e) ->
            exists xs ys xt yt,
              positions !! source e = Some (xs, ys)
              /\ positions !! target e = Some (xt, yt)
              /\ ys + 200 <= yt.
Proof.
  assert (NoDup (map node_id diamond_nodes)) as H
    by (apply (bool_decide_unpack _); vm_compute; exact I).
  assert (0 < 200) as Hsep by lia.
  split; [exact H|]. split; [exact Hsep|].
  exact (edges_point_down (fun _ => 0) diamond_nodes diamond_edges 250 200 8 H Hsep).
Defined.
(** X11. A graph of one node is drawn at the origin, in layer 0, whatever
    its edges, the spacing and the number of iterations. *)
Theorem single_node_at_origin (h : string -> Z) (n : node) (edges : list edge)
    (node_spacing layer_separation : Z) (iterations : nat) :
  exists metrics,
    compute_layout_positions h [n] edges node_spacing layer_separation iterations
    = Ok ({[node_id n := (0, 0)]}, metrics, {[node_id n := 0]}).
Proof.
  assert (NoDup (map node_id [n])) as Hnd by (repeat constructor; apply not_elem_of_nil).
  destruct (layout_geometry h [n] edges node_spacing layer_separation iterations Hnd)
    as (lm & nbl & orders & pos & met & Hlm & _ & Hrun & Hpos & _ & _).
  destruct (layout_keys h [n] edges node_spacing layer_separation iterations)
    as (pos' & met' & lm' & Hrun' & _ & Hkp & Hkl).
  assert (pos' = pos /\ lm' = lm) as [-> ->] by (split; congruence).
  assert (node_id n ∈ map node_id [n]) as Hn by (apply elem_of_cons; by left).
  destruct (Hpos _ Hn) as (layer & i & Hl & _ & Hi & Hp).
  assert (layer = 0) as ->.
  { destruct (assign_layers_recurrence_of [n] edges lm Hnd Hlm _ _ Hn Hl)
      as (_ & _ & [H0|(e & He & Ht & _ & Hs)]); [done|].
    apply valid_edges_source in He. cbn in He.
    apply list_elem_of_singleton in He. rewrite He in Hs. rewrite Hl in Hs.
    injection Hs as Hs. lia. }
  assert (layer_width [n] lm 0 = 1%nat) as Hw.
  { unfold layer_width. cbn [map]. rewrite filter_cons, decide_True by done. done. }
  rewrite Hw in Hi, Hp. assert (i = 0%nat) as -> by lia.
  exists met. rewrite Hrun. f_equal. f_equal; [f_equal|].
  - apply map_eq. intros v. destruct (decide (v = node_id n)) as [->|Hne].
    + rewrite Hp, lookup_singleton_eq. cbn. do 2 f_equal; lia.
    + rewrite lookup_singleton_ne by done. apply eq_None_not_Some. rewrite Hkp. cbn.
      intros H. apply list_elem_of_singleton in H. done.
  - apply map_eq. intros v. destruct (decide (v = node_id n)) as [->|Hne].
    + by rewrite Hl, lookup_singleton_eq.
    + rewrite lookup_singleton_ne by done. apply eq_None_not_Some. rewrite Hkl. cbn.
      intros H. apply list_elem_of_singleton in H. done.
Qed.

(** X12. An edge with an endpoint that is no node id changes nothing but
    the [total_edges] metric: positions, layers and every other metric,
    the crossing count among them, are those of the graph without such
    edges. *)
Theorem unknown_endpoints_change_total_edges_only (h : string -> Z) (nodes : list node)
    (edges : list edge) (node_spacing layer_separation : Z) (iterations : nat) :
  exists positions metrics metrics' node_layers,
    compute_layout_positions h nodes edges node_spacing layer_separation iterations
    = Ok (positions, metrics, node_layers)
    /\ compute_layout_positions h nodes (valid_edges nodes edges) node_spacing
         layer_separation iterations
       = Ok (positions, metrics', node_layers)
    /\ forall k, k <> "total_edges" -> metrics' !! k = metrics !! k.
Proof. apply layout_valid_edges. Qed.

(** ** More on [count_edge_crossings] *)

Lemma length_filter_cons {A} (P : A -> Prop) `{forall a, Decision (P a)} (x : A) (l : list A) :
  length (filter P (x :: l)) = ((if decide (P x) then 1 else 0) + length (filter P l))%nat.
Proof. rewrite filter_cons. by destruct (decide (P x)). Qed.

Lemma length_filter_snoc {A} (P : A -> Prop) `{forall a, Decision (P a)} (x : A) (l : list A) :
  length (filter P (l ++ [x])) = (length (filter P l) + (if decide (P x) then 1 else 0))%nat.
Proof.
  rewrite filter_app, length_app, (filter_cons P x []), filter_nil.
  by destruct (decide (P x)).
Qed.

Lemma count_pairs_snoc (o : gmap string Z) (l : list (string * string)) (x : string * string) :
  count_pairs o (l ++ [x])
  = count_pairs o l + Z.of_nat (length (filter (fun y => edges_cross o y x = true) l)).
Proof.
  induction l as [|y l IH]; cbn [app count_pairs].
  - rewrite filter_nil. cbn. lia.
  - rewrite IH, length_filter_snoc, length_filter_cons.
    destruct (decide (edges_cross o y x = true)); lia.
Qed.

Lemma sum_buckets_shift {K} (o : gmap string Z) (d : list (K * list (string * string)))
    (c : Z) :
  fold_left (fun crossing_count bucket => crossing_count + count_pairs o (snd bucket)) d c
  = c + fold_left (fun crossing_count bucket => crossing_count + count_pairs o (snd bucket))
          d 0.
Proof.
  revert c. induction d as [|b d IH]; intros c; cbn [fold_left]; [lia|].
  rewrite IH, (IH (0 + _)). lia.
Qed.

Lemma sum_buckets_append {K} `{EqDecision K} (o : gmap string Z)
    (d : list (K * list (string * string))) (k : K) (x : string * string) :
  fold_left (fun crossing_count bucket => crossing_count + count_pairs o (snd bucket))
            (od_append k x d) 0
  = fold_left (fun crossing_count bucket => crossing_count + count_pairs o (snd bucket)) d 0
    + Z.of_nat (length (filter (fun y => edges_cross o y x = true) (od_get d k))).
Proof.
  induction d as [|[k' l] d IH]; cbn [od_append od_get fold_left].
  - cbn. rewrite ?filter_nil. cbn. lia.
  - destruct (decide (k' = k)) as [->|Hne]; cbn [fold_left snd].
    + rewrite sum_buckets_shift, (sum_buckets_shift o d (0 + _)), count_pairs_snoc. lia.
    + rewrite sum_buckets_shift, (sum_buckets_shift o d (0 + _)), IH. lia.
Qed.

Lemma bucket_edges_snoc (edges : list edge) (e : edge) (node_layers : gmap string Z) :
  bucket_edges (edges ++ [e]) node_layers
  = match spanned_layers node_layers e with
    | Some p => od_append p (source e, target e) (bucket_edges edges node_layers)
    | None => bucket_edges edges node_layers
    end.
Proof.
  unfold bucket_edges, spanned_layers. rewrite fold_left_app. cbn [fold_left].
  destruct (node_layers !! source e); [|done].
  destruct (node_layers !! target e); [|done].
  by destruct (_ <? _).
Qed.

Lemma bucket_edges_get (edges : list edge) (node_layers : gmap string Z) (p : Z * Z) :
  od_get (bucket_edges edges node_layers) p
  = map (fun e => (source e, target e))
        (filter (fun e => spanned_layers node_layers e = Some p) edges).
Proof.
  induction edges as [|e edges IH] using rev_ind; [done|].
  rewrite bucket_edges_snoc, filter_app, map_app, (filter_cons _ e []), filter_nil.
  destruct (spanned_layers node_layers e) as [q|] eqn:Hq.
  - rewrite od_get_append. destruct (decide (q = p)) as [->|Hne].
    + rewrite decide_True by done. by rewrite IH.
    + rewrite decide_False by congruence. by rewrite IH, app_nil_r.
  - rewrite decide_False by done. by rewrite IH, app_nil_r.
Qed.

Lemma crossing_pairs_snoc (o lm : gmap string Z) (edges : list edge) (e : edge) :
  crossing_pairs o lm (edges ++ [e])
  = crossing_pairs o lm edges
    + Z.of_nat (length (filter (fun e' => crossing_pair o lm e' e = true) edges)).
Proof.
  induction edges as [|y l IH]; cbn [app crossing_pairs].
  - rewrite filter_nil. cbn. lia.
  - rewrite IH, length_filter_snoc, length_filter_cons.
    destruct (decide (crossing_pair o lm y e = true)); lia.
Qed.

Lemma crossing_pair_spec (o lm : gmap string Z) (e1 e2 : edge) :
  crossing_pair o lm e1 e2 = true
  <-> exists p, spanned_layers lm e1 = Some p /\ spanned_layers lm e2 = Some p
                /\ edges_cross o (source e1, target e1) (source e2, target e2) = true.
Proof.
  unfold crossing_pair.
  destruct (spanned_layers lm e1) as [p1|]; [|split; [done | by intros (p & ? & _)]].
  destruct (spanned_layers lm e2) as [p2|]; [|split; [done | by intros (p & _ & ? & _)]].
  rewrite andb_true_iff, bool_decide_eq_true. split.
  - intros [-> H]. eauto.
  - intros (p & [= ->] & [= ->] & H). done.
Qed.

Lemma crossing_with_bucket (o lm : gmap string Z) (e : edge) (p : Z * Z) (edges : list edge) :
  spanned_layers lm e = Some p ->
  length (filter (fun y => edges_cross o y (source e, target e) = true)
            (map (fun e' => (source e', target e'))
                 (filter (fun e' => spanned_layers lm e' = Some p) edges)))
  = length (filter (fun e' => crossing_pair o lm e' e = true) edges).
Proof.
  intros Hp. induction edges as [|e' edges IH]; [done|].
  rewrite (length_filter_cons (fun e' => crossing_pair o lm e' e = true)), <- IH.
  rewrite (filter_cons (fun e' => spanned_layers lm e' = Some p)).
  destruct (decide (spanned_layers lm e' = Some p)) as [H|H].
  - cbn [map]. rewrite length_filter_cons. cbn [fst snd].
    destruct (decide (edges_cross o (source e', target e') (source e, target e) = true))
      as [Hc|Hc].
    + rewrite decide_True; [done|]. apply crossing_pair_spec. eauto.
    + rewrite decide_False; [done|]. intros (q & _ & _ & ?)%crossing_pair_spec. done.
  - rewrite decide_False; [done|]. intros (q & H1 & H2 & _)%crossing_pair_spec. congruence.
Qed.

(** The crossing count is the number of pairs of edges that cross. *)
Lemma count_edge_crossings_pairs (nodes_by_layer : list (Z * list string))
    (edges : list edge) (node_orders node_layers : gmap string Z) :
  count_edge_crossings nodes_by_layer edges node_orders node_layers
  = crossing_pairs node_orders node_layers edges.
Proof.
  unfold count_edge_crossings.
  induction edges as [|e edges IH] using rev_ind; [done|].
  rewrite bucket_edges_snoc, crossing_pairs_snoc, <- IH.
  destruct (spanned_layers node_layers e) as [p|] eqn:Hp.
  - rewrite sum_buckets_append, bucket_edges_get. f_equal. f_equal.
    by apply crossing_with_bucket.
  - assert (filter (fun e' => crossing_pair node_orders node_layers e' e = true) edges = [])
      as ->; [|cbn; lia].
    clear IH. induction edges as [|e' edges IH]; [done|].
    rewrite filter_cons, decide_False; [done|].
    intros (q & _ & ? & _)%crossing_pair_spec. congruence.
Qed.

(** *** Bounds, and the order of the edge list *)

Lemma crossing_pairs_bounds (o lm : gmap string Z) (edges : list edge) :
  0 <= crossing_pairs o lm edges
  /\ 2 * crossing_pairs o lm edges <= Z.of_nat (length edges) * (Z.of_nat (length edges) - 1).
Proof.
  induction edges as [|e edges [IH0 IH]]; cbn [crossing_pairs length]; [lia|].
  pose proof (length_filter (fun e2 => crossing_pair o lm e e2 = true) edges). nia.
Qed.

Lemma edges_cross_sym (o : gmap string Z) (e1 e2 : string * string) :
  edges_cross o e1 e2 = edges_cross o e2 e1.
Proof. unfold edges_cross. cbn zeta. by rewrite orb_comm. Qed.

Lemma crossing_pair_sym (o lm : gmap string Z) (e1 e2 : edge) :
  crossing_pair o lm e1 e2 = crossing_pair o lm e2 e1.
Proof.
  unfold crossing_pair.
  destruct (spanned_layers lm e1) as [p1|], (spanned_layers lm e2) as [p2|]; try done.
  rewrite edges_cross_sym. f_equal. apply bool_decide_ext. split; congruence.
Qed.

Lemma crossing_pairs_perm (o lm : gmap string Z) (edges edges' : list edge) :
  edges ≡ₚ edges' -> crossing_pairs o lm edges = crossing_pairs o lm edges'.
Proof.
  induction 1 as [|e l l' Hp IH|e1 e2 l|l1 l2 l3 _ IH1 _ IH2]; cbn [crossing_pairs].
  - done.
  - by rewrite IH, Hp.
  - rewrite !length_filter_cons, (crossing_pair_sym o lm e1 e2).
    destruct (decide (crossing_pair o lm e2 e1 = true)); lia.
  - by rewrite IH1.
Qed.

(** *** Results on [count_edge_crossings] *)

(** X13. The crossing count is the number of unordered pairs of edges that
    cross: both edges have their endpoints in the layer map and lead to a
    deeper layer, they span the same pair of layers, and their endpoints are
    in opposite orders.  The layers in between, and the argument
    [nodes_by_layer], play no part. *)
Theorem crossings_are_crossing_pairs (nodes_by_layer : list (Z * list string))
    (edges : list edge) (node_orders node_layers : gmap string Z) :
  count_edge_crossings nodes_by_layer edges node_orders node_layers
  = crossing_pairs node_orders node_layers edges.
Proof. apply count_edge_crossings_pairs. Qed.

(** X14. The crossing count of [m] edges lies between 0 and [m (m - 1) / 2],
    and it is 0 for fewer than two edges. *)
Theorem crossings_bounded (nodes_by_layer : list (Z * list string))
    (edges : list edge) (node_orders node_layers : gmap string Z) :
  0 <= count_edge_crossings nodes_by_layer edges node_orders node_layers
  /\ 2 * count_edge_crossings nodes_by_layer edges node_orders node_layers
     <= Z.of_nat (length edges) * (Z.of_nat (length edges) - 1).
Proof. rewrite count_edge_crossings_pairs. apply crossing_pairs_bounds. Qed.

(** X15. The crossing count does not depend on the order of the edge list. *)
Theorem crossings_ignore_edge_order (nodes_by_layer : list (Z * list string))
    (edges edges' : list edge) (node_orders node_layers : gmap string Z)
    (Hperm : edges ≡ₚ edges') :
  count_edge_crossings nodes_by_layer edges node_orders node_layers
  = count_edge_crossings nodes_by_layer edges' node_orders node_layers.
Proof. rewrite !count_edge_crossings_pairs. by apply crossing_pairs_perm. Qed.

Lemma crossings_ignore_edge_order_witness :
  [Edge "A" "D"; Edge "B" "C"] ≡ₚ [Edge "B" "C"; Edge "A" "D"]
  /\ count_edge_crossings [] [Edge "A" "D"; Edge "B" "C"]
       {["A" := 0; "B" := 1; "C" := 0; "D" := 1]}
       {["A" := 0; "B" := 0; "C" := 1; "D" := 1]}
     = count_edge_crossings [] [Edge "B" "C"; Edge "A" "D"]
         {["A" := 0; "B" := 1; "C" := 0; "D" := 1]}
         {["A" := 0; "B" := 0; "C" := 1; "D" := 1]}.
Proof.
  assert ([Edge "A" "D"; Edge "B" "C"] ≡ₚ [Edge "B" "C"; Edge "A" "D"]) as H
    by apply perm_swap.
  split; [exact H|].
  exact (crossings_ignore_edge_order [] _ _ _ _ H).
Defined.

(** ** More on sorting *)

Section sorting_order.
Context {A : Type} (lt : A -> A -> bool) (R : A -> A -> Prop).
Hypothesis lt_R : forall x y, lt y x = true -> R y x.
Hypothesis nlt_R : forall x y, lt y x = false -> R x y.
Hypothesis R_trans : forall x y z, R x y -> R y z -> R x z.

Lemma insert_sorted_strongly (x : A) (l : list A) :
  StronglySorted R l -> StronglySorted R (insert_sorted lt x l).
Proof.
  induction 1 as [|y l Hs IH Hy]; cbn.
  - repeat constructor.
  - destruct (lt y x) eqn:E.
    + constructor; [done|]. rewrite Forall_forall. intros z Hz.
      rewrite insert_sorted_perm in Hz. apply elem_of_cons in Hz as [->|Hz].
      * by apply lt_R.
      * rewrite Forall_forall in Hy. by apply Hy.
    + constructor; [by constructor|]. constructor; [by apply nlt_R|].
      rewrite Forall_forall in Hy |- *. intros z Hz.
      apply (R_trans _ y); [by apply nlt_R | by apply Hy].
Qed.

Lemma py_sorted_strongly (l : list A) : StronglySorted R (py_sorted lt l).
Proof.
  induction l as [|x l IH]; cbn; [constructor | by apply insert_sorted_strongly].
Qed.
End sorting_order.

Lemma StronglySorted_lookup {A} (R : A -> A -> Prop) (l : list A) (i j : nat) (x y : A) :
  StronglySorted R l -> l !! i = Some x -> l !! j = Some y -> (i < j)%nat -> R x y.
Proof.
  intros Hs. revert i j. induction Hs as [|z l Hs IH Hz]; intros i j Hi Hj Hlt; [done|].
  destruct j as [|j]; [lia|]. cbn in Hj. destruct i as [|i]; cbn in Hi.
  - injection Hi as ->. rewrite Forall_forall in Hz. apply Hz.
    by eapply list_elem_of_lookup_2.
  - apply (IH i j); [done..|lia].
Qed.

(** *** The order of strings *)

Lemma ascii_compare_trans (a b c : ascii) (o : comparison) :
  Ascii.compare a b = o -> Ascii.compare b c = o -> Ascii.compare a c = o.
Proof.
  unfold Ascii.compare. destruct o.
  - rewrite !N.compare_eq_iff. congruence.
  - rewrite !N.compare_lt_iff. lia.
  - rewrite !N.compare_gt_iff. lia.
Qed.

Lemma string_compare_trans (a b c : string) (o : comparison) :
  String.compare a b = o -> String.compare b c = o -> String.compare a c = o.
Proof.
  revert b c. induction a as [|x a IH]; intros [|y b] [|z c]; cbn; try congruence.
  destruct (Ascii.compare x y) eqn:Hxy; destruct (Ascii.compare y z) eqn:Hyz;
    try congruence.
  - apply Ascii.compare_eq_iff in Hxy as ->. apply Ascii.compare_eq_iff in Hyz as ->.
    assert (Ascii.compare z z = Eq) as ->.
    { unfold Ascii.compare. apply N.compare_refl. }
    apply IH.
  - apply Ascii.compare_eq_iff in Hxy as ->. rewrite Hyz. congruence.
  - apply Ascii.compare_eq_iff in Hxy as ->. rewrite Hyz. congruence.
  - apply Ascii.compare_eq_iff in Hyz as <-. rewrite Hxy. congruence.
  - rewrite (ascii_compare_trans x y z Lt Hxy Hyz). congruence.
  - apply Ascii.compare_eq_iff in Hyz as <-. rewrite Hxy. congruence.
  - rewrite (ascii_compare_trans x y z Gt Hxy Hyz). congruence.
Qed.

Lemma string_ltb_trans (a b c : string) :
  String.ltb a b = true -> String.ltb b c = true -> String.ltb a c = true.
Proof.
  unfold String.ltb. intros H1 H2.
  destruct (String.compare a b) eqn:Hab; try done.
  destruct (String.compare b c) eqn:Hbc; try done.
  by rewrite (string_compare_trans a b c Lt Hab Hbc).
Qed.

Lemma string_ltb_total (a b : string) :
  String.ltb a b = true \/ a = b \/ String.ltb b a = true.
Proof.
  unfold String.ltb. rewrite (String.compare_antisym b a).
  destruct (String.compare a b) eqn:Hab; cbn; [|by left|by right; right].
  right. left. by apply String.compare_eq_iff.
Qed.

Lemma string_ltb_irrefl (a : string) : String.ltb a a = false.
Proof.
  unfold String.ltb. pose proof (String.compare_antisym a a) as H.
  by destruct (String.compare a a).
Qed.

(** [sorted] on strings puts smaller strings first. *)
Lemma py_sorted_strings (l : list string) :
  StronglySorted (fun a b => String.ltb b a = false) (py_sorted String.ltb l).
Proof.
  apply py_sorted_strongly.
  - intros x y H. destruct (String.ltb x y) eqn:E; [|done].
    pose proof (string_ltb_trans _ _ _ H E) as Hc. by rewrite string_ltb_irrefl in Hc.
  - done.
  - intros x y z Hxy Hyz. destruct (String.ltb z x) eqn:E; [|done].
    destruct (string_ltb_total x y) as [H|[->|H]]; [|congruence|congruence].
    pose proof (string_ltb_trans _ _ _ E H). congruence.
Qed.

(** ** Positions in a concatenation of blocks *)

Lemma concat_lookup_block {A} (bs : list (list A)) (i : nat) (x : A) :
  concat bs !! i = Some x ->
  exists p b, bs !! p = Some b /\ x ∈ b
              /\ (length (concat (take p bs)) <= i
                  < length (concat (take p bs)) + length b)%nat
              /\ b !! (i - length (concat (take p bs)))%nat = Some x.
Proof.
  revert i. induction bs as [|b0 bs IH]; intros i Hi; [done|]. cbn in Hi.
  destruct (decide (i < length b0)%nat) as [Hlt|Hge].
  - rewrite lookup_app_l in Hi by done. exists 0%nat, b0. cbn.
    split; [done|]. split; [by eapply list_elem_of_lookup_2|]. split; [lia|].
    by rewrite Nat.sub_0_r.
  - rewrite lookup_app_r in Hi by lia.
    destruct (IH _ Hi) as (p & b & Hp & Hx & Hrange & Hoff).
    exists (S p), b. cbn. rewrite length_app. split; [done|]. split; [done|].
    split; [lia|]. rewrite <- Hoff. f_equal. lia.
Qed.

Lemma concat_prefix_mono {A} (bs : list (list A)) (p q : nat) (b : list A) :
  bs !! p = Some b -> (p < q)%nat ->
  (length (concat (take p bs)) + length b <= length (concat (take q bs)))%nat.
Proof.
  revert p q. induction bs as [|b0 bs IH]; intros p q Hp Hlt; [done|].
  destruct q as [|q]; [lia|]. destruct p as [|p]; cbn in *.
  - injection Hp as ->. rewrite length_app. lia.
  - rewrite !length_app. specialize (IH p q Hp). lia.
Qed.

Lemma concat_block_unique {A} (bs : list (list A)) (p q : nat) (b1 b2 : list A) (x : A) :
  NoDup (concat bs) -> bs !! p = Some b1 -> bs !! q = Some b2 -> x ∈ b1 -> x ∈ b2 -> p = q.
Proof.
  revert p q. induction bs as [|b0 bs IH]; intros p q Hnd Hp Hq H1 H2; [done|].
  cbn in Hnd. apply NoDup_app in Hnd as (_ & Hdis & Hnd).
  destruct p as [|p], q as [|q]; cbn in *.
  - done.
  - injection Hp as ->. exfalso. apply (Hdis x H1). apply elem_of_concat.
    exists b2. split; [done | by eapply list_elem_of_lookup_2].
  - injection Hq as ->. exfalso. apply (Hdis x H2). apply elem_of_concat.
    exists b1. split; [done | by eapply list_elem_of_lookup_2].
  - f_equal. by apply IH.
Qed.

(** The members of an earlier block come first. *)
Lemma concat_blocks_ordered {A} (bs : list (list A)) (p q i j : nat) (b1 b2 : list A)
    (x y : A) :
  NoDup (concat bs) -> bs !! p = Some b1 -> bs !! q = Some b2 -> (p < q)%nat ->
  x ∈ b1 -> y ∈ b2 -> concat bs !! i = Some x -> concat bs !! j = Some y -> (i < j)%nat.
Proof.
  intros Hnd Hp Hq Hlt Hx Hy Hi Hj.
  destruct (concat_lookup_block bs i x Hi) as (p' & b1' & Hp' & Hx' & Hri & _).
  destruct (concat_lookup_block bs j y Hj) as (q' & b2' & Hq' & Hy' & Hrj & _).
  assert (p' = p) as -> by (by eapply (concat_block_unique bs)).
  assert (q' = q) as -> by (by eapply (concat_block_unique bs)).
  assert (b1' = b1) as -> by congruence.
  pose proof (concat_prefix_mono bs p q b1 Hp Hlt). lia.
Qed.

(** A block is an interval of the concatenation. *)
Lemma concat_block_interval {A} (bs : list (list A)) (p i j k : nat) (b : list A)
    (x y z : A) :
  NoDup (concat bs) -> bs !! p = Some b -> x ∈ b -> z ∈ b ->
  concat bs !! i = Some x -> concat bs !! j = Some y -> concat bs !! k = Some z ->
  (i <= j <= k)%nat -> y ∈ b.
Proof.
  intros Hnd Hp Hx Hz Hi Hj Hk Hijk.
  destruct (concat_lookup_block bs j y Hj) as (q & b' & Hq & Hy & Hrj & _).
  destruct (lt_eq_lt_dec p q) as [[Hlt|<-]|Hgt].
  - pose proof (concat_blocks_ordered bs p q k j b b' z y Hnd Hp Hq Hlt Hz Hy Hk Hj). lia.
  - congruence.
  - pose proof (concat_blocks_ordered bs q p j i b' b y x Hnd Hq Hp Hgt Hy Hx Hj Hi). lia.
Qed.

(** ** More on [order_bottom_layer_by_support] *)

Lemma group_nodes_fold (parents : gmap string (list string)) (l : list string)
    (d : list (list string * list string)) :
  fold_left (fun groups node_id =>
               match dget [] parents node_id with
               | [] => od_append orphan_key node_id groups
               | parent_ids => od_append (py_sorted String.ltb parent_ids) node_id groups
               end) l d
  = fold_left (fun groups node_id => od_append (group_key parents node_id) node_id groups) l d.
Proof.
  revert d. induction l as [|n l IH]; intros d; cbn [fold_left]; [done|].
  rewrite IH. unfold group_key. by destruct (dget [] parents n).
Qed.

Lemma group_nodes_spec (l : list string) (parents : gmap string (list string)) :
  NoDup (map fst (group_nodes_by_parents l parents))
  /\ Forall (fun g => snd g <> []) (group_nodes_by_parents l parents)
  /\ forall k, od_get (group_nodes_by_parents l parents) k
               = filter (fun n => group_key parents n = k) l.
Proof.
  unfold group_nodes_by_parents. rewrite group_nodes_fold.
  enough (forall d : list (list string * list string),
            NoDup (map fst d) -> Forall (fun g => snd g <> []) d ->
            let d' := fold_left (fun groups node_id =>
                        od_append (group_key parents node_id) node_id groups) l d in
            NoDup (map fst d') /\ Forall (fun g => snd g <> []) d'
            /\ forall k, od_get d' k = od_get d k ++ filter (fun n => group_key parents n = k) l)
    as H.
  { destruct (H [] ltac:(constructor) ltac:(constructor)) as (? & ? & ?). done. }
  induction l as [|n l IH]; intros d Hnd Hne; cbn [fold_left].
  - split; [done|]. split; [done|]. intros k. by rewrite app_nil_r.
  - destruct (IH (od_append (group_key parents n) n d)) as (H1 & H2 & H3).
    { by apply od_append_keys. }
    { by apply od_append_nonempty. }
    split; [done|]. split; [done|]. intros k. rewrite H3, od_get_append, filter_cons.
    destruct (decide (group_key parents n = k)) as [->|Hk].
    + by rewrite <- app_assoc.
    + done.
Qed.

(** *** The order of the group positions *)

Lemma position_ltb_le (a b c : group_position) :
  position_ltb b a = false -> position_ltb c b = false -> position_ltb c a = false.
Proof.
  destruct a as [x|], b as [y|], c as [z|]; cbn; try done.
  unfold Qltb. rewrite !negb_false_iff, !Qle_bool_iff. apply Qle_trans.
Qed.

Lemma position_ltb_asym (a b : group_position) :
  position_ltb a b = true -> position_ltb b a = false /\ position_eqb a b = false.
Proof.
  destruct a as [x|], b as [y|]; cbn; try done.
  unfold Qltb. rewrite negb_true_iff, negb_false_iff. intros H.
  assert (~ (y <= x)%Q) as Hn by (rewrite <- Qle_bool_iff; congruence).
  apply Qnot_le_lt in Hn. split.
  - apply Qle_bool_iff. by apply Qlt_le_weak.
  - destruct (Qeq_bool x y) eqn:E; [|done]. apply Qeq_bool_iff in E.
    rewrite E in Hn. by apply Qlt_irrefl in Hn.
Qed.

Lemma position_eqb_no_lt (a b : group_position) :
  position_eqb a b = true -> position_ltb b a = false /\ position_ltb a b = false.
Proof.
  destruct a as [x|], b as [y|]; cbn; try done.
  unfold Qltb. rewrite !negb_false_iff, !Qle_bool_iff. intros E%Qeq_bool_iff.
  rewrite E. split; apply Qle_refl.
Qed.

(** The sorted groups are in the order of their positions. *)
Lemma sorted_groups_by_position (gs : list (group_position * list string * list string)) :
  StronglySorted (fun g1 g2 => position_ltb (fst (fst g2)) (fst (fst g1)) = false)
    (py_sorted group_ltb gs).
Proof.
  apply py_sorted_strongly.
  - intros x y. unfold group_ltb.
    destruct (position_eqb (fst (fst y)) (fst (fst x))) eqn:E.
    + intros _. by apply position_eqb_no_lt in E as [? ?].
    + intros H. by apply position_ltb_asym in H as [? _].
  - intros x y. unfold group_ltb.
    destruct (position_eqb (fst (fst y)) (fst (fst x))) eqn:E; [|done].
    intros _. by apply position_eqb_no_lt in E as [? ?].
  - intros x y z. apply position_ltb_le.
Qed.

(** *** The blocks of the bottom layer *)

Lemma bottom_blocks_spec (l : list string) (parents : gmap string (list string))
    (parent_orders : gmap string Z) :
  let sorted_groups :=
    py_sorted group_ltb
      (map (fun g => (group_position_of parent_orders (fst g), fst g, snd g))
           (group_nodes_by_parents l parents)) in
  (forall g, g ∈ sorted_groups ->
     fst (fst g) = group_position_of parent_orders (snd (fst g))
     /\ forall x, x ∈ py_sorted String.ltb (snd g)
                  <-> x ∈ l /\ group_key parents x = snd (fst g))
  /\ (forall x, x ∈ l ->
        exists p g, sorted_groups !! p = Some g /\ snd (fst g) = group_key parents x).
Proof.
  intros sg. destruct (group_nodes_spec l parents) as (Hnd & Hne & Hget).
  assert (forall g, g ∈ sg <->
            exists k m, (k, m) ∈ group_nodes_by_parents l parents
                        /\ g = (group_position_of parent_orders k, k, m)) as Hsg.
  { intros g. unfold sg. rewrite py_sorted_perm.
    change (map ?f ?l) with (f <$> l). rewrite list_elem_of_fmap. split.
    - intros ([k m] & -> & Hin). by exists k, m.
    - intros (k & m & Hin & ->). by exists (k, m). }
  split.
  - intros g (k & m & Hin & ->)%Hsg. cbn. split; [done|].
    intros x. rewrite py_sorted_perm, <- (od_get_elem _ _ _ Hnd Hin), Hget.
    rewrite list_elem_of_filter. tauto.
  - intros x Hx.
    assert (x ∈ od_get (group_nodes_by_parents l parents) (group_key parents x)) as Hin.
    { rewrite Hget. by apply list_elem_of_filter. }
    destruct (od_get_cases (group_nodes_by_parents l parents) (group_key parents x))
      as [Hnil|Hit].
    { rewrite Hnil in Hin. by apply elem_of_nil in Hin. }
    assert ((group_position_of parent_orders (group_key parents x), group_key parents x,
             od_get (group_nodes_by_parents l parents) (group_key parents x)) ∈ sg) as Hg.
    { apply Hsg. eauto. }
    apply list_elem_of_lookup in Hg as [p Hp]. eauto.
Qed.

Lemma bottom_order_index (l : list string) (parents : gmap string (list string))
    (parent_orders : gmap string Z) (n : string) :
  NoDup l -> n ∈ l ->
  exists i, bottom_sequence l parents parent_orders !! i = Some n
            /\ order_bottom_layer_by_support l parents parent_orders !! n
               = Some (Z.of_nat i).
Proof.
  intros Hnd Hn.
  assert (n ∈ bottom_sequence l parents parent_orders) as Hin
    by (by rewrite bottom_sequence_perm).
  apply list_elem_of_lookup in Hin as [i Hi]. exists i. split; [done|].
  rewrite order_bottom_layer_by_support_eq.
  rewrite (assign_from_nth 0 _ ∅ i n); [done | by rewrite bottom_sequence_perm | done].
Qed.

Lemma bottom_sequence_block (l : list string) (parents : gmap string (list string))
    (parent_orders : gmap string Z) (n : string) :
  NoDup l -> n ∈ l ->
  let sorted_groups :=
    py_sorted group_ltb
      (map (fun g => (group_position_of parent_orders (fst g), fst g, snd g))
           (group_nodes_by_parents l parents)) in
  let blocks := map (fun g => py_sorted String.ltb (snd g)) sorted_groups in
  exists p g,
    sorted_groups !! p = Some g
    /\ blocks !! p = Some (py_sorted String.ltb (snd g))
    /\ n ∈ py_sorted String.ltb (snd g)
    /\ snd (fst g) = group_key parents n
    /\ fst (fst g) = group_position_of parent_orders (group_key parents n).
Proof.
  intros Hnd Hn sg blocks.
  destruct (bottom_blocks_spec l parents parent_orders) as [Hg Hex].
  destruct (Hex n Hn) as (p & g & Hp & Hk). exists p, g.
  assert (g ∈ sg) as Hin by (by eapply list_elem_of_lookup_2).
  destruct (Hg g Hin) as [Hpos Hmem].
  split; [done|]. split.
  { unfold blocks. change (map ?f sg) with (f <$> sg).
    rewrite list_lookup_fmap. unfold sg. by rewrite Hp. }
  split; [by apply Hmem|]. split; [done|]. by rewrite Hpos, Hk.
Qed.

Lemma bottom_sequence_NoDup (l : list string) (parents : gmap string (list string))
    (parent_orders : gmap string Z) :
  NoDup l -> NoDup (bottom_sequence l parents parent_orders).
Proof. intros H. by rewrite bottom_sequence_perm. Qed.

Lemma bottom_same_block (l : list string) (parents : gmap string (list string))
    (parent_orders : gmap string Z) (g : group_position * list string * list string)
    (a b : string) :
  g ∈ py_sorted group_ltb
        (map (fun g => (group_position_of parent_orders (fst g), fst g, snd g))
             (group_nodes_by_parents l parents)) ->
  a ∈ py_sorted String.ltb (snd g) -> b ∈ l -> group_key parents b = group_key parents a ->
  b ∈ py_sorted String.ltb (snd g).
Proof.
  intros Hg Ha Hb Hk. destruct (bottom_blocks_spec l parents parent_orders) as [Hspec _].
  destruct (Hspec g Hg) as [_ Hmem]. apply Hmem. split; [done|].
  apply Hmem in Ha as [_ <-]. done.
Qed.

(** Nodes filed under one key take consecutive order indices. *)
Lemma bottom_groups_contiguous (l : list string) (parents : gmap string (list string))
    (parent_orders : gmap string Z) (a b c : string) (oa ob oc : Z) :
  NoDup l -> a ∈ l -> b ∈ l -> c ∈ l ->
  order_bottom_layer_by_support l parents parent_orders !! a = Some oa ->
  order_bottom_layer_by_support l parents parent_orders !! b = Some ob ->
  order_bottom_layer_by_support l parents parent_orders !! c = Some oc ->
  group_key parents a = group_key parents b -> oa <= oc <= ob ->
  group_key parents c = group_key parents a.
Proof.
  intros Hnd Ha Hb Hc Hoa Hob Hoc Hk Hle.
  destruct (bottom_order_index l parents parent_orders a Hnd Ha) as (ia & Hia & Hoa').
  destruct (bottom_order_index l parents parent_orders b Hnd Hb) as (ib & Hib & Hob').
  destruct (bottom_order_index l parents parent_orders c Hnd Hc) as (ic & Hic & Hoc').
  destruct (bottom_sequence_block l parents parent_orders a Hnd Ha)
    as (p & g & Hp & Hblock & Hin & Hkey & _).
  pose proof (bottom_sequence_NoDup l parents parent_orders Hnd) as Hnds.
  assert (g ∈ py_sorted group_ltb
            (map (fun g => (group_position_of parent_orders (fst g), fst g, snd g))
                 (group_nodes_by_parents l parents))) as Hg
    by (by eapply list_elem_of_lookup_2).
  assert (b ∈ py_sorted String.ltb (snd g)) as Hinb
    by (by eapply (bottom_same_block l parents parent_orders g a b)).
  unfold bottom_sequence in Hia, Hib, Hic, Hnds.
  assert (c ∈ py_sorted String.ltb (snd g)) as Hinc.
  { eapply (concat_block_interval _ p ia ic ib _ a c b); try done.
    rewrite Hoa in Hoa'. rewrite Hob in Hob'. rewrite Hoc in Hoc'.
    injection Hoa' as ->. injection Hob' as ->. injection Hoc' as ->. lia. }
  destruct (bottom_blocks_spec l parents parent_orders) as [Hspec _].
  destruct (Hspec g Hg) as [_ Hmem]. apply Hmem in Hinc as [_ ->]. done.
Qed.

(** A group with a smaller position comes first. *)
Lemma bottom_groups_by_position (l : list string) (parents : gmap string (list string))
    (parent_orders : gmap string Z) (a b : string) :
  NoDup l -> a ∈ l -> b ∈ l ->
  position_ltb (group_position_of parent_orders (group_key parents a))
               (group_position_of parent_orders (group_key parents b)) = true ->
  exists oa ob,
    order_bottom_layer_by_support l parents parent_orders !! a = Some oa
    /\ order_bottom_layer_by_support l parents parent_orders !! b = Some ob
    /\ oa < ob.
Proof.
  intros Hnd Ha Hb Hlt.
  destruct (bottom_order_index l parents parent_orders a Hnd Ha) as (ia & Hia & Hoa).
  destruct (bottom_order_index l parents parent_orders b Hnd Hb) as (ib & Hib & Hob).
  destruct (bottom_sequence_block l parents parent_orders a Hnd Ha)
    as (p & ga & Hp & Hbp & Hina & _ & Hposa).
  destruct (bottom_sequence_block l parents parent_orders b Hnd Hb)
    as (q & gb & Hq & Hbq & Hinb & _ & Hposb).
  pose proof (bottom_sequence_NoDup l parents parent_orders Hnd) as Hnds.
  exists (Z.of_nat ia), (Z.of_nat ib). split; [done|]. split; [done|].
  unfold bottom_sequence in Hia, Hib, Hnds.
  destruct (lt_eq_lt_dec p q) as [[Hpq|<-]|Hqp].
  - pose proof (concat_blocks_ordered _ p q ia ib _ _ a b Hnds Hbp Hbq Hpq Hina Hinb Hia Hib).
    lia.
  - assert (ga = gb) as -> by congruence. rewrite <- Hposa, <- Hposb in Hlt.
    pose proof (position_ltb_asym _ _ Hlt) as [Hlt' _]. congruence.
  - pose proof (StronglySorted_lookup _ _ q p gb ga
                  (sorted_groups_by_position _) Hq Hp Hqp) as HR.
    cbn in HR. rewrite Hposa, Hposb in HR. congruence.
Qed.

(** Within a group the ids ascend. *)
Lemma bottom_group_sorted (l : list string) (parents : gmap string (list string))
    (parent_orders : gmap string Z) (a b : string) :
  NoDup l -> a ∈ l -> b ∈ l -> group_key parents a = group_key parents b ->
  String.ltb a b = true ->
  exists oa ob,
    order_bottom_layer_by_support l parents parent_orders !! a = Some oa
    /\ order_bottom_layer_by_support l parents parent_orders !! b = Some ob
    /\ oa < ob.
Proof.
  intros Hnd Ha Hb Hk Hlt.
  destruct (bottom_order_index l parents parent_orders a Hnd Ha) as (ia & Hia & Hoa).
  destruct (bottom_order_index l parents parent_orders b Hnd Hb) as (ib & Hib & Hob).
  destruct (bottom_sequence_block l parents parent_orders a Hnd Ha)
    as (p & g & Hp & Hbp & Hina & _ & _).
  pose proof (bottom_sequence_NoDup l parents parent_orders Hnd) as Hnds.
  assert (g ∈ py_sorted group_ltb
            (map (fun g => (group_position_of parent_orders (fst g), fst g, snd g))
                 (group_nodes_by_parents l parents))) as Hg
    by (by eapply list_elem_of_lookup_2).
  assert (b ∈ py_sorted String.ltb (snd g)) as Hinb
    by (by eapply (bottom_same_block l parents parent_orders g a b)).
  exists (Z.of_nat ia), (Z.of_nat ib). split; [done|]. split; [done|].
  unfold bottom_sequence in Hia, Hib, Hnds.
  destruct (concat_lookup_block _ ia a Hia) as (p1 & b1 & Hp1 & Ha1 & Hr1 & Hoff1).
  destruct (concat_lookup_block _ ib b Hib) as (p2 & b2 & Hp2 & Hb2 & Hr2 & Hoff2).
  assert (p1 = p) as -> by (by eapply (concat_block_unique _ _ _ _ _ a Hnds Hp1 Hbp)).
  assert (p2 = p) as -> by (by eapply (concat_block_unique _ _ _ _ _ b Hnds Hp2 Hbp)).
  assert (b1 = py_sorted String.ltb (snd g)) as -> by congruence.
  assert (b2 = py_sorted String.ltb (snd g)) as -> by congruence.
  destruct (lt_eq_lt_dec ia ib) as [[Hlt'|Heq]|Hgt]; [lia| |].
  - subst ib. assert (a = b) as -> by congruence. by rewrite string_ltb_irrefl in Hlt.
  - pose proof (StronglySorted_lookup _ _ _ _ b a (py_sorted_strings (snd g)) Hoff2 Hoff1
                  ltac:(lia)) as HR.
    cbn in HR. congruence.
Qed.

Lemma order_bottom_keys (l : list string) (parents : gmap string (list string))
    (parent_orders : gmap string Z) (n : string) :
  is_Some (order_bottom_layer_by_support l parents parent_orders !! n) <-> n ∈ l.
Proof.
  rewrite order_bottom_layer_by_support_eq, assign_from_dom, bottom_sequence_perm.
  rewrite lookup_empty. split; [intros [?|[? ?]]; done | by left].
Qed.

(** A node whose parents are the one id [orphan] is filed with the nodes
    without parents. *)
Lemma order_bottom_orphan_id (l : list string) (parents : gmap string (list string))
    (parent_orders : gmap string Z) (n : string) :
  dget [] parents n = ["orphan"] ->
  order_bottom_layer_by_support l parents parent_orders
  = order_bottom_layer_by_support l (delete n parents) parent_orders.
Proof.
  intros Hn. unfold order_bottom_layer_by_support.
  assert (group_nodes_by_parents l parents = group_nodes_by_parents l (delete n parents))
    as ->; [|done].
  unfold group_nodes_by_parents. rewrite !group_nodes_fold.
  generalize (@nil (list string * list string)).
  induction l as [|m l IH]; intros d; cbn [fold_left]; [done|].
  rewrite IH. do 2 f_equal. unfold group_key, dget.
  destruct (decide (m = n)) as [->|Hne].
  - rewrite lookup_delete_eq. unfold dget in Hn. rewrite Hn. reflexivity.
  - by rewrite lookup_delete_ne.
Qed.

(** *** Results on [order_bottom_layer_by_support] *)

(** X16. For a bottom layer without repeated ids the result is a numbering
    of the layer: its keys are exactly the nodes of the layer and its values
    are [0 .. n-1], each taken once. *)
Theorem bottom_orders_number_the_layer (bottom_layer_nodes : list string)
    (parents : gmap string (list string)) (parent_orders : gmap string Z)
    (Hunique : NoDup bottom_layer_nodes) :
  (forall n, is_Some (order_bottom_layer_by_support bottom_layer_nodes parents
                        parent_orders !! n)
             <-> n ∈ bottom_layer_nodes)
  /\ bijective_on (order_bottom_layer_by_support bottom_layer_nodes parents parent_orders)
       bottom_layer_nodes.
Proof.
  split; [apply order_bottom_keys|].
  rewrite order_bottom_layer_by_support_eq.
  apply bijective_on_renumber; [done | apply bottom_sequence_perm].
Qed.

Lemma bottom_orders_number_the_layer_witness :
  NoDup support_nodes
  /\ (forall n, is_Some (order_bottom_layer_by_support support_nodes support_parents
                           support_orders !! n)
                <-> n ∈ support_nodes)
  /\ bijective_on (order_bottom_layer_by_support support_nodes support_parents
                     support_orders) support_nodes.
Proof.
  assert (NoDup support_nodes) as H by (apply (bool_decide_unpack _); vm_compute; exact I).
  split; [exact H|].
  exact (bottom_orders_number_the_layer support_nodes support_parents support_orders H).
Defined.

(** X17. The nodes filed under one key (the sorted tuple of their parent
    ids) take consecutive order indices: a node whose index lies between
    those of two nodes with the same key has that key too. *)
Theorem same_parents_take_consecutive_orders (bottom_layer_nodes : list string)
    (parents : gmap string (list string)) (parent_orders : gmap string Z)
    (Hunique : NoDup bottom_layer_nodes) :
  forall a b c oa ob oc,
    a ∈ bottom_layer_nodes -> b ∈ bottom_layer_nodes -> c ∈ bottom_layer_nodes ->
    order_bottom_layer_by_support bottom_layer_nodes parents parent_orders !! a = Some oa ->
    order_bottom_layer_by_support bottom_layer_nodes parents parent_orders !! b = Some ob ->
    order_bottom_layer_by_support bottom_layer_nodes parents parent_orders !! c = Some oc ->
    group_key parents a = group_key parents b -> oa <= oc <= ob ->
    group_key parents c = group_key parents a.
Proof. intros a b c oa ob oc. by apply bottom_groups_contiguous. Qed.

Lemma same_parents_take_consecutive_orders_witness :
  NoDup support_nodes
  /\ "P1" ∈ support_nodes /\ "P3" ∈ support_nodes /\ "P2" ∈ support_nodes
  /\ order_bottom_layer_by_support support_nodes support_parents support_orders !! "P1"
     = Some 0
  /\ order_bottom_layer_by_support support_nodes support_parents support_orders !! "P3"
     = Some 2
  /\ order_bottom_layer_by_support support_nodes support_parents support_orders !! "P2"
     = Some 1
  /\ group_key support_parents "P1" = group_key support_parents "P3"
  /\ 0 <= 1 <= 2
  /\ group_key support_parents "P2" = group_key support_parents "P1".
Proof.
  assert (NoDup support_nodes) as H by (apply (bool_decide_unpack _); vm_compute; exact I).
  assert ("P1" ∈ support_nodes) as Ha by (apply (bool_decide_unpack _); vm_compute; exact I).
  assert ("P3" ∈ support_nodes) as Hb by (apply (bool_decide_unpack _); vm_compute; exact I).
  assert ("P2" ∈ support_nodes) as Hc by (apply (bool_decide_unpack _); vm_compute; exact I).
  assert (order_bottom_layer_by_support support_nodes support_parents support_orders !! "P1"
          = Some 0) as Hoa by (vm_compute; reflexivity).
  assert (order_bottom_layer_by_support support_nodes support_parents support_orders !! "P3"
          = Some 2) as Hob by (vm_compute; reflexivity).
  assert (order_bottom_layer_by_support support_nodes support_parents support_orders !! "P2"
          = Some 1) as Hoc by (vm_compute; reflexivity).
  assert (group_key support_parents "P1" = group_key support_parents "P3") as Hkey
    by (vm_compute; reflexivity).
  assert (0 <= 1 <= 2) as Hbetween by lia.
  repeat (split; [assumption|]).
  exact (same_parents_take_consecutive_orders support_nodes support_parents support_orders H
           "P1" "P3" "P2" 0 2 1 Ha Hb Hc Hoa Hob Hoc Hkey Hbetween).
Defined.

(** X18. The groups are laid out in the order of their positions: a node
    whose group has the smaller position (the mean order of the group's
    parents, infinity for the nodes without parents) comes before a node
    whose group has the larger one. *)
Theorem groups_follow_parent_positions (bottom_layer_nodes : list string)
    (parents : gmap string (list string)) (parent_orders : gmap string Z)
    (Hunique : NoDup bottom_layer_nodes) :
  forall a b,
    a ∈ bottom_layer_nodes -> b ∈ bottom_layer_nodes ->
    position_ltb (group_position_of parent_orders (group_key parents a))
                 (group_position_of parent_orders (group_key parents b)) = true ->
    exists oa ob,
      order_bottom_layer_by_support bottom_layer_nodes parents parent_orders !! a = Some oa
      /\ order_bottom_layer_by_support bottom_layer_nodes parents parent_orders !! b
         = Some ob
      /\ oa < ob.
Proof. intros a b. by apply bottom_groups_by_position. Qed.

Lemma groups_follow_parent_positions_witness :
  NoDup support_nodes
  /\ "P1" ∈ support_nodes /\ "P4" ∈ support_nodes
  /\ position_ltb (group_position_of support_orders (group_key support_parents "P1"))
                  (group_position_of support_orders (group_key support_parents "P4"))
     = true
  /\ exists oa ob,
       order_bottom_layer_by_support support_nodes support_parents support_orders !! "P1"
       = Some oa
       /\ order_bottom_layer_by_support support_nodes support_parents support_orders !! "P4"
          = Some ob
       /\ oa < ob.
Proof.
  assert (NoDup support_nodes) as H by (apply (bool_decide_unpack _); vm_compute; exact I).
  assert ("P1" ∈ support_nodes) as Ha by (apply (bool_decide_unpack _); vm_compute; exact I).
  assert ("P4" ∈ support_nodes) as Hb by (apply (bool_decide_unpack _); vm_compute; exact I).
  assert (position_ltb (group_position_of support_orders (group_key support_parents "P1"))
            (group_position_of support_orders (group_key support_parents "P4")) = true)
    as Hlt by (vm_compute; reflexivity).
  repeat (split; [assumption|]).
  exact (groups_follow_parent_positions support_nodes support_parents support_orders H
           "P1" "P4" Ha Hb Hlt).
Defined.

(** X19. The nodes without parents come last: every node filed under
    another key than [('orphan',)] has a smaller order index than every node
    without parents. *)
Theorem parentless_nodes_come_last (bottom_layer_nodes : list string)
    (parents : gmap string (list string)) (parent_orders : gmap string Z)
    (Hunique : NoDup bottom_layer_nodes) :
  forall a b,
    a ∈ bottom_layer_nodes -> b ∈ bottom_layer_nodes ->
    dget [] parents a = [] -> group_key parents b <> orphan_key ->
    exists oa ob,
      order_bottom_layer_by_support bottom_layer_nodes parents parent_orders !! a = Some oa
      /\ order_bottom_layer_by_support bottom_layer_nodes parents parent_orders !! b
         = Some ob
      /\ ob < oa.
Proof.
  intros a b Ha Hb Hpa Hkb.
  destruct (bottom_groups_by_position bottom_layer_nodes parents parent_orders b a
              Hunique Hb Ha) as (ob & oa & Hob & Hoa & Hlt).
  - unfold group_key at 2. rewrite Hpa. unfold group_position_of.
    rewrite (decide_True (P := orphan_key = orphan_key)) by done.
    rewrite decide_False by done.
    by destruct (omap _ _).
  - exists oa, ob. done.
Qed.

Lemma parentless_nodes_come_last_witness :
  NoDup stray_nodes
  /\ "y" ∈ stray_nodes /\ "x" ∈ stray_nodes
  /\ dget [] (<["x" := ["z"]]> stray_parents) "y" = []
  /\ group_key (<["x" := ["z"]]> stray_parents) "x" <> orphan_key
  /\ exists oa ob,
       order_bottom_layer_by_support stray_nodes (<["x" := ["z"]]> stray_parents) ∅ !! "y"
       = Some oa
       /\ order_bottom_layer_by_support stray_nodes (<["x" := ["z"]]> stray_parents) ∅
            !! "x" = Some ob
       /\ ob < oa.
Proof.
  assert (NoDup stray_nodes) as H by (apply (bool_decide_unpack _); vm_compute; exact I).
  assert ("y" ∈ stray_nodes) as Ha by (apply (bool_decide_unpack _); vm_compute; exact I).
  assert ("x" ∈ stray_nodes) as Hb by (apply (bool_decide_unpack _); vm_compute; exact I).
  assert (dget [] (<["x" := ["z"]]> stray_parents) "y" = []) as Hnone
    by (vm_compute; reflexivity).
  assert (group_key (<["x" := ["z"]]> stray_parents) "x" <> orphan_key) as Hkey
    by (apply (bool_decide_unpack _); vm_compute; exact I).
  repeat (split; [assumption|]).
  exact (parentless_nodes_come_last stray_nodes (<["x" := ["z"]]> stray_parents) ∅ H
           "y" "x" Ha Hb Hnone Hkey).
Defined.

(** X20. Within a group the nodes are in the order of their ids. *)
Theorem group_members_ascend_by_id (bottom_layer_nodes : list string)
    (parents : gmap string (list string)) (parent_orders : gmap string Z)
    (Hunique : NoDup bottom_layer_nodes) :
  forall a b,
    a ∈ bottom_layer_nodes -> b ∈ bottom_layer_nodes ->
    group_key parents a = group_key parents b -> String.ltb a b = true ->
    exists oa ob,
      order_bottom_layer_by_support bottom_layer_nodes parents parent_orders !! a = Some oa
      /\ order_bottom_layer_by_support bottom_layer_nodes parents parent_orders !! b
         = Some ob
      /\ oa < ob.
Proof. intros a b. by apply bottom_group_sorted. Qed.

Lemma group_members_ascend_by_id_witness :
  NoDup support_nodes
  /\ "P1" ∈ support_nodes /\ "P2" ∈ support_nodes
  /\ group_key support_parents "P1" = group_key support_parents "P2"
  /\ String.ltb "P1" "P2" = true
  /\ exists oa ob,
       order_bottom_layer_by_support support_nodes support_parents support_orders !! "P1"
       = Some oa
       /\ order_bottom_layer_by_support support_nodes support_parents support_orders !! "P2"
          = Some ob
       /\ oa < ob.
Proof.
  assert (NoDup support_nodes) as H by (apply (bool_decide_unpack _); vm_compute; exact I).
  assert ("P1" ∈ support_nodes) as Ha by (apply (bool_decide_unpack _); vm_compute; exact I).
  assert ("P2" ∈ support_nodes) as Hb by (apply (bool_decide_unpack _); vm_compute; exact I).
  assert (group_key support_parents "P1" = group_key support_parents "P2") as Hkey
    by (vm_compute; reflexivity).
  assert (String.ltb "P1" "P2" = true) as Hlt by (vm_compute; reflexivity).
  repeat (split; [assumption|]).
  exact (group_members_ascend_by_id support_nodes support_parents support_orders H
           "P1" "P2" Ha Hb Hkey Hlt).
Defined.

(** X21. A node whose parent list is the one id [orphan] gets the key of
    the nodes without parents, and is ordered as if it had none. *)
Theorem orphan_id_reads_as_no_parent (bottom_layer_nodes : list string)
    (parents : gmap string (list string)) (parent_orders : gmap string Z) (n : string)
    (Hparent : dget [] parents n = ["orphan"]) :
  group_key parents n = orphan_key
  /\ order_bottom_layer_by_support bottom_layer_nodes parents parent_orders
     = order_bottom_layer_by_support bottom_layer_nodes (delete n parents) parent_orders.
Proof.
  split; [|by apply order_bottom_orphan_id].
  unfold group_key. rewrite Hparent. reflexivity.
Qed.

Lemma orphan_id_reads_as_no_parent_witness :
  dget [] stray_parents "x" = ["orphan"]
  /\ group_key stray_parents "x" = orphan_key
  /\ order_bottom_layer_by_support stray_nodes stray_parents {["orphan" := 0]}
     = order_bottom_layer_by_support stray_nodes (delete "x" stray_parents)
         {["orphan" := 0]}.
Proof.
  assert (dget [] stray_parents "x" = ["orphan"]) as H by (vm_compute; reflexivity).
  split; [exact H|].
  exact (orphan_id_reads_as_no_parent stray_nodes stray_parents {["orphan" := 0]} "x" H).
Defined.

(** ** More on [apply_layout_to_nodes] *)

Lemma copy_node_raise (positions : gmap string (Z * Z)) (res : nat) (items : list nat)
    (e : exn) :
  fold_left (copy_node positions res) items (Raise e) = Raise e.
Proof. induction items as [|r items IH]; [done|]. cbn [fold_left]. exact IH. Qed.

(** A record without an [id] stops the call with [KeyError('id')]. *)
Lemma apply_layout_missing_id (nodes : nat) (good rest : list nat) (r : nat)
    (d : gmap string pyval) (positions : gmap string (Z * Z)) (hp : heap) :
  hp !! nodes = Some (OList (good ++ r :: rest)) ->
  node_records hp good -> hp !! r = Some (ODict d) -> d !! "id" = None ->
  apply_layout_to_nodes nodes positions hp = Raise (KeyError "id").
Proof.
  intros Hlist Hgood Hr Hid. unfold apply_layout_to_nodes, get_list. rewrite Hlist. cbn.
  rewrite fold_left_app. cbn [fold_left].
  destruct (apply_layout_fold positions (length hp) good [] (hp ++ [OList []]))
    as (new & hp1 & Hrun & Hres & Hkeep & _ & _).
  { intros r' Hr'. destruct (Hgood r' Hr') as (d' & Hd' & Hid'). exists d'.
    split; [|done]. rewrite lookup_app_l; [done | by eapply lookup_lt_Some]. }
  { rewrite lookup_app_r by lia. by rewrite Nat.sub_diag. }
  rewrite Hrun.
  assert (hp1 !! r = Some (ODict d)) as Hr1.
  { pose proof (lookup_lt_Some _ _ _ Hr) as Hlt.
    rewrite Hkeep; [by rewrite lookup_app_l | rewrite length_app; cbn; lia | lia]. }
  assert (copy_node positions (length hp) (Ok hp1) r = Raise (KeyError "id")) as ->.
  { unfold copy_node, get_dict, getitem. cbn. rewrite Hr1. cbn. rewrite Hid. done. }
  by rewrite copy_node_raise.
Qed.

Lemma with_position_idem (positions : gmap string (Z * Z)) (d : gmap string pyval) :
  with_position positions (with_position positions d) = with_position positions d.
Proof.
  unfold with_position at 2 3.
  destruct (d !! "id" ≫= position_at positions) as [[x y]|] eqn:E.
  - unfold with_position. rewrite !lookup_insert_ne by done. rewrite E.
    apply map_eq. intros k. rewrite !lookup_insert.
    by repeat destruct (decide _).
  - unfold with_position. by rewrite E.
Qed.

Lemma with_position_lookup (positions : gmap string (Z * Z)) (d : gmap string pyval)
    (s : string) (x y : Z) :
  d !! "id" = Some (VStr s) -> positions !! s = Some (x, y) ->
  with_position positions d !! "x" = Some (VInt x)
  /\ with_position positions d !! "y" = Some (VInt y)
  /\ with_position positions d !! "id" = Some (VStr s).
Proof.
  intros Hid Hp. unfold with_position. rewrite Hid. cbn. rewrite Hp.
  split; [by rewrite lookup_insert_ne by done; rewrite lookup_insert_eq|].
  split; [by rewrite lookup_insert_eq|].
  by rewrite !lookup_insert_ne by done.
Qed.

(** *** Results on [apply_layout_to_nodes] *)

Lemma with_position_id (positions : gmap string (Z * Z)) (d : gmap string pyval) :
  with_position positions d !! "id" = d !! "id".
Proof.
  unfold with_position. destruct (d !! "id" ≫= position_at positions) as [[x y]|]; [|done].
  by rewrite !lookup_insert_ne.
Qed.

(** X22. A list that holds a record without an [id] makes
    [apply_layout_to_nodes] raise [KeyError('id')], whatever the positions
    (even when there are none); the records before it are well-formed. *)
Theorem apply_layout_needs_ids (nodes : nat) (good rest : list nat) (r : nat)
    (d : gmap string pyval) (positions : gmap string (Z * Z)) (hp : heap)
    (Hlist : hp !! nodes = Some (OList (good ++ r :: rest)))
    (Hgood : node_records hp good)
    (Hrecord : hp !! r = Some (ODict d)) (Hmissing : d !! "id" = None) :
  apply_layout_to_nodes nodes positions hp = Raise (KeyError "id").
Proof. by eapply apply_layout_missing_id. Qed.

Lemma apply_layout_needs_ids_witness :
  broken_heap !! 2%nat = Some (OList ([0%nat] ++ 1%nat :: []))
  /\ node_records broken_heap [0%nat]
  /\ broken_heap !! 1%nat = Some (ODict {["label" := VStr "Left"]})
  /\ ({["label" := VStr "Left"]} : gmap string pyval) !! "id" = None
  /\ apply_layout_to_nodes 2 ∅ broken_heap = Raise (KeyError "id").
Proof.
  assert (broken_heap !! 2%nat = Some (OList ([0%nat] ++ 1%nat :: []))) as H1
    by reflexivity.
  assert (node_records broken_heap [0%nat]) as H2.
  { intros r Hr. apply list_elem_of_singleton in Hr as ->.
    eexists. split; [reflexivity|]. vm_compute. eauto. }
  assert (broken_heap !! 1%nat = Some (ODict {["label" := VStr "Left"]})) as H3
    by reflexivity.
  assert (({["label" := VStr "Left"]} : gmap string pyval) !! "id" = None) as H4
    by (vm_compute; reflexivity).
  split; [exact H1|]. split; [exact H2|]. split; [exact H3|]. split; [exact H4|].
  exact (apply_layout_needs_ids 2 [0%nat] [] 1 _ ∅ broken_heap H1 H2 H3 H4).
Defined.

(** X23. The server-side layout of the graph component: the positions
    computed for a node list, applied to the records of that list, give
    every record of the result the [x] and [y] of its node, whatever the
    edges. *)
Theorem layout_then_apply_positions_every_node (h : string -> Z) (nodes_ref : nat)
    (items : list nat) (nodes : list node) (edges : list edge)
    (node_spacing layer_separation : Z) (iterations : nat) (hp : heap)
    (Hlist : hp !! nodes_ref = Some (OList items))
    (Hrecords : records_of hp items nodes) :
  exists positions metrics node_layers result hp' items',
    compute_layout_positions h nodes edges node_spacing layer_separation iterations
    = Ok (positions, metrics, node_layers)
    /\ apply_layout_to_nodes nodes_ref positions hp = Ok (result, hp')
    /\ hp' !! result = Some (OList items')
    /\ Forall2 (fun n r' =>
                  exists d' x y,
                    hp' !! r' = Some (ODict d')
                    /\ positions !! node_id n = Some (x, y)
                    /\ d' !! "id" = Some (VStr (node_id n))
                    /\ d' !! "x" = Some (VInt x) /\ d' !! "y" = Some (VInt y))
               nodes items'.
Proof.
  destruct (layout_keys h nodes edges node_spacing layer_separation iterations)
    as (pos & met & lm & Hrun & _ & Hkeys & _).
  assert (node_list hp nodes_ref items) as Hwf.
  { split; [done|]. intros r Hr. apply list_elem_of_lookup in Hr as [i Hi].
    destruct (Forall2_lookup_l _ _ _ _ _ Hrecords Hi) as (n & _ & d & Hd & Hid).
    exists d. split; [done|]. by rewrite Hid. }
  destruct (apply_layout_spec nodes_ref items pos hp Hwf)
    as (res & hp' & items' & Happly & _ & Hres & _ & _ & Hall).
  exists pos, met, lm, res, hp', items'. split; [done|]. split; [done|]. split; [done|].
  apply Forall2_same_length_lookup_2.
  { rewrite <- (Forall2_length _ _ _ Hrecords). by eapply Forall2_length. }
  intros i n r' Hn Hr'.
  destruct (Forall2_lookup_r _ _ _ _ _ Hrecords Hn) as (r & Hr & d & Hd & Hid).
  destruct (Forall2_lookup_lr _ _ _ _ _ _ Hall Hr Hr') as (_ & d0 & Hd0 & Hnew).
  assert (d0 = d) as -> by congruence.
  destruct (Hkeys (node_id n)) as [_ [[x y] Hxy]].
  { apply (list_elem_of_fmap_2 node_id). by eapply list_elem_of_lookup_2. }
  destruct (with_position_lookup pos d (node_id n) x y Hid Hxy) as (Hx & Hy & Hid').
  exists (with_position pos d), x, y. done.
Qed.


Lemma sample_heap_records : records_of sample_heap [0%nat; 1%nat] pair_nodes.
Proof.
  repeat constructor; eexists; (split; [reflexivity|]); vm_compute; reflexivity.
Defined.

Lemma layout_then_apply_positions_every_node_witness :
  sample_heap !! 2%nat = Some (OList [0%nat; 1%nat])
  /\ records_of sample_heap [0%nat; 1%nat] pair_nodes
  /\ exists positions metrics node_layers result hp' items',
       compute_layout_positions (fun _ => 0) pair_nodes [Edge "A" "B"] 250 200 8
       = Ok (positions, metrics, node_layers)
       /\ apply_layout_to_nodes 2 positions sample_heap = Ok (result, hp')
       /\ hp' !! result = Some (OList items')
       /\ Forall2 (fun n r' =>
                     exists d' x y,
                       hp' !! r' = Some (ODict d')
                       /\ positions !! node_id n = Some (x, y)
                       /\ d' !! "id" = Some (VStr (node_id n))
                       /\ d' !! "x" = Some (VInt x) /\ d' !! "y" = Some (VInt y))
                  pair_nodes items'.
Proof.
  assert (sample_heap !! 2%nat = Some (OList [0%nat; 1%nat])) as H1 by reflexivity.
  split; [exact H1|]. split; [exact sample_heap_records|].
  exact (layout_then_apply_positions_every_node (fun _ => 0) 2 [0%nat; 1%nat] pair_nodes
           [Edge "A" "B"] 250 200 8 sample_heap H1 sample_heap_records).
Defined.

(** X24. Applying the same positions to the result once more gives
    records equal to those of the first result. *)
Theorem apply_layout_twice_same_records (nodes : nat) (items : list nat)
    (positions : gmap string (Z * Z)) (hp : heap) (Hwf : node_list hp nodes items) :
  exists result1 hp1 items1 result2 hp2 items2,
    apply_layout_to_nodes nodes positions hp = Ok (result1, hp1)
    /\ hp1 !! result1 = Some (OList items1)
    /\ apply_layout_to_nodes result1 positions hp1 = Ok (result2, hp2)
    /\ hp2 !! result2 = Some (OList items2)
    /\ Forall2 (fun a b => exists d, hp2 !! a = Some (ODict d) /\ hp2 !! b = Some (ODict d))
               items1 items2.
Proof.
  destruct (apply_layout_spec nodes items positions hp Hwf)
    as (r1 & hp1 & items1 & Hrun1 & _ & Hres1 & _ & _ & Hall1).
  assert (node_list hp1 r1 items1) as Hwf1.
  { split; [done|]. intros r Hr. apply list_elem_of_lookup in Hr as [i Hi].
    destruct (Forall2_lookup_r _ _ _ _ _ Hall1 Hi) as (r0 & Hr0 & _ & d & Hd & Hnew).
    exists (with_position positions d). split; [done|].
    rewrite with_position_id. destruct Hwf as [_ Hrec].
    destruct (Hrec r0) as (d0 & Hd0 & Hid); [by eapply list_elem_of_lookup_2|].
    congruence. }
  destruct (apply_layout_spec r1 items1 positions hp1 Hwf1)
    as (r2 & hp2 & items2 & Hrun2 & _ & Hres2 & Hkeep2 & _ & Hall2).
  exists r1, hp1, items1, r2, hp2, items2.
  split; [done|]. split; [done|]. split; [done|]. split; [done|].
  apply Forall2_same_length_lookup_2; [by eapply Forall2_length|].
  intros i a b Ha Hb.
  destruct (Forall2_lookup_lr _ _ _ _ _ _ Hall2 Ha Hb) as (_ & d & Hd & Hnew).
  destruct (Forall2_lookup_r _ _ _ _ _ Hall1 Ha) as (r0 & _ & _ & d0 & _ & Hd0).
  assert (d = with_position positions d0) as -> by congruence.
  exists (with_position positions d0). split; [by apply Hkeep2|].
  by rewrite with_position_idem in Hnew.
Qed.

Lemma apply_layout_twice_same_records_witness :
  node_list sample_heap 2 [0%nat; 1%nat]
  /\ exists result1 hp1 items1 result2 hp2 items2,
       apply_layout_to_nodes 2 {["A" := (100, 200)]} sample_heap = Ok (result1, hp1)
       /\ hp1 !! result1 = Some (OList items1)
       /\ apply_layout_to_nodes result1 {["A" := (100, 200)]} hp1 = Ok (result2, hp2)
       /\ hp2 !! result2 = Some (OList items2)
       /\ Forall2 (fun a b => exists d, hp2 !! a = Some (ODict d)
                                        /\ hp2 !! b = Some (ODict d))
                  items1 items2.
Proof.
  split; [exact sample_heap_node_list|].
  exact (apply_layout_twice_same_records 2 [0%nat; 1%nat] {["A" := (100, 200)]} sample_heap
           sample_heap_node_list).
Defined.

(** ** When the hash fallback is never used *)

Lemma compute_barycenter_hash (h h' : string -> Z) (n : string)
    (layer_nodes neighbors : list string) (o : gmap string Z) :
  (exists m, m ∈ neighbors /\ is_Some (o !! m)) ->
  compute_barycenter h n layer_nodes neighbors o
  = compute_barycenter h' n layer_nodes neighbors o.
Proof.
  intros (m & Hm & [k Hk]). unfold compute_barycenter.
  destruct neighbors as [|m0 nb]; [by apply elem_of_nil in Hm|].
  assert (k ∈ omap (fun n => o !! n) (m0 :: nb)) as Hin.
  { apply list_elem_of_omap. eauto. }
  destruct (omap (fun n => o !! n) (m0 :: nb)); [by apply elem_of_nil in Hin | done].
Qed.

Lemma reorder_layer_hash (h h' : string -> Z) (nodes_by_layer : list (Z * list string))
    (neighbors : gmap string (list string)) (adjacent : Z) (layer_nodes : list string)
    (o : gmap string Z) :
  (forall n, n ∈ layer_nodes -> exists m, m ∈ dget [] neighbors n /\ is_Some (o !! m)) ->
  reorder_layer h nodes_by_layer neighbors adjacent layer_nodes o
  = reorder_layer h' nodes_by_layer neighbors adjacent layer_nodes o.
Proof.
  intros H. unfold reorder_layer. do 3 f_equal.
  change (map ?f ?l) with (f <$> l). apply list_fmap_ext. intros i n Hn.
  f_equal. apply compute_barycenter_hash, H. by eapply list_elem_of_lookup_2.
Qed.

Lemma fold_sweep_ext {X} (f g : gmap string Z -> X -> gmap string Z) (l : list X)
    (I : gmap string Z -> Prop) (P : X -> Prop) (o : gmap string Z) :
  (forall o x, I o -> P x -> f o x = g o x) -> (forall o x, I o -> I (f o x)) ->
  Forall P l -> I o ->
  fold_left f l o = fold_left g l o /\ I (fold_left f l o).
Proof.
  intros Hfg HI Hl. revert o. induction Hl as [|x l Hx Hl IH]; intros o Ho; cbn; [done|].
  rewrite <- (Hfg o x Ho Hx). apply IH. by apply HI.
Qed.

Lemma elem_of_indexed {A} (l : list A) (i : nat) (x : A) :
  (i, x) ∈ indexed l -> l !! i = Some x.
Proof.
  unfold indexed.
  enough (forall k, (i, x) ∈ combine (seq k (length l)) l ->
                    (k <= i)%nat /\ l !! (i - k)%nat = Some x) as H.
  { intros Hin. destruct (H 0%nat Hin) as [_ Hl]. by rewrite Nat.sub_0_r in Hl. }
  induction l as [|y l IH]; intros k Hin; cbn in Hin; [by apply elem_of_nil in Hin|].
  apply elem_of_cons in Hin as [[= -> ->]|Hin].
  - by rewrite Nat.sub_diag.
  - destruct (IH (S k) Hin) as [Hle Hl]. split; [lia|].
    replace (i - k)%nat with (S (i - S k)) by lia. done.
Qed.

(** The neighbours that keep a layer off the hash fallback: every node of
    the layer has one, among the nodes of the layers. *)
Lemma sweeps_hash (h h' : string -> Z) (iterations : nat)
    (nodes_by_layer : list (Z * list string)) (children parents : gmap string (list string))
    (layer_numbers : list Z) (o : gmap string Z) :
  (forall idx layer n, layer_numbers !! idx = Some layer -> idx <> 0%nat ->
     (1 < length (od_get nodes_by_layer layer))%nat -> n ∈ od_get nodes_by_layer layer ->
     exists m, m ∈ dget [] parents n /\ m ∈ concat (map snd nodes_by_layer)) ->
  (forall idx layer n, layer_numbers !! idx = Some layer ->
     idx <> (length layer_numbers - 1)%nat ->
     (1 < length (od_get nodes_by_layer layer))%nat -> n ∈ od_get nodes_by_layer layer ->
     exists m, m ∈ dget [] children n /\ m ∈ concat (map snd nodes_by_layer)) ->
  orders_cover o nodes_by_layer ->
  sweeps h iterations nodes_by_layer children parents layer_numbers o
  = sweeps h' iterations nodes_by_layer children parents layer_numbers o.
Proof.
  intros Htd Hbu. revert o. induction iterations as [|k IH]; intros o Ho; cbn [sweeps]; [done|].
  assert (forall o x, orders_cover o nodes_by_layer ->
            orders_cover
              ((fun node_orders '(layer_idx, layer) =>
                  let layer_nodes := od_get nodes_by_layer layer in
                  if (layer_idx =? 0)%nat || (length layer_nodes <=? 1)%nat
                  then node_orders
                  else reorder_layer h nodes_by_layer parents (layer - 1)
                         layer_nodes node_orders) o x) nodes_by_layer) as Hkeep_td.
  { intros o' [idx layer] Ho' n Hn. cbn zeta. destruct (_ || _); [by apply Ho'|].
    apply reorder_layer_keeps. by apply Ho'. }
  assert (forall o x, orders_cover o nodes_by_layer ->
            orders_cover
              ((fun node_orders '(layer_idx, layer) =>
                  let layer_nodes := od_get nodes_by_layer layer in
                  if (layer_idx =? length layer_numbers - 1)%nat
                     || (length layer_nodes <=? 1)%nat
                  then node_orders
                  else reorder_layer h nodes_by_layer children (layer + 1)
                         layer_nodes node_orders) o x) nodes_by_layer) as Hkeep_bu.
  { intros o' [idx layer] Ho' n Hn. cbn zeta. destruct (_ || _); [by apply Ho'|].
    apply reorder_layer_keeps. by apply Ho'. }
  destruct (fold_sweep_ext
              (fun node_orders '(layer_idx, layer) =>
                 let layer_nodes := od_get nodes_by_layer layer in
                 if (layer_idx =? 0)%nat || (length layer_nodes <=? 1)%nat
                 then node_orders
                 else reorder_layer h nodes_by_layer parents (layer - 1)
                        layer_nodes node_orders)
              (fun node_orders '(layer_idx, layer) =>
                 let layer_nodes := od_get nodes_by_layer layer in
                 if (layer_idx =? 0)%nat || (length layer_nodes <=? 1)%nat
                 then node_orders
                 else reorder_layer h' nodes_by_layer parents (layer - 1)
                        layer_nodes node_orders)
              (indexed layer_numbers)
              (fun o => orders_cover o nodes_by_layer)
              (fun x => layer_numbers !! fst x = Some (snd x)) o) as [Htd_eq Htd_cover].
  { intros o' [idx layer] Ho' Hx. cbn in Hx. cbn zeta.
    destruct (Nat.eqb_spec idx 0) as [|Hidx]; [done|].
    destruct (Nat.leb_spec (length (od_get nodes_by_layer layer)) 1) as [|Hlen]; [done|].
    cbn [orb]. apply reorder_layer_hash. intros n Hn.
    destruct (Htd idx layer n Hx Hidx Hlen Hn) as (m & Hm & Hin). exists m. split; [done|].
    by apply Ho'. }
  { exact Hkeep_td. }
  { apply Forall_forall. intros [idx layer] Hin. cbn. by apply elem_of_indexed. }
  { done. }
  destruct (fold_sweep_ext
              (fun node_orders '(layer_idx, layer) =>
                 let layer_nodes := od_get nodes_by_layer layer in
                 if (layer_idx =? length layer_numbers - 1)%nat
                    || (length layer_nodes <=? 1)%nat
                 then node_orders
                 else reorder_layer h nodes_by_layer children (layer + 1)
                        layer_nodes node_orders)
              (fun node_orders '(layer_idx, layer) =>
                 let layer_nodes := od_get nodes_by_layer layer in
                 if (layer_idx =? length layer_numbers - 1)%nat
                    || (length layer_nodes <=? 1)%nat
                 then node_orders
                 else reorder_layer h' nodes_by_layer children (layer + 1)
                        layer_nodes node_orders)
              (rev (indexed layer_numbers))
              (fun o => orders_cover o nodes_by_layer)
              (fun x => layer_numbers !! fst x = Some (snd x))
              (top_down_sweep h nodes_by_layer parents layer_numbers o))
    as [Hbu_eq Hbu_cover].
  { intros o' [idx layer] Ho' Hx. cbn in Hx. cbn zeta.
    destruct (Nat.eqb_spec idx (length layer_numbers - 1)) as [|Hidx]; [done|].
    destruct (Nat.leb_spec (length (od_get nodes_by_layer layer)) 1) as [|Hlen]; [done|].
    cbn [orb]. apply reorder_layer_hash. intros n Hn.
    destruct (Hbu idx layer n Hx Hidx Hlen Hn) as (m & Hm & Hin). exists m. split; [done|].
    by apply Ho'. }
  { exact Hkeep_bu. }
  { apply Forall_forall. intros [idx layer] Hin. cbn. apply elem_of_indexed.
    by rewrite (Permutation_rev (indexed layer_numbers)). }
  { exact Htd_cover. }
  rewrite IH by exact Hbu_cover. f_equal.
  transitivity (bottom_up_sweep h' nodes_by_layer children layer_numbers
                  (top_down_sweep h nodes_by_layer parents layer_numbers o)).
  - exact Hbu_eq.
  - f_equal. exact Htd_eq.
Qed.

Lemma Sorted_weaken {A} (R R' : A -> A -> Prop) (l : list A) :
  (forall a b, R a b -> R' a b) -> Sorted R l -> Sorted R' l.
Proof.
  intros HR. induction 1 as [|x l Hs IH Hd]; constructor; [done|].
  destruct Hd; constructor. by apply HR.
Qed.

Lemma sorted_layer_numbers (K : list Z) :
  NoDup K -> (forall k, k ∈ K <-> 0 <= k < Z.of_nat (length K)) ->
  py_sorted Z.ltb K = Z.of_nat <$> seq 0 (length K).
Proof.
  intros Hnd HK. apply (Sorted_unique Z.le).
  - apply (Sorted_weaken (fun a b => Z.ltb b a = false)); [intros a b; lia|].
    apply (py_sorted_sorted Z.ltb). intros x y. lia.
  - apply sorted_numbers.
  - rewrite py_sorted_perm. apply NoDup_Permutation; [done | |].
    + apply NoDup_fmap_2; [intros a b; lia | apply NoDup_seq].
    + intros k. rewrite HK, list_elem_of_fmap. split.
      * intros Hk. exists (Z.to_nat k). split; [lia|]. apply elem_of_seq. lia.
      * intros (i & -> & Hi). apply elem_of_seq in Hi. lia.
Qed.

(** X25. With unique node ids the layout does not depend on the hash, and
    so is the same in every process, when no node takes the hash fallback:
    every node without a child lies in the deepest layer, or alone in its
    layer. *)
Theorem layout_independent_of_hash (h h' : string -> Z) (nodes : list node)
    (edges : list edge) (node_spacing layer_separation : Z) (iterations : nat)
    (Hunique : NoDup (map node_id nodes))
    (Hsinks : forall node_layers n k,
       assign_layers nodes edges = Ok node_layers ->
       n ∈ map node_id nodes -> node_layers !! n = Some k ->
       children_of (valid_edges nodes edges) n = [] ->
       (forall m j, node_layers !! m = Some j -> j <= k)
       \/ layer_width nodes node_layers k = 1%nat) :
  compute_layout_positions h nodes edges node_spacing layer_separation iterations
  = compute_layout_positions h' nodes edges node_spacing layer_separation iterations.
Proof.
  pose proof Hunique as Hnd.
  destruct (decide (nodes = [])) as [->|Hne]; [done|].
  destruct (assign_layers_keys nodes edges) as (lm & Hlm & Hdom & Hnonneg).
  destruct (group_by_layer_spec nodes lm) as (nbl & Hnbl & _ & _ & Hget);
    [intros v Hv; by apply Hdom|].
  destruct (group_by_layer_keys nodes lm nbl) as (Hk & Hitems & Hkeys & Hperm);
    [intros v Hv; by apply Hdom | done |].
  destruct (layers_in_use nodes edges lm nbl Hnd Hne Hlm Hnbl) as [Hcount Huse].
  destruct (build_adjacency_spec nodes edges) as (Hch & Hpa & _).
  assert (py_sorted Z.ltb (map fst nbl) = Z.of_nat <$> seq 0 (length nbl)) as Hnumbers.
  { rewrite <- (length_map fst nbl). apply sorted_layer_numbers; [done|].
    intros k. rewrite Hkeys, Huse, length_map. done. }
  assert (forall idx layer, (Z.of_nat <$> seq 0 (length nbl)) !! idx = Some layer ->
            layer = Z.of_nat idx /\ (idx < length nbl)%nat) as Hidx.
  { intros idx layer Hl. rewrite list_lookup_fmap in Hl.
    destruct (seq 0 (length nbl) !! idx) as [j|] eqn:Hj; [|done].
    apply lookup_seq in Hj as [-> Hj]. cbn in Hl. injection Hl as <-. done. }
  assert (forall layer n, n ∈ od_get nbl layer ->
            n ∈ map node_id nodes /\ lm !! n = Some layer) as Hmem.
  { intros layer n Hn. rewrite Hget in Hn. apply list_elem_of_filter in Hn. tauto. }
  assert (barycenter_ordering h nbl (children (build_adjacency nodes edges))
            (parents (build_adjacency nodes edges)) iterations
          = barycenter_ordering h' nbl (children (build_adjacency nodes edges))
              (parents (build_adjacency nodes edges)) iterations) as Horders.
  { unfold barycenter_ordering. f_equal. rewrite Hnumbers.
    apply sweeps_hash; [| |apply init_orders_cover].
    - intros idx layer n Hl Hne0 _ Hn. apply Hidx in Hl as [-> Hlt].
      destruct (Hmem _ n Hn) as [Hin Hlayer].
      destruct (assign_layers_recurrence_of nodes edges lm Hnd Hlm n _ Hin Hlayer)
        as (_ & _ & [H0|(e & He & Ht & _ & _)]); [lia|].
      exists (source e). split.
      + rewrite Hpa. unfold parents_of. change (map ?f ?l) with (f <$> l).
        apply list_elem_of_fmap. exists e. split; [done|]. by apply list_elem_of_filter.
      + rewrite Hperm. by eapply valid_edges_source.
    - intros idx layer n Hl Hnelast Hlen Hn. apply Hidx in Hl as [-> Hlt].
      rewrite length_fmap, length_seq in Hnelast.
      destruct (Hmem _ n Hn) as [Hin Hlayer].
      destruct (children_of (valid_edges nodes edges) n) as [|c cs] eqn:Hc.
      + exfalso. destruct (Hsinks lm n _ Hlm Hin Hlayer Hc) as [Hdeep|Hone].
        * destruct (proj2 (Huse (Z.of_nat (length nbl - 1)))) as (v & Hv & Hvl); [lia|].
          specialize (Hdeep v _ Hvl). lia.
        * unfold layer_width in Hone. rewrite <- Hget in Hone. lia.
      + exists c. rewrite Hch, Hc. split; [apply elem_of_cons; by left|].
        assert (c ∈ children_of (valid_edges nodes edges) n) as Hcin
          by (rewrite Hc; apply elem_of_cons; by left).
        apply elem_of_children_of in Hcin as (e & He & _ & <-).
        rewrite Hperm. apply elem_of_valid_edges in He. tauto. }
  assert (ordering_stage h nodes edges iterations = ordering_stage h' nodes edges iterations)
    as Hstage.
  { unfold ordering_stage. rewrite Hlm. cbn. rewrite Hnbl. cbn.
    rewrite edge_adjacency_spec. by rewrite Horders. }
  unfold compute_layout_positions. destruct nodes; [done|]. by rewrite Hstage.
Qed.

Lemma layout_independent_of_hash_witness :
  NoDup (map node_id diamond_nodes)
  /\ (forall node_layers n k,
        assign_layers diamond_nodes diamond_edges = Ok node_layers ->
        n ∈ map node_id diamond_nodes -> node_layers !! n = Some k ->
        children_of (valid_edges diamond_nodes diamond_edges) n = [] ->
        (forall m j, node_layers !! m = Some j -> j <= k)
        \/ layer_width diamond_nodes node_layers k = 1%nat)
  /\ compute_layout_positions (fun _ => 0) diamond_nodes diamond_edges 250 200 8
     = compute_layout_positions (fun _ => 9999) diamond_nodes diamond_edges 250 200 8.
Proof.
  assert (NoDup (map node_id diamond_nodes)) as H
    by (apply (bool_decide_unpack _); vm_compute; exact I).
  assert (forall node_layers n k,
            assign_layers diamond_nodes diamond_edges = Ok node_layers ->
            n ∈ map node_id diamond_nodes -> node_layers !! n = Some k ->
            children_of (valid_edges diamond_nodes diamond_edges) n = [] ->
            (forall m j, node_layers !! m = Some j -> j <= k)
            \/ layer_width diamond_nodes node_layers k = 1%nat) as Hsinks.
  { intros lm n k Hlm Hn Hk Hc.
    assert (n = "D") as ->.
    { clear Hlm Hk. cbn in Hn.
      apply elem_of_cons in Hn as [->|Hn]; [vm_compute in Hc; discriminate|].
      apply elem_of_cons in Hn as [->|Hn]; [vm_compute in Hc; discriminate|].
      apply elem_of_cons in Hn as [->|Hn]; [vm_compute in Hc; discriminate|].
      apply elem_of_cons in Hn as [->|Hn]; [reflexivity|].
      by apply elem_of_nil in Hn. }
    right. clear Hn Hc. vm_compute in Hlm. injection Hlm as <-.
    vm_compute in Hk. injection Hk as <-. vm_compute. reflexivity. }
  split; [exact H|]. split; [exact Hsinks|].
  exact (layout_independent_of_hash (fun _ => 0) (fun _ => 9999) diamond_nodes diamond_edges
           250 200 8 H Hsinks).
Defined.

(** ** The sort of a sweep *)

Lemma Qltb_lt (x y : Q) : Qltb x y = true <-> (x < y)%Q.
Proof.
  unfold Qltb. rewrite negb_true_iff. split.
  - intros H. apply Qnot_le_lt. rewrite <- Qle_bool_iff. congruence.
  - intros H. destruct (Qle_bool y x) eqn:E; [|done].
    apply Qle_bool_iff in E. by apply Qlt_not_le in H.
Qed.

Lemma key_ltb_spec (a b : Q * string) :
  key_ltb a b = true
  <-> (fst a < fst b)%Q \/ ((fst a == fst b)%Q /\ String.ltb (snd a) (snd b) = true).
Proof.
  unfold key_ltb. destruct (Qeq_bool (fst a) (fst b)) eqn:E.
  - apply Qeq_bool_iff in E. split; [by right|].
    intros [H|[_ H]]; [|done]. rewrite E in H. by apply Qlt_irrefl in H.
  - rewrite Qltb_lt. split; [by left|]. intros [H|[H _]]; [done|].
    apply Qeq_bool_iff in H. congruence.
Qed.

Lemma key_ltb_irrefl (a : Q * string) : key_ltb a a = false.
Proof.
  destruct (key_ltb a a) eqn:E; [|done]. apply key_ltb_spec in E as [H|[_ H]].
  - by apply Qlt_irrefl in H.
  - by rewrite string_ltb_irrefl in H.
Qed.

Lemma key_ltb_trans (a b c : Q * string) :
  key_ltb a b = true -> key_ltb b c = true -> key_ltb a c = true.
Proof.
  rewrite !key_ltb_spec. intros [H1|[H1 S1]] [H2|[H2 S2]].
  - left. by eapply Qlt_trans.
  - left. by rewrite <- H2.
  - left. by rewrite H1.
  - right. split; [by rewrite H1 | by eapply string_ltb_trans].
Qed.

Lemma key_ltb_total (a b : Q * string) :
  key_ltb a b = true \/ key_ltb b a = true \/ ((fst a == fst b)%Q /\ snd a = snd b).
Proof.
  rewrite !key_ltb_spec.
  destruct (Q_dec (fst a) (fst b)) as [[H|H]|H]; [by left; left | by right; left; left|].
  destruct (string_ltb_total (snd a) (snd b)) as [S|[S|S]].
  - left. by right.
  - right. right. done.
  - right. left. right. by rewrite H.
Qed.

(** [list.sort(key=lambda x: (x[0], x[1]))] puts smaller keys first. *)
Lemma py_sorted_keys (l : list (Q * string)) :
  StronglySorted (fun a b => key_ltb b a = false) (py_sorted key_ltb l).
Proof.
  apply py_sorted_strongly.
  - intros x y H. destruct (key_ltb x y) eqn:E; [|done].
    pose proof (key_ltb_trans _ _ _ H E) as Hc. by rewrite key_ltb_irrefl in Hc.
  - done.
  - intros x y z Hxy Hyz. destruct (key_ltb z x) eqn:E; [|done].
    destruct (key_ltb_total x y) as [H|[H|[Hq Hs]]]; [|congruence|].
    + pose proof (key_ltb_trans _ _ _ E H). congruence.
    + assert (key_ltb z y = true); [|congruence].
      apply key_ltb_spec in E. apply key_ltb_spec.
      destruct E as [E|[E1 E2]]; [left; by rewrite <- Hq|].
      right. split; [by rewrite <- Hq | by rewrite <- Hs].
Qed.

(** After a layer is reordered its nodes are in the order of their keys
    [(barycenter, id)], the barycenters being those over the order map the
    step started from. *)
Lemma reorder_layer_sorted (h : string -> Z) (nodes_by_layer : list (Z * list string))
    (neighbors : gmap string (list string)) (adjacent : Z) (layer_nodes : list string)
    (o : gmap string Z) (a b : string) :
  NoDup layer_nodes -> a ∈ layer_nodes -> b ∈ layer_nodes ->
  key_ltb (compute_barycenter h a (od_get nodes_by_layer adjacent) (dget [] neighbors a) o, a)
          (compute_barycenter h b (od_get nodes_by_layer adjacent) (dget [] neighbors b) o, b)
  = true ->
  exists oa ob,
    reorder_layer h nodes_by_layer neighbors adjacent layer_nodes o !! a = Some oa
    /\ reorder_layer h nodes_by_layer neighbors adjacent layer_nodes o !! b = Some ob
    /\ oa < ob.
Proof.
  intros Hnd Ha Hb Hlt.
  set (bc := fun n => compute_barycenter h n (od_get nodes_by_layer adjacent)
                        (dget [] neighbors n) o).
  set (keyed := map (fun n => (bc n, n)) layer_nodes).
  set (s := py_sorted key_ltb keyed).
  change (reorder_layer h nodes_by_layer neighbors adjacent layer_nodes o)
    with (assign_from 0 (map snd s) o).
  change (key_ltb (bc a, a) (bc b, b) = true) in Hlt.
  assert (map snd s ≡ₚ layer_nodes) as Hperm.
  { unfold s. rewrite py_sorted_perm. unfold keyed. rewrite map_map. cbn. by rewrite map_id. }
  assert (NoDup (map snd s)) as Hnds by (by rewrite Hperm).
  assert (forall n i, map snd s !! i = Some n -> s !! i = Some (bc n, n)) as Hkey.
  { intros n i Hi. change (map snd s) with (snd <$> s) in Hi.
    rewrite list_lookup_fmap in Hi. destruct (s !! i) as [[q m]|] eqn:Hs; [|done].
    cbn in Hi. injection Hi as ->.
    assert ((q, n) ∈ keyed) as Hin.
    { rewrite <- (py_sorted_perm key_ltb). by eapply list_elem_of_lookup_2. }
    unfold keyed in Hin. change (map ?f ?l) with (f <$> l) in Hin.
    apply list_elem_of_fmap in Hin as (n' & [= -> ->] & _). done. }
  assert (a ∈ map snd s) as Hina by (by rewrite Hperm).
  assert (b ∈ map snd s) as Hinb by (by rewrite Hperm).
  apply list_elem_of_lookup in Hina as [i Hi]. apply list_elem_of_lookup in Hinb as [j Hj].
  exists (Z.of_nat i), (Z.of_nat j).
  split; [by rewrite (assign_from_nth 0 _ o i a Hnds Hi)|].
  split; [by rewrite (assign_from_nth 0 _ o j b Hnds Hj)|].
  destruct (lt_eq_lt_dec i j) as [[Hij | ->] | Hji]; [lia| |].
  - assert (a = b) as -> by congruence. by rewrite key_ltb_irrefl in Hlt.
  - pose proof (StronglySorted_lookup _ _ j i _ _ (py_sorted_keys keyed)
                  (Hkey _ _ Hj) (Hkey _ _ Hi) Hji) as HR.
    cbn in HR. congruence.
Qed.

(** ** More on [compute_barycenter] *)




(** *** Results on the barycenter and on a sweep step *)


(** X27. A sweep step leaves the layer it reorders sorted by
    [(barycenter, id)]: of two nodes of the layer, the one with the smaller
    barycenter (over the order map the step started from) gets the smaller
    order index, and on equal barycenters the one with the smaller id. *)
Theorem sweep_step_sorts_by_barycenter (h : string -> Z)
    (nodes_by_layer : list (Z * list string)) (neighbors : gmap string (list string))
    (adjacent_layer : Z) (layer_nodes : list string) (node_orders : gmap string Z)
    (Hunique : NoDup layer_nodes) :
  forall a b,
    a ∈ layer_nodes -> b ∈ layer_nodes ->
    key_ltb (compute_barycenter h a (od_get nodes_by_layer adjacent_layer)
               (dget [] neighbors a) node_orders, a)
            (compute_barycenter h b (od_get nodes_by_layer adjacent_layer)
               (dget [] neighbors b) node_orders, b) = true ->
    exists oa ob,
      reorder_layer h nodes_by_layer neighbors adjacent_layer layer_nodes node_orders !! a
      = Some oa
      /\ reorder_layer h nodes_by_layer neighbors adjacent_layer layer_nodes node_orders !! b
         = Some ob
      /\ oa < ob.
Proof. intros a b. by apply reorder_layer_sorted. Qed.

Lemma sweep_step_sorts_by_barycenter_witness :
  NoDup ["B"; "C"]
  /\ "C" ∈ ["B"; "C"] /\ "B" ∈ ["B"; "C"]
  /\ key_ltb (compute_barycenter (fun _ => 0) "C"
                (od_get [(0, ["A"; "Z"]); (1, ["B"; "C"])] 0)
                (dget [] {["B" := ["Z"]; "C" := ["A"]]} "C") {["A" := 0; "Z" := 1]}, "C")
             (compute_barycenter (fun _ => 0) "B"
                (od_get [(0, ["A"; "Z"]); (1, ["B"; "C"])] 0)
                (dget [] {["B" := ["Z"]; "C" := ["A"]]} "B") {["A" := 0; "Z" := 1]}, "B")
     = true
  /\ exists oa ob,
       reorder_layer (fun _ => 0) [(0, ["A"; "Z"]); (1, ["B"; "C"])]
         {["B" := ["Z"]; "C" := ["A"]]} 0 ["B"; "C"] {["A" := 0; "Z" := 1]} !! "C" = Some oa
       /\ reorder_layer (fun _ => 0) [(0, ["A"; "Z"]); (1, ["B"; "C"])]
            {["B" := ["Z"]; "C" := ["A"]]} 0 ["B"; "C"] {["A" := 0; "Z" := 1]} !! "B"
          = Some ob
       /\ oa < ob.
Proof.
  assert (NoDup ["B"; "C"]) as H by (apply (bool_decide_unpack _); vm_compute; exact I).
  assert ("C" ∈ ["B"; "C"]) as Ha by (apply (bool_decide_unpack _); vm_compute; exact I).
  assert ("B" ∈ ["B"; "C"]) as Hb by (apply (bool_decide_unpack _); vm_compute; exact I).
  assert (key_ltb (compute_barycenter (fun _ => 0) "C"
                     (od_get [(0, ["A"; "Z"]); (1, ["B"; "C"])] 0)
                     (dget [] {["B" := ["Z"]; "C" := ["A"]]} "C") {["A" := 0; "Z" := 1]}, "C")
                  (compute_barycenter (fun _ => 0) "B"
                     (od_get [(0, ["A"; "Z"]); (1, ["B"; "C"])] 0)
                     (dget [] {["B" := ["Z"]; "C" := ["A"]]} "B") {["A" := 0; "Z" := 1]}, "B")
          = true) as Hlt by (vm_compute; reflexivity).
  repeat (split; [assumption|]).
  exact (sweep_step_sorts_by_barycenter (fun _ => 0) [(0, ["A"; "Z"]); (1, ["B"; "C"])]
           {["B" := ["Z"]; "C" := ["A"]]} 0 ["B"; "C"] {["A" := 0; "Z" := 1]} H
           "C" "B" Ha Hb Hlt).
Defined.

(** ** The bottom layer in the final order map *)

Lemma py_sorted_strings_perm (l l' : list string) :
  l ≡ₚ l' -> py_sorted String.ltb l = py_sorted String.ltb l'.
Proof.
  intros Hp.
  assert (Transitive (fun a b : string => String.ltb b a = false)) as Htrans.
  { intros x y z Hxy Hyz. destruct (String.ltb z x) eqn:E; [|done].
    destruct (string_ltb_total x y) as [H|[->|H]]; [|congruence|congruence].
    pose proof (string_ltb_trans _ _ _ E H). congruence. }
  assert (AntiSymm (=) (fun a b : string => String.ltb b a = false)) as Hanti.
  { intros x y Hxy Hyx. destruct (string_ltb_total x y) as [H|[->|H]]; [congruence|done|congruence]. }
  apply (Sorted_unique (fun a b : string => String.ltb b a = false)).
  - apply StronglySorted_Sorted, py_sorted_strings.
  - apply StronglySorted_Sorted, py_sorted_strings.
  - by rewrite !py_sorted_perm.
Qed.

Lemma ordering_stage_inv (h : string -> Z) (nodes : list node) (edges : list edge)
    (iterations : nat) (node_layers : gmap string Z)
    (nodes_by_layer : list (Z * list string)) (node_orders : gmap string Z) :
  ordering_stage h nodes edges iterations = Ok (node_layers, nodes_by_layer, node_orders) ->
  assign_layers nodes edges = Ok node_layers
  /\ group_by_layer nodes node_layers = Ok nodes_by_layer
  /\ node_orders
     = barycenter_ordering h nodes_by_layer (children (build_adjacency nodes edges))
         (parents (build_adjacency nodes edges)) iterations.
Proof.
  unfold ordering_stage. rewrite edge_adjacency_spec.
  destruct (assign_layers nodes edges) as [lm| |] eqn:Hlm; cbn; [|done..].
  destruct (group_by_layer nodes lm) as [nbl| |] eqn:Hnbl; cbn; [|done..].
  by intros [= <- <- <-].
Qed.

Lemma parents_of_NoDup (E : list edge) (v : string) : NoDup E -> NoDup (parents_of E v).
Proof.
  intros Hnd. unfold parents_of. change (map ?f ?l) with (f <$> l).
  induction Hnd as [|e E He Hnd IH]; [constructor|].
  rewrite filter_cons. destruct (decide (target e = v)) as [Ht|Ht]; [|done].
  cbn. constructor; [|done]. intros Hin. apply list_elem_of_fmap in Hin as (e' & Hs & Hin).
  apply list_elem_of_filter in Hin as [Ht' Hin]. apply He.
  destruct e as [s t], e' as [s' t']. cbn in *. by subst.
Qed.

(** In a graph of two layers or more whose deepest layer holds two nodes or
    more, the final order of a node of the deepest layer is the one
    [order_bottom_layer_by_support] gives it, and the node has a parent. *)
Lemma bottom_layer_final_order (h : string -> Z) (nodes : list node) (edges : list edge)
    (iterations : nat) (node_layers : gmap string Z)
    (nodes_by_layer : list (Z * list string)) (node_orders : gmap string Z) :
  NoDup (map node_id nodes) ->
  ordering_stage h nodes edges iterations = Ok (node_layers, nodes_by_layer, node_orders) ->
  (1 < length nodes_by_layer)%nat ->
  (1 < layer_width nodes node_layers (Z.of_nat (length nodes_by_layer - 1)))%nat ->
  exists parent_orders,
    let bottom := filter (fun m => node_layers !! m = Some (Z.of_nat (length nodes_by_layer - 1)))
                         (map node_id nodes) in
    NoDup bottom
    /\ forall n, n ∈ bottom ->
         node_orders !! n
         = order_bottom_layer_by_support bottom (parents (build_adjacency nodes edges))
             parent_orders !! n
         /\ group_key (parents (build_adjacency nodes edges)) n
            = py_sorted String.ltb (parents_of (valid_edges nodes edges) n)
         /\ parents_of (valid_edges nodes edges) n <> [].
Proof.
  intros Hnd Hstage HL Hwide.
  destruct (ordering_stage_inv _ _ _ _ _ _ _ Hstage) as (Hlm & Hnbl & ->).
  assert (nodes <> []) as Hne.
  { intros ->. cbn in Hnbl. injection Hnbl as <-. cbn in HL. lia. }
  destruct (assign_layers_keys nodes edges) as (lm & Hlm' & Hdom & _).
  assert (lm = node_layers) as -> by congruence.
  destruct (group_by_layer_spec nodes node_layers) as (nbl & Hnbl' & _ & _ & Hget);
    [intros v Hv; by apply Hdom|].
  assert (nbl = nodes_by_layer) as -> by congruence.
  destruct (group_by_layer_keys nodes node_layers nodes_by_layer) as (Hk & _ & Hkeys & _);
    [intros v Hv; by apply Hdom | done |].
  destruct (layers_in_use nodes edges node_layers nodes_by_layer Hnd Hne Hlm Hnbl)
    as [_ Huse].
  destruct (build_adjacency_spec nodes edges) as (_ & Hpa & _).
  assert (py_sorted Z.ltb (map fst nodes_by_layer)
          = Z.of_nat <$> seq 0 (length nodes_by_layer)) as Hnumbers.
  { rewrite <- (length_map fst nodes_by_layer). apply sorted_layer_numbers; [done|].
    intros k. rewrite Hkeys, Huse, length_map. done. }
  unfold barycenter_ordering. rewrite Hnumbers.
  set (sw := sweeps h iterations nodes_by_layer _ _ _ _).
  exists sw. cbn zeta. split; [by apply NoDup_filter|].
  unfold regroup_bottom.
  assert (last (Z.of_nat <$> seq 0 (length nodes_by_layer))
          = Some (Z.of_nat (length nodes_by_layer - 1))) as ->.
  { rewrite last_lookup, length_fmap, length_seq, list_lookup_fmap.
    rewrite lookup_seq_lt by lia. cbn. do 2 f_equal. lia. }
  rewrite Hget. unfold layer_width in Hwide.
  rewrite length_fmap, length_seq.
  destruct (Nat.ltb_spec 1 (length (filter (fun i => node_layers !! i
              = Some (Z.of_nat (length nodes_by_layer - 1))) (map node_id nodes))));
    [|lia].
  destruct (Nat.ltb_spec 1 (length nodes_by_layer)); [|lia]. cbn [andb].
  intros n Hn. split; [|split].
  - destruct (proj2 (order_bottom_keys _ (parents (build_adjacency nodes edges)) sw n) Hn)
      as [k Hk'].
    rewrite Hk'. by apply lookup_union_Some_l.
  - apply list_elem_of_filter in Hn as [Hl Hin].
    destruct (assign_layers_recurrence_of nodes edges node_layers Hnd Hlm n _ Hin Hl)
      as (_ & _ & [Hz|(e & He & Ht & _ & _)]); [lia|].
    unfold group_key. rewrite Hpa.
    destruct (parents_of (valid_edges nodes edges) n) as [|p ps] eqn:E; [|done].
    assert (source e ∈ parents_of (valid_edges nodes edges) n) as Hs.
    { unfold parents_of. change (map ?f ?l) with (f <$> l).
      apply list_elem_of_fmap. exists e. split; [done|]. by apply list_elem_of_filter. }
    rewrite E in Hs. by apply elem_of_nil in Hs.
  - apply list_elem_of_filter in Hn as [Hl Hin].
    destruct (assign_layers_recurrence_of nodes edges node_layers Hnd Hlm n _ Hin Hl)
      as (_ & _ & [Hz|(e & He & Ht & _ & _)]); [lia|].
    intros E.
    assert (source e ∈ parents_of (valid_edges nodes edges) n) as Hs.
    { unfold parents_of. change (map ?f ?l) with (f <$> l).
      apply list_elem_of_fmap. exists e. split; [done|]. by apply list_elem_of_filter. }
    rewrite E in Hs. by apply elem_of_nil in Hs.
Qed.

(** X28. In the final order map of a graph with unique node ids and no
    repeated edge, which has two layers or more and two nodes or more in its
    deepest layer, the nodes of the deepest layer with the same set of
    parents sit together: a node of that layer whose order index lies
    between those of two nodes with equal parent sets has that parent set
    too. *)
Theorem equal_parent_sets_sit_together (h : string -> Z) (nodes : list node)
    (edges : list edge) (iterations : nat)
    (Hunique : NoDup (map node_id nodes))
    (Hsimple : NoDup (valid_edges nodes edges)) :
  exists node_layers nodes_by_layer node_orders,
    ordering_stage h nodes edges iterations = Ok (node_layers, nodes_by_layer, node_orders)
    /\ ((1 < length nodes_by_layer)%nat ->
        (1 < layer_width nodes node_layers (Z.of_nat (length nodes_by_layer - 1)))%nat ->
        forall a b c oa ob oc,
          a ∈ map node_id nodes -> b ∈ map node_id nodes -> c ∈ map node_id nodes ->
          node_layers !! a = Some (Z.of_nat (length nodes_by_layer - 1)) ->
          node_layers !! b = Some (Z.of_nat (length nodes_by_layer - 1)) ->
          node_layers !! c = Some (Z.of_nat (length nodes_by_layer - 1)) ->
          node_orders !! a = Some oa -> node_orders !! b = Some ob ->
          node_orders !! c = Some oc ->
          (forall p, p ∈ parents_of (valid_edges nodes edges) a
                     <-> p ∈ parents_of (valid_edges nodes edges) b) ->
          oa <= oc <= ob ->
          forall p, p ∈ parents_of (valid_edges nodes edges) c
                    <-> p ∈ parents_of (valid_edges nodes edges) a).
Proof.
  destruct (pipeline_spec h nodes edges 0 0 iterations Hunique)
    as (lm & nbl & orders & _ & _ & _ & Hstage & _).
  exists lm, nbl, orders. split; [done|].
  intros HL Hwide a b c oa ob oc Ha Hb Hc Hla Hlb Hlc Hoa Hob Hoc Hsame Hle.
  destruct (bottom_layer_final_order h nodes edges iterations lm nbl orders
              Hunique Hstage HL Hwide) as (po & Hnd & Hbottom).
  cbn zeta in Hnd, Hbottom.
  set (bottom := filter (fun m => lm !! m = Some (Z.of_nat (length nbl - 1)))
                        (map node_id nodes)) in *.
  assert (a ∈ bottom) as Hina by (by apply list_elem_of_filter).
  assert (b ∈ bottom) as Hinb by (by apply list_elem_of_filter).
  assert (c ∈ bottom) as Hinc by (by apply list_elem_of_filter).
  destruct (Hbottom a Hina) as (Hfa & Hka & _).
  destruct (Hbottom b Hinb) as (Hfb & Hkb & _).
  destruct (Hbottom c Hinc) as (Hfc & Hkc & _).
  assert (forall u v,
            py_sorted String.ltb (parents_of (valid_edges nodes edges) u)
            = py_sorted String.ltb (parents_of (valid_edges nodes edges) v) ->
            forall p, p ∈ parents_of (valid_edges nodes edges) u
                      <-> p ∈ parents_of (valid_edges nodes edges) v) as Hsets.
  { intros u v Heq p.
    rewrite <- (py_sorted_perm String.ltb (parents_of _ u)), Heq, py_sorted_perm. done. }
  apply Hsets. rewrite <- Hkc, <- Hka.
  apply (bottom_groups_contiguous bottom (parents (build_adjacency nodes edges)) po
           a b c oa ob oc); try done; try congruence.
  rewrite Hka, Hkb. apply py_sorted_strings_perm.
  apply NoDup_Permutation; [by apply parents_of_NoDup..|done].
Qed.

Lemma equal_parent_sets_sit_together_witness :
  NoDup (map node_id twin_nodes)
  /\ NoDup (valid_edges twin_nodes twin_edges)
  /\ exists node_layers nodes_by_layer node_orders,
       ordering_stage (fun _ => 0) twin_nodes twin_edges 8
       = Ok (node_layers, nodes_by_layer, node_orders)
       /\ (1 < length nodes_by_layer)%nat
       /\ (1 < layer_width twin_nodes node_layers
                (Z.of_nat (length nodes_by_layer - 1)))%nat
       /\ "d" ∈ map node_id twin_nodes /\ "g" ∈ map node_id twin_nodes
       /\ "e" ∈ map node_id twin_nodes
       /\ node_layers !! "d" = Some (Z.of_nat (length nodes_by_layer - 1))
       /\ node_layers !! "g" = Some (Z.of_nat (length nodes_by_layer - 1))
       /\ node_layers !! "e" = Some (Z.of_nat (length nodes_by_layer - 1))
       /\ node_orders !! "d" = Some 0 /\ node_orders !! "g" = Some 2
       /\ node_orders !! "e" = Some 1
       /\ (forall p, p ∈ parents_of (valid_edges twin_nodes twin_edges) "d"
                     <-> p ∈ parents_of (valid_edges twin_nodes twin_edges) "g")
       /\ 0 <= 1 <= 2
       /\ forall p, p ∈ parents_of (valid_edges twin_nodes twin_edges) "e"
                    <-> p ∈ parents_of (valid_edges twin_nodes twin_edges) "d".
Proof.
  assert (NoDup (map node_id twin_nodes)) as H
    by (apply (bool_decide_unpack _); vm_compute; exact I).
  assert (NoDup (valid_edges twin_nodes twin_edges)) as H'
    by (apply (bool_decide_unpack _); vm_compute; exact I).
  assert ("d" ∈ map node_id twin_nodes) as Ha
    by (apply (bool_decide_unpack _); vm_compute; exact I).
  assert ("g" ∈ map node_id twin_nodes) as Hb
    by (apply (bool_decide_unpack _); vm_compute; exact I).
  assert ("e" ∈ map node_id twin_nodes) as Hc
    by (apply (bool_decide_unpack _); vm_compute; exact I).
  assert (forall p, p ∈ parents_of (valid_edges twin_nodes twin_edges) "d"
                    <-> p ∈ parents_of (valid_edges twin_nodes twin_edges) "g") as Hsame.
  { intros p. vm_compute parents_of. reflexivity. }
  assert (0 <= 1 <= 2) as Hbetween by lia.
  split; [exact H|]. split; [exact H'|].
  destruct (equal_parent_sets_sit_together (fun _ => 0) twin_nodes twin_edges 8 H H')
    as (nl & nbl & no & Hrun & Himp).
  exists nl, nbl, no. split; [exact Hrun|].
  assert (match ordering_stage (fun _ => 0) twin_nodes twin_edges 8 with
          | Ok (nl, nbl, no) =>
              bool_decide
                ((1 < length nbl)%nat
                 /\ (1 < layer_width twin_nodes nl (Z.of_nat (length nbl - 1)))%nat
                 /\ nl !! "d" = Some (Z.of_nat (length nbl - 1))
                 /\ nl !! "g" = Some (Z.of_nat (length nbl - 1))
                 /\ nl !! "e" = Some (Z.of_nat (length nbl - 1))
                 /\ no !! "d" = Some 0 /\ no !! "g" = Some 2 /\ no !! "e" = Some 1)
          | _ => false
          end = true) as Hcheck by (vm_compute; reflexivity).
  rewrite Hrun in Hcheck.
  apply bool_decide_eq_true in Hcheck
    as (Hlayers & Hwidth & Hla & Hlb & Hlc & Hoa & Hob & Hoc).
  repeat (split; [assumption|]).
  exact (Himp Hlayers Hwidth "d" "g" "e" 0 2 1 Ha Hb Hc Hla Hlb Hlc Hoa Hob Hoc
           Hsame Hbetween).
Defined.

(** ** A graph without included edges *)

Lemma sweeps_single_layer (h : string -> Z) (iterations : nat)
    (nodes_by_layer : list (Z * list string)) (children parents : gmap string (list string))
    (layer : Z) (o : gmap string Z) :
  sweeps h iterations nodes_by_layer children parents [layer] o = o.
Proof. revert o. induction iterations as [|k IH]; intros o; cbn; [done | apply IH]. Qed.

Lemma filter_all {A} (P : A -> Prop) `{forall a, Decision (P a)} (l : list A) :
  (forall a, a ∈ l -> P a) -> filter P l = l.
Proof.
  induction l as [|a l IH]; intros Hl; [done|].
  rewrite filter_cons, decide_True by (apply Hl; apply elem_of_cons; by left).
  f_equal. apply IH. intros b Hb. apply Hl. apply elem_of_cons. by right.
Qed.

Lemma sorted_strings_index (l : list string) (a b : string) (i j : nat) :
  py_sorted String.ltb l !! i = Some a -> py_sorted String.ltb l !! j = Some b ->
  String.ltb a b = true -> (i < j)%nat.
Proof.
  intros Hi Hj Hlt. destruct (lt_eq_lt_dec i j) as [[Hij | ->] | Hji]; [done| |].
  - assert (a = b) as -> by congruence. by rewrite string_ltb_irrefl in Hlt.
  - pose proof (StronglySorted_lookup _ _ j i b a (py_sorted_strings l) Hj Hi Hji) as HR.
    cbn in HR. congruence.
Qed.

(** X29. A graph with unique node ids and no edge between its nodes is
    drawn as one row, at [y = 0], in the order of the ids: with a positive
    spacing the node with the smaller id lies to the left. *)
Theorem edgeless_graph_in_alphabetical_row (h : string -> Z) (nodes : list node)
    (edges : list edge) (node_spacing layer_separation : Z) (iterations : nat)
    (Hunique : NoDup (map node_id nodes))
    (Hedgeless : valid_edges nodes edges = [])
    (Hspacing : 0 < node_spacing) :
  exists positions metrics node_layers,
    compute_layout_positions h nodes edges node_spacing layer_separation iterations
    = Ok (positions, metrics, node_layers)
    /\ (forall n, n ∈ map node_id nodes ->
          node_layers !! n = Some 0 /\ exists x, positions !! n = Some (x, 0))
    /\ forall a b, a ∈ map node_id nodes -> b ∈ map node_id nodes ->
         String.ltb a b = true ->
         exists xa xb, positions !! a = Some (xa, 0) /\ positions !! b = Some (xb, 0)
                       /\ xa < xb.
Proof.
  destruct (layout_geometry h nodes edges node_spacing layer_separation iterations Hunique)
    as (lm & nbl & orders & pos & met & Hlm & Hstage & Hrun & Hpos & _ & _).
  exists pos, met, lm. split; [done|].
  assert (forall n k, n ∈ map node_id nodes -> lm !! n = Some k -> k = 0) as Hzero.
  { intros n k Hn Hk.
    destruct (assign_layers_recurrence_of nodes edges lm Hunique Hlm n k Hn Hk)
      as (_ & _ & [Hz|(e & He & _)]); [done|].
    rewrite Hedgeless in He. by apply elem_of_nil in He. }
  assert (forall n, n ∈ map node_id nodes ->
            exists i, orders !! n = Some (Z.of_nat i)
                      /\ pos !! n = Some (start_x_of (layer_width nodes lm 0) node_spacing
                                          + Z.of_nat i * node_spacing, 0)) as Hrow.
  { intros n Hn. destruct (Hpos n Hn) as (layer & i & Hl & Ho & _ & Hp).
    assert (layer = 0) as -> by exact (Hzero n layer Hn Hl). exists i. split; [done|].
    exact Hp. }
  split.
  { intros n Hn. destruct (Hpos n Hn) as (layer & i & Hl & _ & _ & _).
    assert (layer = 0) as -> by exact (Hzero n layer Hn Hl).
    destruct (Hrow n Hn) as (j & _ & Hp). eauto. }
  intros a b Ha Hb Hlt.
  destruct (Hrow a Ha) as (i & Hoa & Hpa). destruct (Hrow b Hb) as (j & Hob & Hpb).
  eexists _, _. split; [done|]. split; [done|].
  enough (i < j)%nat by nia.
  (* the order map is the numbering of the sorted ids *)
  destruct (ordering_stage_inv _ _ _ _ _ _ _ Hstage) as (_ & Hnbl & Horders).
  destruct (assign_layers_keys nodes edges) as (lm' & Hlm' & Hdom & _).
  assert (lm' = lm) as -> by congruence.
  destruct (group_by_layer_keys nodes lm nbl) as (Hk & Hitems & Hkeys & _);
    [intros v Hv; by apply Hdom | done |].
  assert (nbl = [(0, map node_id nodes)]) as ->.
  { assert (forall item, item ∈ nbl -> item = (0, map node_id nodes)) as Hall.
    { intros [k l] Hin. destruct (Hitems k l Hin) as [_ ->].
      assert (k = 0) as ->.
      { apply (list_elem_of_fmap_2 fst) in Hin. apply Hkeys in Hin as (v & Hv & Hl).
        exact (Hzero v k Hv Hl). }
      f_equal. apply filter_all. intros n Hn.
      destruct (Hdom n) as [_ [k Hk']]; [done|]. rewrite Hk'. f_equal.
      exact (Hzero n k Hn Hk'). }
    destruct nbl as [|it1 nbl'].
    { exfalso. assert (0 ∈ map fst (@nil (Z * list string))) as Hin.
      { apply Hkeys. destruct (Hrow a Ha) as (i' & _ & _).
        exists a. split; [done|]. destruct (Hdom a) as [_ [k Hk']]; [done|].
        rewrite Hk'. f_equal. exact (Hzero a k Ha Hk'). }
      by apply elem_of_nil in Hin. }
    rewrite (Hall it1) by (apply elem_of_cons; by left).
    destruct nbl' as [|it2 nbl'']; [done|]. exfalso.
    rewrite (Hall it1) in Hk by (apply elem_of_cons; by left).
    rewrite (Hall it2) in Hk by (apply elem_of_cons; right; apply elem_of_cons; by left).
    cbn in Hk. apply NoDup_cons in Hk as [Hk _]. apply Hk. apply elem_of_cons. by left. }
  assert (orders = assign_from 0 (py_sorted String.ltb (map node_id nodes)) ∅) as Heq.
  { rewrite Horders. unfold barycenter_ordering. cbn [map fst py_sorted insert_sorted].
    rewrite sweeps_single_layer. unfold regroup_bottom. cbn [last length].
    rewrite andb_false_r. reflexivity. }
  assert (NoDup (py_sorted String.ltb (map node_id nodes))) as Hnds
    by (by rewrite py_sorted_perm).
  assert (a ∈ py_sorted String.ltb (map node_id nodes)) as Hina by (by rewrite py_sorted_perm).
  assert (b ∈ py_sorted String.ltb (map node_id nodes)) as Hinb by (by rewrite py_sorted_perm).
  apply list_elem_of_lookup in Hina as [i' Hi']. apply list_elem_of_lookup in Hinb as [j' Hj'].
  rewrite Heq, (assign_from_nth 0 _ ∅ i' a Hnds Hi') in Hoa.
  rewrite Heq, (assign_from_nth 0 _ ∅ j' b Hnds Hj') in Hob.
  assert (i = i') as -> by (injection Hoa; lia). assert (j = j') as -> by (injection Hob; lia).
  by eapply sorted_strings_index.
Qed.

Lemma edgeless_graph_in_alphabetical_row_witness :
  NoDup (map node_id lone_nodes)
  /\ valid_edges lone_nodes [Edge "a" "zz"] = []
  /\ 0 < 250
  /\ exists positions metrics node_layers,
       compute_layout_positions (fun _ => 0) lone_nodes [Edge "a" "zz"] 250 200 8
       = Ok (positions, metrics, node_layers)
       /\ (forall n, n ∈ map node_id lone_nodes ->
             node_layers !! n = Some 0 /\ exists x, positions !! n = Some (x, 0))
       /\ forall a b, a ∈ map node_id lone_nodes -> b ∈ map node_id lone_nodes ->
            String.ltb a b = true ->
            exists xa xb, positions !! a = Some (xa, 0) /\ positions !! b = Some (xb, 0)
                          /\ xa < xb.
Proof.
  assert (NoDup (map node_id lone_nodes)) as H
    by (apply (bool_decide_unpack _); vm_compute; exact I).
  assert (valid_edges lone_nodes [Edge "a" "zz"] = []) as H' by (vm_compute; reflexivity).
  assert (0 < 250) as Hsp by lia.
  split; [exact H|]. split; [exact H'|]. split; [exact Hsp|].
  exact (edgeless_graph_in_alphabetical_row (fun _ => 0) lone_nodes [Edge "a" "zz"] 250 200 8
           H H' Hsp).
Defined.
